(** * Burrow detection (pass 4) of the mouse-tracking pipeline

    A shallow embedding of [mousetracking/algorithm/pass4.py]: the persistent
    burrow mask and its per-frame update, the chunk extraction, the
    connectivity resolver [connect_burrow_chunks] and the track manager
    [add_burrows_to_tracks].

    Conventions.
    - [uint8] rasters are lists of rows of [Z]; every raster of a run has the
      shape [video.size], so rasters are rebuilt over that shape and read
      inside it.
    - Python floats are modelled by rationals [Q]; only sums, products with
      constants and comparisons are used on them.
    - OpenCV, SciPy and Shapely primitives whose code is not part of the
      repository are fields of the classes [Rasterizer], [Labelling] and
      [Geometry]; the morphological operators are written out. *)

From Stdlib Require Import ZArith QArith Qround Lia Lqa.
From stdpp Require Import base list gmap.

Local Open Scope nat_scope.

(* ===================================================================== *)
(** * Part I: the embedding                                               *)
(* ===================================================================== *)

(** Python exceptions that the modelled code can raise. *)
Inductive exn := ValueError | IndexError | TypeError.

Inductive result (A : Type) : Type :=
| Ok (a : A)
| Raise (e : exn).
Arguments Ok {A} a.
Arguments Raise {A} e.

Definition rbind {A B} (r : result A) (k : A -> result B) : result B :=
  match r with
  | Ok a => k a
  | Raise e => Raise e
  end.

Notation "'let!' x ':=' r 'in' k" := (rbind r (fun x => k))
  (at level 10, x name, r at level 100, k at level 200).

(** Comparison of floats, as booleans. *)
Definition Qltb (a b : Q) : bool := negb (Qle_bool b a).
Definition Qgtb (a b : Q) : bool := Qltb b a.

(** [int(x)] of a float, also the cast [np.int32]: truncation. *)
Definition int_of (x : Q) : Z := Z.quot (Qnum x) (Zpos (Qden x)).

Module Raster.

Abbreviation image := (list (list Z)).

(** [img[y, x]]; reads are always inside the shape. *)
Definition pixel (img : image) (y x : nat) : Z :=
  match img !! y with
  | Some row => default 0%Z (row !! x)
  | None => 0%Z
  end.

(** A raster of shape [(h, w)] given pixel by pixel. *)
Definition mkimage (h w : nat) (f : nat -> nat -> Z) : image :=
  map (fun y => map (fun x => f y x) (seq 0 w)) (seq 0 h).

(** [np.zeros((h, w), np.uint8)] *)
Definition zeros (h w : nat) : image := mkimage h w (fun _ _ => 0%Z).

Definition row_sum (row : list Z) : Z := foldr Z.add 0%Z row.

(** [img.sum()] *)
Definition img_sum (img : image) : Z :=
  foldr (fun row acc => (row_sum row + acc)%Z) 0%Z img.

(** Number of pixels of the shape [(h, w)] that satisfy [c]. *)
Definition count_row (w : nat) (c : nat -> bool) : nat :=
  length (filter (fun x => c x = true) (seq 0 w)).

Definition count_px (h w : nat) (c : nat -> nat -> bool) : nat :=
  foldr (fun y acc => count_row w (c y) + acc) 0 (seq 0 h).

(** [dst[cond] = v] on a raster of shape [(h, w)]. *)
Definition assign_where (h w : nat) (dst : image)
    (cond : nat -> nat -> bool) (v : Z) : image :=
  mkimage h w (fun y x => if cond y x then v else pixel dst y x).

(** ** Morphology *)

(** A structuring element, as the offsets [(dy, dx)] of its set cells
    from its anchor (the centre). *)
Abbreviation kernel := (list (Z * Z)).

(** [cv2.getStructuringElement(cv2.MORPH_ELLIPSE, (3, 3))] is the cross
    [[0,1,0],[1,1,1],[0,1,0]]. *)
Definition MORPH_ELLIPSE_3x3 : kernel :=
  [(-1, 0); (0, -1); (0, 0); (0, 1); (1, 0)]%Z.

(** The cell at offset [d] from [(y, x)], if it lies inside the shape. *)
Definition neighbour (h w y x : nat) (d : Z * Z) : option (nat * nat) :=
  let y' := (Z.of_nat y + d.1)%Z in
  let x' := (Z.of_nat x + d.2)%Z in
  if ((0 <=? y') && (y' <? Z.of_nat h) && (0 <=? x') && (x' <? Z.of_nat w))%Z
  then Some (Z.to_nat y', Z.to_nat x')
  else None.

(** [cv2.dilate]: maximum over the element; cells outside the raster
    count as the least value (OpenCV's default border for dilation). *)
Definition dilate (h w : nat) (ker : kernel) (img : image) : image :=
  mkimage h w (fun y x =>
    foldr Z.max 0%Z
      (map (fun d => match neighbour h w y x d with
                     | Some (y', x') => pixel img y' x'
                     | None => 0%Z
                     end) ker)).

(** [cv2.erode]: minimum over the element; cells outside the raster
    count as the greatest value (OpenCV's default border for erosion). *)
Definition erode (h w : nat) (ker : kernel) (img : image) : image :=
  mkimage h w (fun y x =>
    foldr Z.min 255%Z
      (map (fun d => match neighbour h w y x d with
                     | Some (y', x') => pixel img y' x'
                     | None => 255%Z
                     end) ker)).

(** [cv2.morphologyEx(img, cv2.MORPH_OPEN, ker)] *)
Definition morph_open (h w : nat) (ker : kernel) (img : image) : image :=
  dilate h w ker (erode h w ker img).

(** [cv2.morphologyEx(img, cv2.MORPH_CLOSE, ker)] *)
Definition morph_close (h w : nat) (ker : kernel) (img : image) : image :=
  erode h w ker (dilate h w ker img).

(** A structuring element that contains the opposite of each offset. *)
Definition symmetric (ker : kernel) : Prop :=
  forall d, d ∈ ker -> (- d.1, - d.2)%Z ∈ ker.

(** A raster of floats ([background_avg]). *)
Abbreviation qimage := (list (list Q)).

Definition qpixel (img : qimage) (y x : nat) : Q :=
  match img !! y with
  | Some row => default 0%Q (row !! x)
  | None => 0%Q
  end.

(** Every pixel of the shape is 0 or 1. *)
Definition binary (h w : nat) (img : image) : Prop :=
  forall y x, y < h -> x < w -> pixel img y x = 0%Z \/ pixel img y x = 1%Z.

End Raster.
Export Raster.

(** The rasterisation rule of [cv2.fillPoly]: whether the polygon with the
    given integer vertices [(x, y)] covers the pixel in column [x], row [y]. *)
Class Rasterizer := {
  poly_covers : list (Z * Z) -> nat -> nat -> bool;
  (** [cv2.getStructuringElement(cv2.MORPH_ELLIPSE, (w, w))], as offsets. *)
  ellipse_kernel : nat -> list (Z * Z)
}.

(** A point [(x, y)] and an array of points (a contour, an outline). *)
Abbreviation point := (Q * Q)%type.
Abbreviation polyline := (list (Q * Q)).

(** [props.area] and [props.centroid] of [image.regionprops]. *)
Record props := {
  area : Q;
  centroid : point
}.

(** Connected components and their measurements. *)
Class Labelling := {
  (** [scipy.ndimage.measurements.label]: the label raster and the number
      of features; the features carry the labels 1 .. num_features. *)
  label : list (list Z) -> list (list Z) * nat;
  (** [video.analysis.image.regionprops] of a 0/1 raster. *)
  regionprops : list (list Z) -> props;
  (** The outer contour of a 0/1 raster:
      [np.squeeze(np.asarray(cv2.findContours(region, cv2.RETR_EXTERNAL,
      cv2.CHAIN_APPROX_SIMPLE)[0], np.double))]. *)
  find_contour : list (list Z) -> polyline
}.

(** Shapely geometries, SciPy's flat clustering and the helpers of
    [video.analysis.regions] and [video.analysis.curves]. *)
Class Geometry := {
  geom : Type;
  Point : point -> geom;
  LineString : polyline -> geom;
  LinearRing : polyline -> geom;
  Polygon : polyline -> geom;
  (** [geometry.Polygon(ring)] for a ring that is already a geometry. *)
  Polygon_of : geom -> geom;
  (** [MultiPoint(points).convex_hull] *)
  convex_hull : polyline -> geom;
  distance : geom -> geom -> Q;
  union : geom -> geom -> geom;
  buffer : geom -> Q -> geom;
  coords : geom -> polyline;
  regularize_polygon : geom -> geom;
  get_enclosing_outline : geom -> geom;
  regularize_linear_ring : geom -> geom;
  regularize_contour_points : polyline -> polyline;
  get_projection_point : geom -> point -> point;
  (** [cluster.hierarchy.fclusterdata(points, t, criterion='distance')]
      for two points or more, where it returns:
      the cluster id of every point. *)
  fclusterdata : polyline -> Q -> list nat
}.

Module Mask.
Section WithRasterizer.
Context `{Rasterizer}.

(** [cv2.fillPoly(img, [pts], color)] on a raster of shape [(h, w)]. *)
Definition fillPoly (h w : nat) (img : image) (pts : list (Z * Z))
    (color : Z) : image :=
  mkimage h w (fun y x => if poly_covers pts x y then color else pixel img y x).

(** What a frame's processing reads: [self.video.size], [self.ground]
    and the colour statistics and parameters of the earlier passes. *)
Record env := {
  width : nat;
  height : nat;
  ground_points : list (Z * Z);        (* self.ground.points, as (x, y) *)
  color_sand : Q;                      (* pass1/colors/sand *)
  color_sky : Q;                       (* pass1/colors/sky *)
  sand_std : Q;                        (* pass1/colors/sand_std *)
  area_min : Q;                        (* burrows/area_min *)
  ground_point_distance : Q;           (* burrows/ground_point_distance *)
  burrows_width : Q                    (* burrows/width *)
}.

(** The rasters that persist between frames. *)
Record masks := {
  burrow_mask : image;                 (* self.burrow_mask *)
  cache_image_uint8 : image            (* self._cache['image_uint8'] *)
}.

(** The vertices handed to [cv2.fillPoly] by [get_ground_mask]. *)
Definition ground_polygon (e : env) : list (Z * Z) :=
  match ground_points e with
  | [] => []
  | p0 :: _ =>
      ground_points e ++
      [(Z.of_nat (width e), (List.last (ground_points e) p0).2);
       (Z.of_nat (width e), Z.of_nat (height e));
       (0%Z, Z.of_nat (height e)); (0%Z, p0.2)]
  end.

(** [get_ground_mask]: the region below the ground profile, painted 255. *)
Definition get_ground_mask (e : env) : result image :=
  match ground_points e with
  | [] => Raise IndexError             (* ground_points[-5, 1] *)
  | p0 :: _ =>
      let plast := List.last (ground_points e) p0 in
      let W := Z.of_nat (width e) in
      let Hh := Z.of_nat (height e) in
      let pts := ground_points e ++
                 [(W, plast.2); (W, Hh); (0%Z, Hh); (0%Z, p0.2)] in
      Ok (fillPoly (height e) (width e) (zeros (height e) (width e)) pts 255%Z)
  end.

(** [mask[:] = (diff < -change_threshold)] with
    [diff = -self.background_avg + frame]. *)
Definition change_mask (e : env) (background_avg : qimage) (frame : image)
    : image :=
  mkimage (height e) (width e) (fun y x =>
    if Qltb (- qpixel background_avg y x + inject_Z (pixel frame y x))
            (- sand_std e)
    then 1%Z else 0%Z).

(** The flicker test [mask.sum() > 0.1*ground_mask.sum()]. *)
Definition too_much_change (mask ground_mask : image) : bool :=
  Qgtb (inject_Z (img_sum mask)) ((1 # 10) * inject_Z (img_sum ground_mask)).

(** [update_burrow_mask] *)
Definition update_burrow_mask (e : env) (background_avg : qimage)
    (frame : image) (m : masks) : result masks :=
  let! ground_mask := get_ground_mask e in
  let h := height e in
  let w := width e in
  let kernel1 := MORPH_ELLIPSE_3x3 in
  let mask := change_mask e background_avg frame in
  if too_much_change mask ground_mask then
    (* there is way too much change: return immediately *)
    Ok {| burrow_mask := burrow_mask m; cache_image_uint8 := mask |}
  else
    let mask' := morph_open h w kernel1 mask in
    let bm1 := assign_where h w (burrow_mask m)
                 (fun y x => (pixel mask' y x =? 1)%Z) 1%Z in
    let bm2 := morph_close h w kernel1 bm1 in
    let bm3 := assign_where h w bm2
                 (fun y x => (pixel ground_mask y x =? 0)%Z) 0%Z in
    Ok {| burrow_mask := bm3; cache_image_uint8 := mask |}.

(** Number of pixels in the ground region, and of newly flagged pixels. *)
Definition ground_region_size (e : env) (ground_mask : image) : nat :=
  count_px (height e) (width e) (fun y x => negb (pixel ground_mask y x =? 0)%Z).

Definition flagged_count (e : env) (background_avg : qimage) (frame : image)
    : nat :=
  count_px (height e) (width e)
    (fun y x => (pixel (change_mask e background_avg frame) y x =? 1)%Z).

End WithRasterizer.

Section WithVision.
Context `{Rasterizer} `{Labelling} `{Geometry}.

(** [self.ground.linestring] *)
Definition ground_line (e : env) : geom :=
  LineString (map (fun p : Z * Z => (inject_Z p.1, inject_Z p.2))
                  (ground_points e)).

(** The 0/1 raster [labels == lbl]. *)
Definition region (e : env) (labels : image) (lbl : nat) : image :=
  mkimage (height e) (width e)
    (fun y x => if (pixel labels y x =? Z.of_nat lbl)%Z then 1%Z else 0%Z).

(** [ndimage.measurements.sum(input, labels, index=lbl)]: the sum of
    [input] over the pixels that carry the label. *)
Definition ndimage_sum (e : env) (input labels : image) (lbl : nat) : Z :=
  img_sum (mkimage (height e) (width e)
             (fun y x => if (pixel labels y x =? Z.of_nat lbl)%Z
                         then pixel input y x else 0%Z)).

(** Number of pixels that carry the label. *)
Definition region_size (e : env) (labels : image) (lbl : nat) : nat :=
  count_px (height e) (width e) (fun y x => (pixel labels y x =? Z.of_nat lbl)%Z).

(** [frame[labels == lbl].mean()] *)
Definition region_mean (e : env) (frame labels : image) (lbl : nat) : Q :=
  inject_Z (ndimage_sum e frame labels lbl)
  / inject_Z (Z.of_nat (region_size e labels lbl)).

(** [max(areas)] *)
Definition max_areas (areas : list Z) : result Z :=
  match areas with
  | [] => Raise ValueError             (* max() of an empty sequence *)
  | a :: l => Ok (foldr Z.max a l)
  end.

(** The thresholded, ground-restricted mask of one round:
    [(frame < color_thresh).astype(np.uint8)], then
    [burrow_mask[ground_mask == 0] = 0]. *)
Definition threshold_mask (e : env) (frame ground_mask : image)
    (color_thresh : Q) : image :=
  let bm := mkimage (height e) (width e) (fun y x =>
              if Qltb (inject_Z (pixel frame y x)) color_thresh
              then 1%Z else 0%Z) in
  assign_where (height e) (width e) bm
    (fun y x => (pixel ground_mask y x =? 0)%Z) 0%Z.

(** What the loop calls [largest_area]: the greatest of the per-label
    sums [ndimage.measurements.sum(labels, labels, index=...)]. *)
Definition largest_area (e : env) (bm : image) : result Z :=
  let '(labels, num_features) := label bm in
  max_areas (map (fun lbl => ndimage_sum e labels labels lbl)
                 (seq 1 num_features)).

(** The loop [while largest_area > 10*area_min] of
    [get_initial_burrow_mask]; [largest_area] starts at infinity, so the
    body runs at least once. [None] stands for running out of fuel. *)
Fixpoint threshold_loop (fuel : nat) (e : env) (frame ground_mask : image)
    (color_thresh : Q) : option (result image) :=
  match fuel with
  | O => None
  | S fuel' =>
      let bm := threshold_mask e frame ground_mask color_thresh in
      match largest_area e bm with
      | Raise ex => Some (Raise ex)
      | Ok largest =>
          if Qgtb (inject_Z largest) (10 * area_min e)
          then threshold_loop fuel' e frame ground_mask (color_thresh - 1)
          else Some (Ok bm)
      end
  end.

(** One round of the loop that removes the structures which are too far
    away from the ground line. *)
Definition prune_step (e : env) (labels : image) (bm : image) (lbl : nat)
    : image :=
  let props := regionprops (region e labels lbl) in
  let dist := distance (ground_line e) (Point (centroid props)) in
  if Qgtb dist (ground_point_distance e)
  then assign_where (height e) (width e) bm
         (fun y x => (Z.of_nat lbl =? pixel labels y x)%Z) 0%Z
  else bm.

Definition prune_far (e : env) (bm : image) : image :=
  let '(labels, num_features) := label bm in
  foldl (prune_step e labels) bm (seq 1 num_features).

(** The colour between sand and sky at which the first frame is cut. *)
Definition initial_color_thresh (e : env) : Q :=
  (33 # 100) * color_sand e + (1 - (33 # 100)) * color_sky e.

(** [get_initial_burrow_mask]; the result is the new [self.burrow_mask]. *)
Definition get_initial_burrow_mask (fuel : nat) (e : env) (frame : image)
    : option (result image) :=
  match get_ground_mask e with
  | Raise ex => Some (Raise ex)
  | Ok ground_mask =>
      let w := Z.to_nat (int_of (ground_point_distance e)) in
      let ground_mask := erode (height e) (width e) (ellipse_kernel w)
                           ground_mask in
      match threshold_loop fuel e frame ground_mask (initial_color_thresh e) with
      | None => None
      | Some (Raise ex) => Some (Raise ex)
      | Some (Ok bm) => Some (Ok (prune_far e bm))
      end
  end.

(** The brightness above which a region is no burrow. *)
Definition chunk_color_thresh (e : env) : Q :=
  (8 # 10) * color_sand e + (1 - (8 # 10)) * color_sky e.

(** One round of the loop of [get_burrow_chunks]; the state is the list
    [burrow_chunks] and [self.burrow_mask]. *)
Definition chunk_step (e : env) (frame labels : image)
    (acc : list polyline * image) (lbl : nat) : list polyline * image :=
  let '(burrow_chunks, bm) := acc in
  let props := regionprops (region e labels lbl) in
  if Qltb (area props) (area_min e) then acc
  else
    let dist := distance (ground_line e) (Point (centroid props)) in
    if Qltb dist (ground_point_distance e / 2) then acc
    else
      let color_avg := region_mean e frame labels lbl in
      if Qgtb color_avg (chunk_color_thresh e)
      then (burrow_chunks,
            assign_where (height e) (width e) bm
              (fun y x => (pixel labels y x =? Z.of_nat lbl)%Z) 0%Z)
      else
        let contour := find_contour (region e labels lbl) in
        if 2 <? length contour
        then (burrow_chunks ++ [contour], bm)
        else acc.

(** [get_burrow_chunks]: the chunks and the new [self.burrow_mask]. *)
Definition get_burrow_chunks (e : env) (frame : image) (bm : image)
    : list polyline * image :=
  let '(labels, num_features) := label bm in
  foldl (chunk_step e frame labels) ([], bm) (seq 1 num_features).

(** The threshold after [r] rounds of lowering. *)
Definition lowered (color_thresh : Q) (r : nat) : Q :=
  Nat.iter r (fun c => (c - 1)%Q) color_thresh.

(** The ground mask that restricts the first frame's mask. *)
Definition eroded_ground_mask (e : env) (ground_mask : image) : image :=
  erode (height e) (width e)
    (ellipse_kernel (Z.to_nat (int_of (ground_point_distance e))))
    ground_mask.

(** The distance of a region's centroid from the ground line. *)
Definition centroid_depth (e : env) (labels : image) (lbl : nat) : Q :=
  distance (ground_line e) (Point (centroid (regionprops (region e labels lbl)))).

(** The region is cleared by [get_initial_burrow_mask]. *)
Definition far_from_ground (e : env) (labels : image) (lbl : nat) : bool :=
  Qgtb (centroid_depth e labels lbl) (ground_point_distance e).

(** The region passes the tests of area and of depth. *)
Definition large_and_deep (e : env) (labels : image) (lbl : nat) : bool :=
  negb (Qltb (area (regionprops (region e labels lbl))) (area_min e)) &&
  negb (Qltb (centroid_depth e labels lbl) (ground_point_distance e / 2)).

(** The region is cleared by [get_burrow_chunks]. *)
Definition too_bright (e : env) (frame labels : image) (lbl : nat) : bool :=
  large_and_deep e labels lbl &&
  Qgtb (region_mean e frame labels lbl) (chunk_color_thresh e).

(** The region yields a chunk. *)
Definition kept (e : env) (frame labels : image) (lbl : nat) : bool :=
  large_and_deep e labels lbl &&
  negb (Qgtb (region_mean e frame labels lbl) (chunk_color_thresh e)) &&
  (2 <? length (find_contour (region e labels lbl))).

End WithVision.
End Mask.


Module Resolver.
Import Mask.

(** An entry of [burrow_dist]: a float or [np.inf]. *)
Inductive ereal := Finite (q : Q) | Infinity.

Definition ereal_ltb (a b : ereal) : bool :=
  match a, b with
  | Finite x, Finite y => Qltb x y
  | Finite _, Infinity => true
  | Infinity, _ => false
  end.

Definition ereal_min (a b : ereal) : ereal :=
  if ereal_ltb b a then b else a.

(** [np.argmin]: the first index of a least entry; [None] stands for the
    [ValueError] of an empty array. *)
Fixpoint argmin_from (best : nat) (vbest : ereal) (i : nat) (l : list ereal)
    : nat :=
  match l with
  | [] => best
  | v :: l' =>
      if ereal_ltb v vbest then argmin_from i v (S i) l'
      else argmin_from best vbest (S i) l'
  end.

Definition argmin (l : list ereal) : option nat :=
  match l with
  | [] => None
  | v :: l' => Some (argmin_from 0 v 1 l')
  end.

(** [np.unique]: the sorted distinct values. *)
Definition np_unique (data : list nat) : list nat :=
  List.filter (fun c => bool_decide (c ∈ data)) (seq 0 (S (foldr Nat.max 0 data))).

(** [points[data == cluster_id]] *)
Definition select_cluster (points : polyline) (data : list nat)
    (cluster_id : nat) : polyline :=
  map fst (List.filter (fun pd : point * nat => pd.2 =? cluster_id)
                       (zip points data)).

(** [list.remove(k)]: drops the first occurrence. *)
Fixpoint list_remove_first (k : nat) (l : list nat) : result (list nat) :=
  match l with
  | [] => Raise ValueError
  | x :: l' =>
      if x =? k then Ok l'
      else match list_remove_first k l' with
           | Ok r => Ok (x :: r)
           | Raise ex => Raise ex
           end
  end.

(** A Python object in [burrow_chunks]: its identity and its points. *)
Record obj := {
  oid : nat;
  outline_of : polyline
}.

(** Modelled from the spec: [utils.unique_based_on_id], which is not among
    the sources; it keeps the first of the entries that are the same
    object and drops the later ones. *)
Fixpoint unique_based_on_id (l : list obj) : list obj :=
  match l with
  | [] => []
  | o :: l' =>
      o :: List.filter (fun o' => negb (oid o' =? oid o)) (unique_based_on_id l')
  end.

(** Modelled from the spec: the class [objects.burrow.Burrow], which is
    not among the sources; a burrow wraps its outline. *)
Record Burrow := {
  outline : polyline
}.

(** The variables of [connect_burrow_chunks] that change while it runs,
    with [self.burrow_mask] and the next fresh object identity. *)
Record state := {
  burrow_chunks : list obj;
  next_id : nat;
  connected : list nat;
  disconnected : list nat;
  burrow_mask : image
}.

Section WithGeometry.
Context `{Rasterizer} `{Geometry}.

(** [exit_points]: the burrow points close to the structure. *)
Definition exit_points (e : env) (contour : polyline) (structure : geom)
    : polyline :=
  let outline := regularize_polygon (Polygon contour) in
  let dist := distance structure outline in
  let dist_max := (dist + burrows_width e / 2)%Q in
  List.filter (fun p => Qltb (distance structure (Point p)) dist_max) contour.

(** [cluster.hierarchy.fclusterdata(exit_points, dist_max,
    criterion='distance')] on [np.array(exit_points)]: SciPy wants a
    matrix of observations and at least two of them. The array of no
    points has one dimension, which is a [TypeError]; a single point has
    an empty distance matrix, for which the linkage raises
    [ValueError]. *)
Definition cluster_exit_points (exit_points : polyline) (dist_max : Q)
    : result (list nat) :=
  match exit_points with
  | [] => Raise TypeError
  | [_] => Raise ValueError
  | _ :: _ :: _ => Ok (fclusterdata exit_points dist_max)
  end.

(** The geometry that [_connect_burrow_to_structure] returns: the outline
    extended by a convex hull per cluster of points close to the
    structure. *)
Definition bridge_outline (e : env) (contour : polyline) (structure : geom)
    : result polyline :=
  let outline := regularize_polygon (Polygon contour) in
  let exit_points := exit_points e contour structure in
  let dist_max := burrows_width e in
  let! data := cluster_exit_points exit_points dist_max in
  let outline :=
    foldl (fun outline cluster_id =>
             let points :=
               flat_map (fun p => [p; get_projection_point structure p])
                        (select_cluster exit_points data cluster_id) in
             let hull := convex_hull points in
             union outline (buffer hull (1 # 10)))
          outline (np_unique data) in
  let outline := get_enclosing_outline outline in
  let outline := regularize_linear_ring outline in
  Ok (coords outline).

(** [cv2.fillPoly(self.burrow_mask, [np.asarray(outline, np.int32)], 1)] *)
Definition paint (e : env) (bm : image) (outline : polyline) : image :=
  fillPoly (height e) (width e) bm
    (map (fun p : point => (int_of p.1, int_of p.2)) outline) 1%Z.

(** [_connect_burrow_to_structure]: the new outline and the new mask. *)
Definition connect_burrow_to_structure (e : env) (bm : image)
    (contour : polyline) (structure : geom) : result (polyline * image) :=
  let! outline := bridge_outline e contour structure in
  Ok (outline, paint e bm outline).

(** [ground_dist] *)
Definition ground_dist (e : env) (chunks : list polyline) : list Q :=
  map (fun contour => distance (ground_line e) (LinearRing contour)) chunks.

(** [burrow_dist[x, y]] for indices inside the matrix: infinity on the
    diagonal, and the distance of the rings, measured from the one with
    the lower index, elsewhere. *)
Definition burrow_dist (chunks : list polyline) (x y : nat) : ereal :=
  if x =? y then Infinity
  else match chunks !! (Nat.min x y), chunks !! (Nat.max x y) with
       | Some contour1, Some contour2 =>
           Finite (distance (LinearRing contour1) (LinearRing contour2))
       | _, _ => Finite 0
       end.

(** [np.min(burrow_dist[k])] *)
Definition row_min (chunks : list polyline) (k : nat) : ereal :=
  foldr ereal_min Infinity (map (burrow_dist chunks k) (seq 0 (length chunks))).

(** [burrow_chunks[k] = self._connect_burrow_to_structure(burrow_chunks[k],
    self.ground.linestring)] *)
Definition bridge_to_ground (e : env) (st : state) (k : nat) : result state :=
  match burrow_chunks st !! k with
  | None => Raise IndexError
  | Some o =>
      let! bridged :=
        connect_burrow_to_structure e (burrow_mask st) (outline_of o)
                                    (ground_line e) in
      let '(outline, bm) := bridged in
      Ok {| burrow_chunks :=
              <[k := {| oid := next_id st; outline_of := outline |}]>
                (burrow_chunks st);
            next_id := S (next_id st);
            connected := connected st;
            disconnected := disconnected st;
            burrow_mask := bm |}
  end.

Definition append_connected (st : state) (k : nat) : state :=
  {| burrow_chunks := burrow_chunks st; next_id := next_id st;
     connected := connected st ++ [k]; disconnected := disconnected st;
     burrow_mask := burrow_mask st |}.

Definition append_disconnected (st : state) (k : nat) : state :=
  {| burrow_chunks := burrow_chunks st; next_id := next_id st;
     connected := connected st; disconnected := disconnected st ++ [k];
     burrow_mask := burrow_mask st |}.

(** The test [ground_dist[k] < np.min(burrow_dist[k])]. *)
Definition closest_to_ground (e : env) (chunks : list polyline) (k : nat)
    : bool :=
  match ground_dist e chunks !! k with
  | Some gk => ereal_ltb (Finite gk) (row_min chunks k)
  | None => false
  end.

(** One round of the loop that handles the burrows close to the ground. *)
Definition classify_step (e : env) (chunks : list polyline)
    (r : result state) (k : nat) : result state :=
  let! st := r in
  match ground_dist e chunks !! k with
  | None => Raise IndexError
  | Some gk =>
      if ereal_ltb (Finite gk) (row_min chunks k) then
        (* burrow is closest to ground *)
        let! st := (if Qgtb gk 1 then bridge_to_ground e st k else Ok st) in
        Ok (append_connected st k)
      else Ok (append_disconnected st k)
  end.

(** The state before the first loop: the chunks are distinct objects. *)
Definition initial_state (chunks : list polyline) (bm : image) : state :=
  {| burrow_chunks :=
       imap (fun k contour => {| oid := k; outline_of := contour |}) chunks;
     next_id := length chunks;
     connected := []; disconnected := [];
     burrow_mask := bm |}.

(** The state of the first loop when the chunks below [k] are handled. *)
Definition classify_upto (e : env) (chunks : list polyline) (bm : image)
    (k : nat) : result state :=
  foldl (classify_step e chunks) (Ok (initial_state chunks bm)) (seq 0 k).

(** Whether the first loop bridges chunk [k] to the ground line. *)
Definition bridged_directly (e : env) (chunks : list polyline) (k : nat)
    : bool :=
  closest_to_ground e chunks k &&
  match ground_dist e chunks !! k with
  | Some gk => Qgtb gk 1
  | None => false
  end.

(** The outline is painted into the mask. *)
Definition painted (e : env) (bm : image) (outline : polyline) : Prop :=
  forall y x, y < height e -> x < width e ->
    poly_covers (map (fun p : point => (int_of p.1, int_of p.2)) outline) x y
    = true ->
    pixel bm y x = 1%Z.

(** What holds of the state when the chunks below [k] are handled. *)
Record classified (e : env) (chunks : list polyline) (bm : image) (k : nat)
    (st : state) : Prop := {
  cl_length : length (burrow_chunks st) = length chunks;
  cl_next : length chunks <= next_id st;
  cl_connected :
    connected st = List.filter (closest_to_ground e chunks) (seq 0 k);
  cl_disconnected :
    disconnected st
    = List.filter (fun j => negb (closest_to_ground e chunks j)) (seq 0 k);
  cl_slot : forall j c, chunks !! j = Some c ->
    exists o, burrow_chunks st !! j = Some o /\
      if (j <? k) && bridged_directly e chunks j
      then bridge_outline e c (ground_line e) = Ok (outline_of o) /\
           length chunks <= oid o /\
           painted e (burrow_mask st) (outline_of o)
      else o = {| oid := j; outline_of := c |};
  cl_mask : forall y x, y < height e -> x < width e ->
    pixel bm y x = 1%Z -> pixel (burrow_mask st) y x = 1%Z
}.

(** Make sure that at least one chunk is connected to the ground. *)
Definition force_connection (e : env) (chunks : list polyline) (st : state)
    : result state :=
  match connected st with
  | [] =>
      match argmin (map Finite (ground_dist e chunks)) with
      | None => Raise ValueError
      | Some k =>
          let! st := bridge_to_ground e st k in
          let st := append_connected st k in
          let! d := list_remove_first k (disconnected st) in
          Ok {| burrow_chunks := burrow_chunks st; next_id := next_id st;
                connected := connected st; disconnected := d;
                burrow_mask := burrow_mask st |}
      end
  | _ :: _ => Ok st
  end.

(** The outline of the union of an enlarged chunk with the structure it
    was connected to. *)
Definition merged_outline (enlarged_chunk : polyline) (structure : geom)
    : polyline :=
  let poly1 := Polygon enlarged_chunk in
  let poly2 := regularize_polygon (Polygon_of structure) in
  let poly := buffer (union poly1 poly2) (1 # 10) in
  let outline := get_enclosing_outline poly in
  let outline := regularize_linear_ring outline in
  coords outline.

(** [dist = burrow_dist[disconnected, :][:, connected]], flattened row by
    row as [argmin] sees it. *)
Definition candidate_dist (chunks : list polyline) (st : state) : list ereal :=
  flat_map (fun d => map (fun c => burrow_dist chunks d c) (connected st))
           (disconnected st).

(** The body of the loop [while disconnected]. *)
Definition merge_step (e : env) (chunks : list polyline) (st : state)
    : result state :=
  match argmin (candidate_dist chunks st) with
  | None => Raise ValueError
  | Some i =>
      (* np.unravel_index *)
      let k1 := i / length (connected st) in
      let k2 := i mod length (connected st) in
      match disconnected st !! k1, connected st !! k2 with
      | Some c1, Some c2 =>
          match burrow_chunks st !! c1, burrow_chunks st !! c2 with
          | Some o1, Some o2 =>
              let structure := LinearRing (outline_of o2) in
              let! enlarged :=
                connect_burrow_to_structure e (burrow_mask st)
                                            (outline_of o1) structure in
              let '(enlarged_chunk, bm) := enlarged in
              let outline :=
                {| oid := next_id st;
                   outline_of := merged_outline enlarged_chunk structure |} in
              (* replace the current chunk by the merged one *)
              let chunks1 := <[c1 := outline]> (burrow_chunks st) in
              (* replace all other burrow chunks with this id *)
              match chunks1 !! c2 with
              | Some bc2 =>
                  let id_c2 := oid bc2 in
                  let chunks2 :=
                    map (fun bc => if oid bc =? id_c2 then outline else bc)
                        chunks1 in
                  (* mark the cluster as connected *)
                  Ok {| burrow_chunks := chunks2;
                        next_id := S (next_id st);
                        connected := connected st ++ [c1];
                        disconnected := delete k1 (disconnected st);
                        burrow_mask := bm |}
              | None => Raise IndexError
              end
          | _, _ => Raise IndexError
          end
      | _, _ => Raise IndexError
      end
  end.

(** The loop [while disconnected]; [None] stands for running out of
    fuel, one unit of which pays for one round. *)
Fixpoint merge_loop (fuel : nat) (e : env) (chunks : list polyline)
    (st : state) : option (result state) :=
  match disconnected st with
  | [] => Some (Ok st)
  | _ :: _ =>
      match fuel with
      | O => None
      | S fuel' =>
          match merge_step e chunks st with
          | Raise ex => Some (Raise ex)
          | Ok st' => merge_loop fuel' e chunks st'
          end
      end
  end.

(** The first loop, over all the chunks. *)
Definition classify (e : env) (chunks : list polyline) (bm : image)
    : result state :=
  classify_upto e chunks bm (length chunks).

(** The state when the first two phases are done. *)
Definition ground_phase (e : env) (chunks : list polyline) (bm : image)
    : result state :=
  let! st := classify e chunks bm in
  force_connection e chunks st.

(** All of [connect_burrow_chunks] up to its [return]. *)
Definition resolve (fuel : nat) (e : env) (chunks : list polyline)
    (bm : image) : option (result state) :=
  match ground_phase e chunks bm with
  | Raise ex => Some (Raise ex)
  | Ok st => merge_loop fuel e chunks st
  end.

(** [connect_burrow_chunks]: the burrows and the new [self.burrow_mask]. *)
Definition connect_burrow_chunks (fuel : nat) (e : env)
    (chunks : list polyline) (bm : image)
    : option (result (list Burrow * image)) :=
  match chunks with
  | [] => Some (Ok ([], bm))
  | _ :: _ =>
      match resolve fuel e chunks bm with
      | None => None
      | Some (Raise ex) => Some (Raise ex)
      | Some (Ok st) =>
          Some (Ok (map (fun o => {| outline :=
                                       regularize_contour_points (outline_of o) |})
                        (unique_based_on_id (burrow_chunks st)),
                    burrow_mask st))
      end
  end.

(** How an outline can have got its link to the ground: it is a chunk
    that was classified as closest to the ground and lies within one
    pixel of it, or it was bridged to the ground line, or it is the merge
    of a chunk into an outline that has a link. *)
Inductive ground_connected (e : env) (chunks : list polyline)
    : polyline -> Prop :=
| gc_direct k c gk :
    chunks !! k = Some c ->
    ground_dist e chunks !! k = Some gk ->
    ereal_ltb (Finite gk) (row_min chunks k) = true ->
    Qgtb gk 1 = false ->
    ground_connected e chunks c
| gc_bridged c outline :
    bridge_outline e c (ground_line e) = Ok outline ->
    ground_connected e chunks outline
| gc_merged c1 c2 enlarged_chunk :
    ground_connected e chunks c2 ->
    bridge_outline e c1 (LinearRing c2) = Ok enlarged_chunk ->
    ground_connected e chunks (merged_outline enlarged_chunk (LinearRing c2)).

(** What holds of the state whenever the test of the loop
    [while disconnected] is made. *)
Record linked (e : env) (chunks : list polyline) (st : state) : Prop := {
  ln_length : length (burrow_chunks st) = length chunks;
  ln_some : connected st <> [];
  ln_connected : forall k, k ∈ connected st -> k < length chunks;
  ln_disconnected : forall k, k ∈ disconnected st -> k < length chunks;
  ln_cover : forall k, k < length chunks ->
    k ∈ connected st \/ k ∈ disconnected st;
  ln_ground : forall k, k ∈ connected st ->
    exists o, burrow_chunks st !! k = Some o /\
              ground_connected e chunks (outline_of o)
}.

End WithGeometry.
End Resolver.

(** Modelled from the spec: the methods [intersects] and [!=] of the class
    [objects.burrow.Burrow], which is not among the sources: whether two
    burrows overlap, and whether a burrow differs from another. *)
Class BurrowShape := {
  intersects : Resolver.Burrow -> Resolver.Burrow -> bool;
  differs : Resolver.Burrow -> Resolver.Burrow -> bool
}.

Module Tracks.
Import Resolver.

(** Modelled from the spec: the class [objects.burrow.BurrowTrack], which
    is not among the sources: the frame indices with their outlines, of
    which there is at least one, and the flag [active]. *)
Record BurrowTrack := {
  first_entry : Z * Burrow;
  later_entries : list (Z * Burrow);
  active : bool
}.

(** [track.last] *)
Definition track_last (track : BurrowTrack) : Burrow :=
  (List.last (later_entries track) (first_entry track)).2.

(** [track.append(frame_id, burrow)] *)
Definition track_append (track : BurrowTrack) (frame_id : Z) (burrow : Burrow)
    : BurrowTrack :=
  {| first_entry := first_entry track;
     later_entries := later_entries track ++ [(frame_id, burrow)];
     active := active track |}.

(** [track.active = False] *)
Definition deactivate (track : BurrowTrack) : BurrowTrack :=
  {| first_entry := first_entry track;
     later_entries := later_entries track;
     active := false |}.

(** Modelled from the spec: [BurrowTrackList.create_track], which is not
    among the sources: a new active track that starts at the frame is put
    at the end of the list. *)
Definition create_track (burrow_tracks : list BurrowTrack) (frame_id : Z)
    (burrow : Burrow) : list BurrowTrack :=
  burrow_tracks ++
  [{| first_entry := (frame_id, burrow); later_entries := []; active := true |}].

(** [[track for track in burrow_tracks if track.active]]: the tracks are
    shared objects, so the list holds their places in [burrow_tracks]. *)
Definition active_tracks (burrow_tracks : list BurrowTrack) : list nat :=
  List.filter (fun i => match burrow_tracks !! i with
                        | Some track => active track
                        | None => false
                        end)
              (seq 0 (length burrow_tracks)).

Section WithShape.
Context `{BurrowShape}.

(** The inner [for] loop up to its [break]: the first of the remaining
    active tracks, counted from [track_id], whose last outline the burrow
    intersects. *)
Fixpoint first_match (burrow_tracks : list BurrowTrack) (burrow : Burrow)
    (track_id : nat) (rest : list nat) : option (nat * nat) :=
  match rest with
  | [] => None
  | i :: rest' =>
      match burrow_tracks !! i with
      | Some track =>
          if intersects burrow (track_last track) then Some (track_id, i)
          else first_match burrow_tracks burrow (S track_id) rest'
      | None => first_match burrow_tracks burrow (S track_id) rest'
      end
  end.

(** One round of the loop over the burrows; the state is the track list
    and the set [tracks_extended]. *)
Definition add_burrow (frame_id : Z) (snapshot : list nat)
    (acc : list BurrowTrack * gset nat) (burrow : Burrow)
    : list BurrowTrack * gset nat :=
  let '(burrow_tracks, tracks_extended) := acc in
  match first_match burrow_tracks burrow 0 snapshot with
  | Some (track_id, i) =>
      let burrow_tracks :=
        match burrow_tracks !! i with
        | Some track =>
            if differs burrow (track_last track)
            then <[i := track_append track frame_id burrow]> burrow_tracks
            else burrow_tracks
        | None => burrow_tracks
        end in
      (burrow_tracks, {[track_id]} ∪ tracks_extended)
  | None => (create_track burrow_tracks frame_id burrow, tracks_extended)
  end.

(** One round of the loop that deactivates the tracks that have not been
    found. *)
Definition deactivate_step (tracks_extended : gset nat)
    (burrow_tracks : list BurrowTrack) (entry : nat * nat)
    : list BurrowTrack :=
  let '(track_id, i) := entry in
  if bool_decide (track_id ∈ tracks_extended) then burrow_tracks
  else match burrow_tracks !! i with
       | Some track => <[i := deactivate track]> burrow_tracks
       | None => burrow_tracks
       end.

(** [enumerate(active_tracks)] *)
Definition enumerate (l : list nat) : list (nat * nat) := zip (seq 0 (length l)) l.

(** The tracks and [tracks_extended] when all the burrows are handled. *)
Definition match_burrows (frame_id : Z) (burrows : list Burrow)
    (burrow_tracks : list BurrowTrack) : list BurrowTrack * gset nat :=
  foldl (add_burrow frame_id (active_tracks burrow_tracks))
        (burrow_tracks, ∅) burrows.

(** [add_burrows_to_tracks] *)
Definition add_burrows_to_tracks (frame_id : Z) (burrows : list Burrow)
    (burrow_tracks : list BurrowTrack) : list BurrowTrack :=
  let snapshot := active_tracks burrow_tracks in
  let '(burrow_tracks', tracks_extended) :=
    match_burrows frame_id burrows burrow_tracks in
  foldl (deactivate_step tracks_extended) burrow_tracks' (enumerate snapshot).

(** The track manager over a run of frames, each with its index and its
    burrows. *)
Definition run_frames (frames : list (Z * list Burrow))
    (burrow_tracks : list BurrowTrack) : list BurrowTrack :=
  foldl (fun tracks frame => add_burrows_to_tracks frame.1 frame.2 tracks)
        burrow_tracks frames.

End WithShape.
End Tracks.

(** ** Concrete inputs used by the examples *)
Module Examples.

Definition zmin_list (l : list Z) : Z := foldr Z.min (hd 0%Z l) l.
Definition zmax_list (l : list Z) : Z := foldr Z.max (hd 0%Z l) l.

(** A rasteriser for axis-parallel rectangles, on which it agrees with
    [cv2.fillPoly] (which paints the border pixels too): the pixels of
    the bounding box of the vertices. *)
Definition bbox_covers (pts : list (Z * Z)) (x y : nat) : bool :=
  ((zmin_list (map fst pts) <=? Z.of_nat x) &&
   (Z.of_nat x <=? zmax_list (map fst pts)) &&
   (zmin_list (map snd pts) <=? Z.of_nat y) &&
   (Z.of_nat y <=? zmax_list (map snd pts)))%Z.

(** Structuring elements: the 1x1 element is its anchor, the 3x3 ellipse
    is the cross; larger ones are not used by the examples. *)
Definition small_ellipse (w : nat) : list (Z * Z) :=
  if w =? 1 then [(0, 0)%Z] else MORPH_ELLIPSE_3x3.

Definition bbox : Rasterizer :=
  {| poly_covers := bbox_covers; ellipse_kernel := small_ellipse |}.

(** A 5x5 scene that is all ground: the profile runs along the top row. *)
Definition flicker_env : Mask.env :=
  {| Mask.width := 5; Mask.height := 5;
     Mask.ground_points := [(0, 0); (4, 0)]%Z;
     Mask.color_sand := 100; Mask.color_sky := 200; Mask.sand_std := 10;
     Mask.area_min := 2; Mask.ground_point_distance := 1;
     Mask.burrows_width := 2 |}.

(** Background 100 everywhere; the frame darkens to 50 on a plus-shaped
    patch of five pixels around the centre. *)
Definition flicker_background : qimage :=
  map (map inject_Z) (mkimage 5 5 (fun _ _ => 100%Z)).

Definition flicker_frame : image :=
  [[100; 100; 100; 100; 100];
   [100; 100;  50; 100; 100];
   [100;  50;  50;  50; 100];
   [100; 100;  50; 100; 100];
   [100; 100; 100; 100; 100]]%Z.

Definition flicker_masks : Mask.masks :=
  {| Mask.burrow_mask := zeros 5 5; Mask.cache_image_uint8 := zeros 5 5 |}.

(** A mask that already holds a burrow pixel in the corner. *)
Definition corner_masks : Mask.masks :=
  {| Mask.burrow_mask := mkimage 5 5 (fun y x => if (y + x =? 0) then 1%Z else 0%Z);
     Mask.cache_image_uint8 := zeros 5 5 |}.

Definition plus_mask : image :=
  [[0; 0; 0; 0; 0];
   [0; 0; 1; 0; 0];
   [0; 1; 1; 1; 0];
   [0; 0; 1; 0; 0];
   [0; 0; 0; 0; 0]]%Z.

(** Two burrows overlap when they share a vertex, and differ when their
    outlines are not the same list of points: enough to tell the
    burrows of the examples apart. *)
Definition point_eqb (p q : point) : bool :=
  Qeq_bool p.1 q.1 && Qeq_bool p.2 q.2.

Fixpoint outline_eqb (a b : polyline) : bool :=
  match a, b with
  | [], [] => true
  | p :: a', q :: b' => point_eqb p q && outline_eqb a' b'
  | _, _ => false
  end.

Definition share_vertex : BurrowShape :=
  {| intersects := fun a b =>
       existsb (fun p => existsb (point_eqb p) (Resolver.outline b))
               (Resolver.outline a);
     differs := fun a b =>
       negb (outline_eqb (Resolver.outline a) (Resolver.outline b)) |}.

(** A burrow, the same burrow grown by a vertex, and a burrow elsewhere. *)
Definition burrow_a : Resolver.Burrow :=
  {| Resolver.outline := [(1, 1); (2, 1); (2, 3)]%Q |}.
Definition burrow_a' : Resolver.Burrow :=
  {| Resolver.outline := [(1, 1); (2, 1); (2, 4); (1, 4)]%Q |}.
Definition burrow_b : Resolver.Burrow :=
  {| Resolver.outline := [(7, 1); (8, 1); (8, 3)]%Q |}.

Definition track_of (frame_id : Z) (b : Resolver.Burrow) (act : bool)
    : Tracks.BurrowTrack :=
  {| Tracks.first_entry := (frame_id, b); Tracks.later_entries := [];
     Tracks.active := act |}.

(** *** A geometry of boxes

    Geometries are lists of vertices and are measured by their bounding
    boxes: the distance of two geometries is the gap between their
    boxes. This is the distance that Shapely gives for points,
    axis-parallel segments and axis-parallel rectangles whose boxes
    overlap along one axis, which is all that the examples measure.
    Hulls and enclosing outlines are the corners of the box, buffers are
    dropped, and all the exit points of a chunk form one cluster. *)
Definition qmin (a b : Q) : Q := if Qle_bool a b then a else b.
Definition qmax (a b : Q) : Q := if Qle_bool a b then b else a.
Definition qmin_list (l : list Q) : Q := foldr qmin (hd 0%Q l) l.
Definition qmax_list (l : list Q) : Q := foldr qmax (hd 0%Q l) l.

Definition axis_gap (lo1 hi1 lo2 hi2 : Q) : Q :=
  qmax 0 (qmax (lo1 - hi2) (lo2 - hi1)).

Definition box_gap (g1 g2 : polyline) : Q :=
  let dx := axis_gap (qmin_list (map fst g1)) (qmax_list (map fst g1))
                     (qmin_list (map fst g2)) (qmax_list (map fst g2)) in
  let dy := axis_gap (qmin_list (map snd g1)) (qmax_list (map snd g1))
                     (qmin_list (map snd g2)) (qmax_list (map snd g2)) in
  if Qeq_bool dx 0 then dy else if Qeq_bool dy 0 then dx else (dx + dy)%Q.

Definition box_corners (g : polyline) : polyline :=
  match g with
  | [] => []
  | _ :: _ =>
      let x0 := qmin_list (map fst g) in
      let x1 := qmax_list (map fst g) in
      let y0 := qmin_list (map snd g) in
      let y1 := qmax_list (map snd g) in
      [(x0, y0); (x0, y1); (x1, y1); (x1, y0)]
  end.

Definition box_project (g : polyline) (p : point) : point :=
  (qmax (qmin_list (map fst g)) (qmin p.1 (qmax_list (map fst g))),
   qmax (qmin_list (map snd g)) (qmin p.2 (qmax_list (map snd g)))).

Definition boxes : Geometry :=
  {| geom := polyline;
     Point := fun p => [p];
     LineString := fun c => c;
     LinearRing := fun c => c;
     Polygon := fun c => c;
     Polygon_of := fun g => g;
     convex_hull := box_corners;
     distance := box_gap;
     union := fun a b => a ++ b;
     buffer := fun g _ => g;
     coords := fun g => g;
     regularize_polygon := fun g => g;
     get_enclosing_outline := box_corners;
     regularize_linear_ring := fun g => g;
     regularize_contour_points := fun c => c;
     get_projection_point := box_project;
     fclusterdata := fun pts _ => map (fun _ => 1) pts |}.

(** A 10x10 scene with the ground profile along the top row. *)
Definition field_env : Mask.env :=
  {| Mask.width := 10; Mask.height := 10;
     Mask.ground_points := [(0, 0); (9, 0)]%Z;
     Mask.color_sand := 100; Mask.color_sky := 200; Mask.sand_std := 10;
     Mask.area_min := 2; Mask.ground_point_distance := 1;
     Mask.burrows_width := 2 |}.

(** A chunk three pixels below the ground line, four away from
    [chunk_near]. *)
Definition chunk_mid : polyline := [(2, 3); (2, 5); (4, 5); (4, 3)]%Q.
(** A chunk below [chunk_mid], two pixels away from it. *)
Definition chunk_deep : polyline := [(2, 7); (2, 8); (4, 8); (4, 7)]%Q.
(** A chunk above [chunk_mid], one pixel away from it and one pixel below
    the ground line. *)
Definition chunk_top : polyline := [(2, 1); (2, 2); (4, 2); (4, 1)]%Q.
(** A diamond, of which one corner is nearest to the ground line. *)
Definition chunk_diamond : polyline := [(5, 4); (4, 5); (5, 6); (6, 5)]%Q.

(** *** Labelling of a raster with at most one region

    All the set pixels get the label 1, which is what
    [scipy.ndimage.measurements.label] gives when they are connected. The
    area of a region is its number of pixels, its centroid their mean,
    and its contour the corners of its bounding box without repeats,
    which is the contour that [cv2.findContours] gives, with
    [CHAIN_APPROX_SIMPLE], for a filled axis-parallel rectangle, for a
    straight line of pixels (its two ends) and for a single pixel. *)
Definition set_pixels (img : image) : list (nat * nat) :=
  flat_map (fun yrow : nat * list Z =>
              flat_map (fun xv : nat * Z =>
                          if (xv.2 =? 0)%Z then [] else [(yrow.1, xv.1)])
                       (zip (seq 0 (length yrow.2)) yrow.2))
           (zip (seq 0 (length img)) img).

Definition label_all (img : image) : image * nat :=
  (map (map (fun v => if (v =? 0)%Z then 0%Z else 1%Z)) img,
   match set_pixels img with [] => 0 | _ :: _ => 1 end).

Definition qsum (l : list Q) : Q := foldr Qplus 0%Q l.

Definition props_of (img : image) : props :=
  let px := set_pixels img in
  let n := inject_Z (Z.of_nat (length px)) in
  {| area := n;
     centroid :=
       (Qred (qsum (map (fun p : nat * nat => inject_Z (Z.of_nat p.2)) px) / n),
        Qred (qsum (map (fun p : nat * nat => inject_Z (Z.of_nat p.1)) px) / n)) |}.

Definition box_contour (img : image) : polyline :=
  let px := set_pixels img in
  match px with
  | [] => []
  | _ :: _ =>
      let xs := map (fun p : nat * nat => Z.of_nat p.2) px in
      let ys := map (fun p : nat * nat => Z.of_nat p.1) px in
      let x0 := inject_Z (zmin_list xs) in
      let x1 := inject_Z (zmax_list xs) in
      let y0 := inject_Z (zmin_list ys) in
      let y1 := inject_Z (zmax_list ys) in
      if Qeq_bool x0 x1 then
        if Qeq_bool y0 y1 then [(x0, y0)] else [(x0, y0); (x0, y1)]
      else
        if Qeq_bool y0 y1 then [(x0, y0); (x1, y0)]
        else [(x0, y0); (x0, y1); (x1, y1); (x1, y0)]
  end.

Definition one_region : Labelling :=
  {| label := label_all; regionprops := props_of; find_contour := box_contour |}.

(** A dark line of three pixels, five rows below the ground line. *)
Definition line_mask : image :=
  mkimage 10 10 (fun y x => if (y =? 5) && (3 <=? x) && (x <=? 5) then 1%Z else 0%Z).

Definition dark_frame : image := mkimage 10 10 (fun _ _ => 50%Z).

(** A first frame that is bright but for a dark block of ten pixels in
    the rows 2 and 3; with a minimum area of 1 the block has exactly ten
    times the minimum area. *)
Definition block_env : Mask.env :=
  {| Mask.width := 10; Mask.height := 10;
     Mask.ground_points := [(0, 0); (9, 0)]%Z;
     Mask.color_sand := 100; Mask.color_sky := 200; Mask.sand_std := 10;
     Mask.area_min := 1; Mask.ground_point_distance := 3;
     Mask.burrows_width := 2 |}.

Definition block_frame : image :=
  mkimage 10 10 (fun y x => if (2 <=? y) && (y <=? 3) && (2 <=? x) && (x <=? 6)
                            then 50%Z else 250%Z).

(** *** Labelling of a raster with two blocks

    A raster whose set pixels lie left of column 3, or from column 3 on,
    or form one block on either side, both starting in the same row:
    [scipy.ndimage.measurements.label] numbers the regions as it meets
    them row by row, so the left block is region 1 and the right block
    region 2, and a block that is alone is region 1. *)
Definition label_halves (img : image) : image * nat :=
  let px := set_pixels img in
  let both := existsb (fun p : nat * nat => p.2 <? 3) px
              && existsb (fun p : nat * nat => 3 <=? p.2) px in
  (map (fun row : list Z =>
          map (fun xv : nat * Z =>
                 if (xv.2 =? 0)%Z then 0%Z
                 else if both && (3 <=? xv.1) then 2%Z else 1%Z)
              (zip (seq 0 (length row)) row))
       img,
   match px with
   | [] => 0
   | _ :: _ => if both then 2 else 1
   end).

Definition halves : Labelling :=
  {| label := label_halves; regionprops := props_of; find_contour := box_contour |}.

(** A first frame that is bright but for two blocks below the ground
    line: four pixels that are dark, in the columns 0 and 1, and six
    pixels, in the columns 3 and 4, that are just darker than the first
    threshold, 167.67. Both blocks lie within the ground-point distance
    of the ground line. *)
Definition weighted_env : Mask.env :=
  {| Mask.width := 10; Mask.height := 10;
     Mask.ground_points := [(0, 0); (9, 0)]%Z;
     Mask.color_sand := 100; Mask.color_sky := 201; Mask.sand_std := 10;
     Mask.area_min := 1; Mask.ground_point_distance := 39 # 10;
     Mask.burrows_width := 2 |}.

Definition weighted_frame : image :=
  mkimage 10 10 (fun y x =>
    if (1 <=? y) && (y <=? 2) && (x <=? 1) then 50%Z
    else if (1 <=? y) && (y <=? 3) && (3 <=? x) && (x <=? 4) then 166%Z
    else 250%Z).

End Examples.

(** ** The frame loop and the pipeline of a frame *)
Module Pipeline.
Import Mask Resolver Tracks.

(** A raster of floats of shape [(h, w)] given pixel by pixel. *)
Definition mkqimage (h w : nat) (f : nat -> nat -> Q) : qimage :=
  map (fun y => map (fun x => f y x) (seq 0 w)) (seq 0 h).

(** The adaptation of the background in [_iterate_over_video]: the first
    frame is taken as it is, [frame.astype(np.double)]; afterwards
    [background_avg += adaptation_rate*(frame - background_avg)]. *)
Definition adapt_background (e : env) (adaptation_rate : Q)
    (background_avg : option qimage) (frame : image) : qimage :=
  match background_avg with
  | None =>
      mkqimage (height e) (width e) (fun y x => inject_Z (pixel frame y x))
  | Some bg =>
      mkqimage (height e) (width e)
        (fun y x => (qpixel bg y x
                     + adaptation_rate * (inject_Z (pixel frame y x) - qpixel bg y x))%Q)
  end.

(** [self.background_avg] after the frames of a video, in their order. *)
Definition background_after (e : env) (adaptation_rate : Q)
    (frames : list image) : option qimage :=
  foldl (fun bg frame => Some (adapt_background e adaptation_rate bg frame))
        None frames.

(** Every value of a raster of floats lies between two bounds. *)
Definition within (e : env) (lo hi : Q) (bg : qimage) : Prop :=
  forall y x, y < height e -> x < width e ->
    (lo <= qpixel bg y x)%Q /\ (qpixel bg y x <= hi)%Q.

(** [active_burrows]: the last outlines of the active tracks. *)
Definition active_burrows (burrow_tracks : list BurrowTrack) : list Burrow :=
  map track_last (List.filter active burrow_tracks).

(** The attributes of the pass that [find_burrows] reads and changes. *)
Record pass4 := {
  frame_id : Z;                          (* self.frame_id *)
  burrow_mask : option image;            (* self.burrow_mask *)
  cache_image_uint8 : image;             (* self._cache['image_uint8'] *)
  burrow_tracks : list BurrowTrack       (* self.result['burrows/tracks'] *)
}.

Section WithVision.
Context `{Rasterizer} `{Labelling} `{Geometry} `{BurrowShape}.

(** [find_burrows], with [self.background_avg] as [bg], which the frame
    loop has set before the call; [None] stands for running out of fuel in
    one of the two loops that the frame may run. *)
Definition find_burrows (fuel : nat) (e : env) (bg : qimage) (frame : image)
    (st : pass4) : option (result pass4) :=
  match (match burrow_mask st with
         | None => get_initial_burrow_mask fuel e frame
         | Some bm => Some (Ok bm)
         end) with
  | None => None
  | Some (Raise ex) => Some (Raise ex)
  | Some (Ok bm0) =>
      (* find regions of possible burrows *)
      match update_burrow_mask e bg frame
              {| Mask.burrow_mask := bm0;
                 Mask.cache_image_uint8 := cache_image_uint8 st |} with
      | Raise ex => Some (Raise ex)
      | Ok m =>
          (* identify chunks from the burrow mask *)
          let '(burrow_chunks, bm1) :=
            get_burrow_chunks e frame (Mask.burrow_mask m) in
          (* get the burrows by connecting chunks *)
          match connect_burrow_chunks fuel e burrow_chunks bm1 with
          | None => None
          | Some (Raise ex) => Some (Raise ex)
          | Some (Ok (burrows, bm2)) =>
              (* assign the burrows to burrow tracks or create new ones *)
              Some (Ok {| frame_id := frame_id st;
                          burrow_mask := Some bm2;
                          cache_image_uint8 := Mask.cache_image_uint8 m;
                          burrow_tracks :=
                            add_burrows_to_tracks (frame_id st) burrows
                              (burrow_tracks st) |})
          end
      end
  end.

End WithVision.
End Pipeline.

(** ** Videos *)
Module Video.

(** [VideoBase]: the number of frames and the index of the next frame. *)
Record VideoBase := {
  frame_count : Z;
  _frame_pos : Z
}.

(** [VideoBase.__init__] with its default [frame_count=-1]. *)
Definition init (frame_count : Z) : VideoBase :=
  {| frame_count := frame_count; _frame_pos := 0 |}.

(** [get_frame_pos] *)
Definition get_frame_pos (video : VideoBase) : Z := _frame_pos video.

(** [set_frame_pos] *)
Definition set_frame_pos (video : VideoBase) (index : Z) : result VideoBase :=
  if ((0 <=? index) && (index <? frame_count video))%Z
  then Ok {| frame_count := frame_count video; _frame_pos := index |}
  else Raise ValueError.

(** [__iter__]: rewinds the movie. *)
Definition iter (video : VideoBase) : result VideoBase :=
  set_frame_pos video 0.

(** A run of calls of [set_frame_pos], up to the first that raises. *)
Fixpoint seek_all (video : VideoBase) (indices : list Z) : result VideoBase :=
  match indices with
  | [] => Ok video
  | index :: rest =>
      let! video := set_frame_pos video index in
      seek_all video rest
  end.

End Video.

(** ** What the resolver keeps *)
Module Keeps.
Import Mask Resolver.

(** The mask [bm'] differs from [bm] only by pixels that were set to 1. *)
Definition mask_grows (e : env) (bm bm' : image) : Prop :=
  forall y x, y < height e -> x < width e ->
    pixel bm' y x = pixel bm y x \/ pixel bm' y x = 1%Z.

(** The two lists hold every index of a chunk, each once. *)
Definition partitioned (chunks : list polyline) (st : state) : Prop :=
  connected st ++ disconnected st ≡ₚ seq 0 (length chunks).

End Keeps.

(** ** Frames of the 5x5 scene *)
Module Scenes.
Import Mask Pipeline Examples.

(** A frame in which nothing has changed against the background. *)
Definition still_frame : image := mkimage 5 5 (fun _ _ => 100%Z).

(** A first frame without anything dark. *)
Definition bright_frame : image := mkimage 5 5 (fun _ _ => 250%Z).

(** The pass before the first frame: no burrow mask and no track. *)
Definition fresh_pass : pass4 :=
  {| frame_id := 0;
     burrow_mask := None;
     cache_image_uint8 := zeros 5 5;
     burrow_tracks := [] |}.

(** The 5x5 scene with a ground profile that has no point. *)
Definition no_ground_env : Mask.env :=
  {| Mask.width := 5; Mask.height := 5;
     Mask.ground_points := [];
     Mask.color_sand := 100; Mask.color_sky := 200; Mask.sand_std := 10;
     Mask.area_min := 2; Mask.ground_point_distance := 1;
     Mask.burrows_width := 2 |}.

(** The pass at the start of a frame: the burrow mask is empty, and one
    track is active. *)
Definition flicker_pass : pass4 :=
  {| frame_id := 7;
     burrow_mask := Some (zeros 5 5);
     cache_image_uint8 := zeros 5 5;
     burrow_tracks := [track_of 3 burrow_a true] |}.

End Scenes.

(* ===================================================================== *)
(** * Part II: properties                                                 *)
(* ===================================================================== *)

Lemma Qltb_lt (a b : Q) : Qltb a b = true <-> (a < b)%Q.
Proof.
  unfold Qltb. rewrite negb_true_iff.
  split.
  - intros Hf. apply Qnot_le_lt. intros Hle.
    apply Qle_bool_iff in Hle. congruence.
  - intros Hlt. destruct (Qle_bool b a) eqn:E; [|reflexivity].
    apply Qle_bool_iff in E. exfalso. exact (Qlt_not_le _ _ Hlt E).
Qed.

Lemma Qltb_ge (a b : Q) : Qltb a b = false <-> (b <= a)%Q.
Proof.
  unfold Qltb. rewrite negb_false_iff. apply Qle_bool_iff.
Qed.

Lemma map_fmap {A B} (f : A -> B) (l : list A) : map f l = f <$> l.
Proof. reflexivity. Qed.

Module RasterFacts.

Lemma pixel_mkimage h w f y x :
  y < h -> x < w -> pixel (mkimage h w f) y x = f y x.
Proof.
  intros Hy Hx. unfold pixel, mkimage.
  rewrite !map_fmap, list_lookup_fmap.
  assert (Hs : seq 0 h !! y = Some y) by (apply lookup_seq; lia).
  rewrite Hs. simpl.
  rewrite map_fmap, list_lookup_fmap.
  assert (Hs' : seq 0 w !! x = Some x) by (apply lookup_seq; lia).
  rewrite Hs'. reflexivity.
Qed.

Lemma row_sum_indicator (c : nat -> bool) (v : Z) (l : list nat) :
  row_sum (map (fun x => if c x then v else 0%Z) l)
  = (v * Z.of_nat (length (filter (fun x => c x = true) l)))%Z.
Proof.
  unfold row_sum. induction l as [|a l IH].
  - simpl. lia.
  - rewrite filter_cons. cbn [map foldr]. rewrite IH.
    destruct (c a).
    + destruct (decide (true = true)); [|congruence]. cbn [length]. lia.
    + destruct (decide (false = true)); [congruence|]. lia.
Qed.

(** The sum of a raster that holds [v] where [c] and 0 elsewhere. *)
Lemma img_sum_indicator h w (c : nat -> nat -> bool) (v : Z) :
  img_sum (mkimage h w (fun y x => if c y x then v else 0%Z))
  = (v * Z.of_nat (count_px h w c))%Z.
Proof.
  unfold mkimage, count_px, img_sum.
  induction (seq 0 h) as [|y l IH]; simpl.
  - lia.
  - rewrite IH. rewrite (row_sum_indicator (c y) v). unfold count_row. lia.
Qed.

Lemma count_row_ext w (c c' : nat -> bool) :
  (forall x, x < w -> c x = c' x) -> count_row w c = count_row w c'.
Proof.
  intros He. unfold count_row.
  assert (Hin : forall x, x ∈ seq 0 w -> x < w)
    by (intros x Hx; apply elem_of_seq in Hx; lia).
  induction (seq 0 w) as [|x l IH]; [reflexivity|].
  rewrite !filter_cons, (He x) by (apply Hin; left).
  assert (IH' : length (filter (fun x => c x = true) l)
                = length (filter (fun x => c' x = true) l))
    by (apply IH; intros x' Hx'; apply Hin; right; exact Hx').
  destruct (decide (c' x = true)); cbn [length]; rewrite IH'; reflexivity.
Qed.

Lemma count_px_ext h w (c c' : nat -> nat -> bool) :
  (forall y x, y < h -> x < w -> c y x = c' y x) ->
  count_px h w c = count_px h w c'.
Proof.
  intros He. unfold count_px.
  assert (Hin : forall y, y ∈ seq 0 h -> y < h)
    by (intros y Hy; apply elem_of_seq in Hy; lia).
  induction (seq 0 h) as [|y l IH]; simpl; [reflexivity|].
  rewrite IH.
  - f_equal. apply count_row_ext. intros x Hx. apply He; [|exact Hx].
    apply Hin. left.
  - intros y' Hy'. apply Hin. right. exact Hy'.
Qed.

(** Bounds of the folds that dilation and erosion take. *)
Lemma foldr_max_ge (l : list Z) (v : Z) :
  v ∈ l -> (v <= foldr Z.max 0 l)%Z.
Proof.
  induction 1 as [v l|v u l _ IH]; simpl; lia.
Qed.

Lemma foldr_max_le (l : list Z) (b : Z) :
  (0 <= b)%Z -> (forall v, v ∈ l -> (v <= b)%Z) -> (foldr Z.max 0 l <= b)%Z.
Proof.
  intros Hb. induction l as [|a l IH]; simpl; intros Hall; [lia|].
  assert (a <= b)%Z by (apply Hall; left).
  assert (foldr Z.max 0 l <= b)%Z by (apply IH; intros v Hv; apply Hall; right; exact Hv).
  lia.
Qed.

Lemma foldr_max_nonneg (l : list Z) : (0 <= foldr Z.max 0 l)%Z.
Proof. induction l; simpl; lia. Qed.

Lemma foldr_min_le (l : list Z) (v : Z) :
  v ∈ l -> (foldr Z.min 255 l <= v)%Z.
Proof.
  induction 1 as [v l|v u l _ IH]; simpl; lia.
Qed.

Lemma foldr_min_ge (l : list Z) (b : Z) :
  (b <= 255)%Z -> (forall v, v ∈ l -> (b <= v)%Z) -> (b <= foldr Z.min 255 l)%Z.
Proof.
  intros Hb. induction l as [|a l IH]; simpl; intros Hall; [lia|].
  assert (b <= a)%Z by (apply Hall; left).
  assert (b <= foldr Z.min 255 l)%Z by (apply IH; intros v Hv; apply Hall; right; exact Hv).
  lia.
Qed.

Lemma neighbour_Some h w y x d y' x' :
  neighbour h w y x d = Some (y', x') ->
  y' < h /\ x' < w /\
  Z.of_nat y' = (Z.of_nat y + d.1)%Z /\ Z.of_nat x' = (Z.of_nat x + d.2)%Z.
Proof.
  unfold neighbour.
  destruct (_ && _)%bool eqn:E; [|discriminate].
  intros [= <- <-].
  repeat (apply andb_prop in E; destruct E as [E ?]).
  lia.
Qed.

Lemma neighbour_centre h w y x :
  y < h -> x < w -> neighbour h w y x (0, 0)%Z = Some (y, x).
Proof.
  intros Hy Hx. unfold neighbour. simpl.
  rewrite !Z.add_0_r, !Nat2Z.id.
  destruct (_ && _)%bool eqn:E; [reflexivity|].
  exfalso. repeat (apply andb_false_iff in E; destruct E as [E|E]); lia.
Qed.

(** Going by [d] and then by the opposite offset leads back. *)
Lemma neighbour_back h w y x d y' x' :
  y < h -> x < w ->
  neighbour h w y x d = Some (y', x') ->
  neighbour h w y' x' (- d.1, - d.2)%Z = Some (y, x).
Proof.
  intros Hy Hx Hn. apply neighbour_Some in Hn as (Hy' & Hx' & Ey & Ex).
  unfold neighbour. simpl.
  replace (Z.of_nat y' + - d.1)%Z with (Z.of_nat y) by lia.
  replace (Z.of_nat x' + - d.2)%Z with (Z.of_nat x) by lia.
  rewrite !Nat2Z.id.
  destruct (_ && _)%bool eqn:E; [reflexivity|].
  exfalso. repeat (apply andb_false_iff in E; destruct E as [E|E]); lia.
Qed.

Lemma cross_symmetric : symmetric MORPH_ELLIPSE_3x3.
Proof.
  intros d Hd. unfold MORPH_ELLIPSE_3x3 in *.
  repeat (apply elem_of_cons in Hd as [->|Hd];
          [apply list_elem_of_In; simpl; tauto|]).
  inversion Hd.
Qed.

Lemma cross_centre : (0, 0)%Z ∈ MORPH_ELLIPSE_3x3.
Proof. apply list_elem_of_In. simpl. tauto. Qed.

Lemma pixel_dilate_ge h w ker img y x d y' x' :
  y < h -> x < w -> d ∈ ker ->
  neighbour h w y x d = Some (y', x') ->
  (pixel img y' x' <= pixel (dilate h w ker img) y x)%Z.
Proof.
  intros Hy Hx Hd Hn. unfold dilate. rewrite pixel_mkimage by assumption.
  apply foldr_max_ge. rewrite map_fmap. apply list_elem_of_fmap.
  exists d. rewrite Hn. split; [reflexivity|exact Hd].
Qed.

Lemma pixel_dilate_le h w ker img y x b :
  y < h -> x < w -> (0 <= b)%Z ->
  (forall y' x', y' < h -> x' < w -> (pixel img y' x' <= b)%Z) ->
  (pixel (dilate h w ker img) y x <= b)%Z.
Proof.
  intros Hy Hx Hb Hall. unfold dilate. rewrite pixel_mkimage by assumption.
  apply foldr_max_le; [exact Hb|].
  intros v Hv. rewrite map_fmap in Hv.
  apply list_elem_of_fmap in Hv as (d & -> & Hd).
  destruct (neighbour h w y x d) as [[y' x']|] eqn:Hn; [|exact Hb].
  apply neighbour_Some in Hn as (? & ? & _). apply Hall; assumption.
Qed.

Lemma pixel_dilate_nonneg h w ker img y x :
  y < h -> x < w -> (0 <= pixel (dilate h w ker img) y x)%Z.
Proof.
  intros Hy Hx. unfold dilate. rewrite pixel_mkimage by assumption.
  apply foldr_max_nonneg.
Qed.

Lemma pixel_erode_le h w ker img y x :
  y < h -> x < w -> (0, 0)%Z ∈ ker ->
  (pixel (erode h w ker img) y x <= pixel img y x)%Z.
Proof.
  intros Hy Hx Hc. unfold erode. rewrite pixel_mkimage by assumption.
  apply foldr_min_le. rewrite map_fmap. apply list_elem_of_fmap.
  exists (0, 0)%Z. rewrite neighbour_centre by assumption.
  split; [reflexivity|exact Hc].
Qed.

Lemma pixel_erode_ge h w ker img y x b :
  y < h -> x < w -> (b <= 255)%Z ->
  (forall d y' x', d ∈ ker -> neighbour h w y x d = Some (y', x') ->
                   (b <= pixel img y' x')%Z) ->
  (b <= pixel (erode h w ker img) y x)%Z.
Proof.
  intros Hy Hx Hb Hall. unfold erode. rewrite pixel_mkimage by assumption.
  apply foldr_min_ge; [exact Hb|].
  intros v Hv. rewrite map_fmap in Hv.
  apply list_elem_of_fmap in Hv as (d & -> & Hd).
  destruct (neighbour h w y x d) as [[y' x']|] eqn:Hn; [|exact Hb].
  eapply Hall; eassumption.
Qed.

(** Closing with a symmetric element is extensive. *)
Lemma morph_close_extensive h w ker img y x :
  symmetric ker -> y < h -> x < w -> (pixel img y x <= 255)%Z ->
  (pixel img y x <= pixel (morph_close h w ker img) y x)%Z.
Proof.
  intros Hsym Hy Hx Hb. unfold morph_close.
  apply pixel_erode_ge; [assumption..|].
  intros d y' x' Hd Hn.
  pose proof (neighbour_Some _ _ _ _ _ _ _ Hn) as (Hy' & Hx' & _).
  eapply pixel_dilate_ge; [exact Hy'|exact Hx'|apply Hsym; exact Hd|].
  eapply neighbour_back; eassumption.
Qed.

(** Closing a 0/1 raster gives a 0/1 raster. *)
Lemma morph_close_binary h w ker img :
  (0, 0)%Z ∈ ker -> binary h w img -> binary h w (morph_close h w ker img).
Proof.
  intros Hc Hbin y x Hy Hx.
  assert (Hup : (pixel (morph_close h w ker img) y x <= 1)%Z).
  { unfold morph_close.
    etransitivity; [apply pixel_erode_le; assumption|].
    apply pixel_dilate_le; [assumption|assumption|lia|].
    intros y' x' Hy' Hx'. destruct (Hbin y' x' Hy' Hx') as [->| ->]; lia. }
  assert (Hlo : (0 <= pixel (morph_close h w ker img) y x)%Z).
  { unfold morph_close. apply pixel_erode_ge; [assumption|assumption|lia|].
    intros d y' x' _ Hn. apply neighbour_Some in Hn as (? & ? & _).
    apply pixel_dilate_nonneg; assumption. }
  lia.
Qed.

End RasterFacts.

Module MaskFacts.
Import RasterFacts Mask.

Lemma mkimage_ext h w f g :
  (forall y x, y < h -> x < w -> f y x = g y x) -> mkimage h w f = mkimage h w g.
Proof.
  intros He. unfold mkimage.
  apply map_ext_in. intros y Hy. apply in_seq in Hy.
  apply map_ext_in. intros x Hx. apply in_seq in Hx.
  apply He; lia.
Qed.

Section WithRasterizer.
Context `{Rasterizer}.

Lemma pixel_fillPoly h w img pts color y x :
  y < h -> x < w ->
  pixel (fillPoly h w img pts color) y x
  = if poly_covers pts x y then color else pixel img y x.
Proof. intros. unfold fillPoly. apply pixel_mkimage; assumption. Qed.

Lemma get_ground_mask_pixel e gm y x :
  get_ground_mask e = Ok gm -> y < height e -> x < width e ->
  pixel gm y x = if poly_covers (ground_polygon e) x y then 255%Z else 0%Z.
Proof.
  unfold get_ground_mask, ground_polygon.
  destruct (ground_points e) as [|p0 l]; [discriminate|].
  intros [= <-] Hy Hx. rewrite pixel_fillPoly by assumption.
  unfold zeros. rewrite pixel_mkimage by assumption. reflexivity.
Qed.

(** [ground_mask.sum()] is 255 times the number of ground pixels. *)
Lemma ground_mask_sum e gm :
  get_ground_mask e = Ok gm ->
  img_sum gm = (255 * Z.of_nat (ground_region_size e gm))%Z.
Proof.
  intros Hgm. unfold ground_region_size.
  rewrite (count_px_ext _ _ _ (fun y x => poly_covers (ground_polygon e) x y)).
  2:{ intros y x Hy Hx. rewrite (get_ground_mask_pixel _ _ _ _ Hgm Hy Hx).
      destruct (poly_covers _ x y); reflexivity. }
  rewrite <- img_sum_indicator. f_equal.
  revert Hgm. unfold get_ground_mask, ground_polygon.
  destruct (ground_points e) as [|p0 l]; [discriminate|].
  intros [= <-]. unfold fillPoly. apply mkimage_ext.
  intros y x Hy Hx. unfold zeros. rewrite pixel_mkimage by assumption.
  reflexivity.
Qed.

(** [mask.sum()] is the number of newly flagged pixels. *)
Lemma change_mask_sum e bg frame :
  img_sum (change_mask e bg frame) = Z.of_nat (flagged_count e bg frame).
Proof.
  unfold flagged_count.
  rewrite (count_px_ext _ _ _
    (fun y x => Qltb (- qpixel bg y x + inject_Z (pixel frame y x))
                     (- sand_std e))).
  2:{ intros y x Hy Hx. unfold change_mask. rewrite pixel_mkimage by assumption.
      destruct (Qltb _ _); reflexivity. }
  unfold change_mask. rewrite img_sum_indicator. lia.
Qed.

(** The flicker test of the code, in terms of pixel counts: the frame is
    skipped exactly when the flagged pixels number more than 25.5 times
    the ground pixels. *)
Lemma too_much_change_iff e bg frame gm :
  get_ground_mask e = Ok gm ->
  too_much_change (change_mask e bg frame) gm = true <->
  255 * ground_region_size e gm < 10 * flagged_count e bg frame.
Proof.
  intros Hgm. unfold too_much_change, Qgtb.
  rewrite Qltb_lt, change_mask_sum, (ground_mask_sum _ _ Hgm).
  unfold Qlt, Qmult, inject_Z. simpl. lia.
Qed.

Lemma assign_where_binary h w dst cond v :
  binary h w dst -> (v = 0 \/ v = 1)%Z -> binary h w (assign_where h w dst cond v).
Proof.
  intros Hb Hv y x Hy Hx. unfold assign_where.
  rewrite pixel_mkimage by assumption.
  destruct (cond y x); [exact Hv|apply Hb; assumption].
Qed.

(** The mask stays a 0/1 raster. *)
Lemma update_burrow_mask_binary e bg frame m m' :
  update_burrow_mask e bg frame m = Ok m' ->
  binary (height e) (width e) (burrow_mask m) ->
  binary (height e) (width e) (burrow_mask m').
Proof.
  unfold update_burrow_mask.
  destruct (get_ground_mask e) as [gm|]; [|discriminate]. simpl.
  destruct (too_much_change _ gm).
  - intros [= <-] Hb. exact Hb.
  - intros [= <-] Hb. simpl.
    apply assign_where_binary; [|left; reflexivity].
    apply morph_close_binary; [apply cross_centre|].
    apply assign_where_binary; [exact Hb|right; reflexivity].
Qed.

End WithRasterizer.
End MaskFacts.

Module MaskClaims.
Import RasterFacts Mask MaskFacts.

(** C9 (monotonic accretion). In a call of [update_burrow_mask] that is
    not aborted, every pixel of the 0/1 burrow mask that was set before
    the call and lies in the ground region is still set afterwards, and
    every pixel outside the ground region is cleared: a set pixel can only
    be lost by pruning. *)
Theorem update_burrow_mask_accretes `{Rasterizer} e bg frame m m' gm :
  get_ground_mask e = Ok gm ->
  too_much_change (change_mask e bg frame) gm = false ->
  update_burrow_mask e bg frame m = Ok m' ->
  binary (height e) (width e) (burrow_mask m) ->
  forall y x, y < height e -> x < width e ->
    (pixel (burrow_mask m) y x = 1%Z -> pixel gm y x <> 0%Z ->
     pixel (burrow_mask m') y x = 1%Z) /\
    (pixel gm y x = 0%Z -> pixel (burrow_mask m') y x = 0%Z).
Proof.
  intros Hgm Hgo. unfold update_burrow_mask. rewrite Hgm. simpl. rewrite Hgo.
  intros [= <-] Hbin y x Hy Hx. simpl.
  split; unfold assign_where at 1; rewrite pixel_mkimage by assumption;
    cbv beta.
  - intros Hold Hin.
    destruct (pixel gm y x =? 0)%Z eqn:E; [apply Z.eqb_eq in E; contradiction|].
    set (bm1 := assign_where _ _ (burrow_mask m) _ 1%Z).
    assert (Hb1 : binary (height e) (width e) bm1)
      by (apply assign_where_binary; [exact Hbin|right; reflexivity]).
    assert (H1 : pixel bm1 y x = 1%Z).
    { unfold bm1, assign_where. rewrite pixel_mkimage by assumption.
      destruct (_ =? 1)%Z; [reflexivity|exact Hold]. }
    pose proof (morph_close_extensive (height e) (width e) MORPH_ELLIPSE_3x3
                  bm1 y x cross_symmetric Hy Hx) as Hext.
    rewrite H1 in Hext.
    destruct (morph_close_binary (height e) (width e) MORPH_ELLIPSE_3x3 bm1
                cross_centre Hb1 y x Hy Hx) as [E0|E1]; [|exact E1].
    rewrite E0 in Hext. lia.
  - intros ->. reflexivity.
Qed.

Lemma update_burrow_mask_accretes_witness :
  exists m', @update_burrow_mask Examples.bbox Examples.flicker_env
               Examples.flicker_background Examples.flicker_frame
               Examples.corner_masks = Ok m' /\
             pixel (burrow_mask m') 0 0 = 1%Z.
Proof.
  eexists. split; [reflexivity|].
  refine (proj1 (@update_burrow_mask_accretes Examples.bbox Examples.flicker_env
            Examples.flicker_background Examples.flicker_frame
            Examples.corner_masks _ _ eq_refl eq_refl eq_refl _ 0 0 _ _) _ _).
  - intros y x Hy Hx. simpl in Hy, Hx.
    do 5 (destruct y as [|y]; [do 5 (destruct x as [|x]; [vm_compute; tauto|]); lia|]).
    lia.
  - simpl. lia.
  - simpl. lia.
  - reflexivity.
  - vm_compute. discriminate.
Defined.

(** C2 (safety abort), evaluated at a flicker frame. Five of the 25 ground
    pixels are newly flagged, which is more than 10% of the ground region,
    yet the update is not skipped: the flagged pixels are added to the
    burrow mask. The test compares with [0.1*ground_mask.sum()], and the
    ground mask holds 255, not 1, in the ground region. *)
Theorem update_burrow_mask_flicker_not_skipped :
  let e := Examples.flicker_env in
  let bg := Examples.flicker_background in
  let frame := Examples.flicker_frame in
  exists gm,
    @get_ground_mask Examples.bbox e = Ok gm /\
    flagged_count e bg frame = 5 /\
    ground_region_size e gm = 25 /\
    (inject_Z 5 > (1 # 10) * inject_Z 25)%Q /\
    @update_burrow_mask Examples.bbox e bg frame Examples.flicker_masks
    = Ok {| burrow_mask := Examples.plus_mask;
            cache_image_uint8 := Examples.plus_mask |} /\
    Examples.plus_mask <> burrow_mask Examples.flicker_masks.
Proof.
  eexists. split; [reflexivity|].
  split; [reflexivity|]. split; [reflexivity|].
  split; [reflexivity|]. split; [reflexivity|].
  discriminate.
Qed.

End MaskClaims.

Module TracksFacts.
Import Resolver Tracks.

Lemma active_tracks_spec (burrow_tracks : list BurrowTrack) (i : nat) :
  i ∈ active_tracks burrow_tracks <->
  exists track, burrow_tracks !! i = Some track /\ active track = true.
Proof.
  unfold active_tracks. rewrite list_elem_of_In, filter_In, in_seq.
  split.
  - intros [_ Hact]. destruct (burrow_tracks !! i) as [track|]; [|discriminate].
    exists track. split; [reflexivity|exact Hact].
  - intros (track & Hi & Hact). split.
    + apply lookup_lt_Some in Hi. lia.
    + rewrite Hi. exact Hact.
Qed.

Lemma active_tracks_NoDup (burrow_tracks : list BurrowTrack) :
  NoDup (active_tracks burrow_tracks).
Proof.
  unfold active_tracks. apply NoDup_ListNoDup, List.NoDup_filter, List.seq_NoDup.
Qed.

Section WithShape.
Context `{BurrowShape}.

Lemma first_match_Some burrow_tracks burrow rest : forall track_id tid' i,
  first_match burrow_tracks burrow track_id rest = Some (tid', i) ->
  exists p track,
    tid' = track_id + p /\ rest !! p = Some i /\
    burrow_tracks !! i = Some track /\
    intersects burrow (track_last track) = true /\
    forall q j track', q < p -> rest !! q = Some j ->
      burrow_tracks !! j = Some track' ->
      intersects burrow (track_last track') = false.
Proof.
  induction rest as [|a rest IH]; intros track_id tid' i Hm; [discriminate|].
  simpl in Hm.
  destruct (burrow_tracks !! a) as [track|] eqn:Ha.
  - destruct (intersects burrow (track_last track)) eqn:Hi.
    + injection Hm as <- <-. exists 0, track.
      split; [lia|]. split; [reflexivity|]. split; [exact Ha|].
      split; [exact Hi|]. intros q j t' Hq. lia.
    + apply IH in Hm as (p & t & -> & Hp & Ht & Hint & Hbefore).
      exists (S p), t.
      split; [lia|]. split; [exact Hp|]. split; [exact Ht|].
      split; [exact Hint|].
      intros q j t' Hq Hj Ht'. destruct q as [|q].
      * simpl in Hj. injection Hj as <-. congruence.
      * simpl in Hj. eapply Hbefore; [|eassumption..]. lia.
  - apply IH in Hm as (p & t & -> & Hp & Ht & Hint & Hbefore).
    exists (S p), t.
    split; [lia|]. split; [exact Hp|]. split; [exact Ht|].
    split; [exact Hint|].
    intros q j t' Hq Hj Ht'. destruct q as [|q].
    + simpl in Hj. injection Hj as <-. congruence.
    + simpl in Hj. eapply Hbefore; [|eassumption..]. lia.
Qed.

Lemma first_match_None burrow_tracks burrow rest : forall track_id,
  first_match burrow_tracks burrow track_id rest = None ->
  forall q j track', rest !! q = Some j ->
    burrow_tracks !! j = Some track' ->
    intersects burrow (track_last track') = false.
Proof.
  induction rest as [|a rest IH]; intros track_id Hm q j t' Hj Ht';
    [discriminate|].
  simpl in Hm. destruct q as [|q]; simpl in Hj.
  - injection Hj as <-. rewrite Ht' in Hm.
    destruct (intersects burrow (track_last t')); [discriminate|reflexivity].
  - destruct (burrow_tracks !! a) as [track|].
    + destruct (intersects burrow (track_last track)); [discriminate|].
      eapply IH; eassumption.
    + eapply IH; eassumption.
Qed.

(** What a round of the burrow loop does to one track. *)
Lemma add_burrow_lookup frame_id snapshot T E burrow T' E' i track :
  add_burrow frame_id snapshot (T, E) burrow = (T', E') ->
  T !! i = Some track ->
  exists track',
    T' !! i = Some track' /\
    active track' = active track /\
    first_entry track' = first_entry track /\
    later_entries track `prefix_of` later_entries track' /\
    (i ∉ snapshot -> track' = track).
Proof.
  unfold add_burrow. intros Hadd Hi.
  destruct (first_match T burrow 0 snapshot) as [[track_id j]|] eqn:Hm.
  - apply first_match_Some in Hm as (p & tj & -> & Hp & Hj & Hint & _).
    rewrite Hj in Hadd.
    destruct (differs burrow (track_last tj)).
    + injection Hadd as <- <-.
      destruct (decide (i = j)) as [->|Hne].
      * rewrite Hj in Hi. injection Hi as <-.
        exists (track_append tj frame_id burrow).
        rewrite list_lookup_insert_eq by (eapply lookup_lt_Some; eassumption).
        repeat split; try reflexivity.
        -- simpl. apply prefix_app_r. reflexivity.
        -- intros Hnot. exfalso. apply Hnot.
           eapply list_elem_of_lookup_2. eassumption.
      * exists track. rewrite list_lookup_insert_ne by congruence.
        repeat split; try assumption; reflexivity.
    + injection Hadd as <- <-. exists track.
      repeat split; try assumption; reflexivity.
  - injection Hadd as <- <-. exists track. unfold create_track.
    rewrite lookup_app_l by (eapply lookup_lt_Some; eassumption).
    repeat split; try assumption; reflexivity.
Qed.

Lemma add_burrow_length frame_id snapshot T E burrow T' E' :
  add_burrow frame_id snapshot (T, E) burrow = (T', E') ->
  length T <= length T'.
Proof.
  unfold add_burrow.
  destruct (first_match T burrow 0 snapshot) as [[track_id j]|].
  - destruct (T !! j) as [tj|]; [destruct (differs burrow (track_last tj))|];
      intros [= <- <-]; rewrite ?length_insert; lia.
  - intros [= <- <-]. unfold create_track. rewrite length_app. simpl. lia.
Qed.

(** The same over the whole burrow loop. *)
Lemma match_loop_lookup frame_id snapshot burrows : forall T E T' E' i track,
  foldl (add_burrow frame_id snapshot) (T, E) burrows = (T', E') ->
  T !! i = Some track ->
  exists track',
    T' !! i = Some track' /\
    active track' = active track /\
    first_entry track' = first_entry track /\
    later_entries track `prefix_of` later_entries track' /\
    (i ∉ snapshot -> track' = track).
Proof.
  induction burrows as [|b burrows IH]; intros T E T' E' i track Hf Hi.
  - simpl in Hf. injection Hf as <- <-. exists track.
    repeat split; try assumption; reflexivity.
  - cbn [foldl] in Hf.
    destruct (add_burrow frame_id snapshot (T, E) b) as [T1 E1] eqn:H1.
    destruct (add_burrow_lookup _ _ _ _ _ _ _ _ _ H1 Hi)
      as (t1 & Hi1 & Ha1 & Hf1 & Hp1 & Hs1).
    destruct (IH _ _ _ _ _ _ Hf Hi1) as (t2 & Hi2 & Ha2 & Hf2 & Hp2 & Hs2).
    exists t2. repeat split; try congruence.
    + etransitivity; eassumption.
    + intros Hn. rewrite (Hs2 Hn). apply Hs1. exact Hn.
Qed.

Lemma match_loop_length frame_id snapshot burrows : forall T E T' E',
  foldl (add_burrow frame_id snapshot) (T, E) burrows = (T', E') ->
  length T <= length T'.
Proof.
  induction burrows as [|b burrows IH]; intros T E T' E' Hf.
  - simpl in Hf. injection Hf as <- <-. lia.
  - cbn [foldl] in Hf.
    destruct (add_burrow frame_id snapshot (T, E) b) as [T1 E1] eqn:H1.
    apply add_burrow_length in H1. apply IH in Hf. lia.
Qed.

(** A track whose last outline no burrow of the frame intersects is
    neither changed nor recorded in [tracks_extended]. *)
Lemma match_loop_untouched frame_id snapshot burrows i track :
  forall T E T' E',
  foldl (add_burrow frame_id snapshot) (T, E) burrows = (T', E') ->
  T !! i = Some track ->
  (forall b, b ∈ burrows -> intersects b (track_last track) = false) ->
  (forall p, snapshot !! p = Some i -> p ∉ E) ->
  T' !! i = Some track /\ (forall p, snapshot !! p = Some i -> p ∉ E').
Proof.
  induction burrows as [|b burrows IH]; intros T E T' E' Hf Hi Hno HE.
  - simpl in Hf. injection Hf as <- <-. split; assumption.
  - cbn [foldl] in Hf.
    destruct (add_burrow frame_id snapshot (T, E) b) as [T1 E1] eqn:H1.
    assert (Hb : intersects b (track_last track) = false)
      by (apply Hno; left).
    assert (Hstep : T1 !! i = Some track /\
                    forall p, snapshot !! p = Some i -> p ∉ E1).
    { unfold add_burrow in H1.
      destruct (first_match T b 0 snapshot) as [[track_id j]|] eqn:Hm.
      - apply first_match_Some in Hm as (p & tj & -> & Hp & Hj & Hint & _).
        assert (Hne : j <> i) by (intros ->; congruence).
        rewrite Hj in H1. split.
        + destruct (differs b (track_last tj)); injection H1 as <- <-;
            [rewrite list_lookup_insert_ne by congruence|]; exact Hi.
        + intros q Hq.
          assert (E1 = {[0 + p]} ∪ E) as ->
            by (destruct (differs b (track_last tj)); congruence).
          assert (q <> p) by (intros ->; congruence).
          specialize (HE q Hq). intros Hin.
          apply elem_of_union in Hin as [Hin|Hin]; [|contradiction].
          apply elem_of_singleton in Hin. lia.
      - injection H1 as <- <-. split; [|exact HE].
        unfold create_track.
        rewrite lookup_app_l by (eapply lookup_lt_Some; eassumption).
        exact Hi. }
    destruct Hstep as [Hi1 HE1].
    eapply IH; [exact Hf|exact Hi1| |exact HE1].
    intros b' Hb'. apply Hno. right. exact Hb'.
Qed.

(** What the deactivation loop does to one track. *)
Lemma deactivate_loop_lookup E entries : forall T i,
  length (foldl (deactivate_step E) T entries) = length T /\
  foldl (deactivate_step E) T entries !! i
  = (fun track =>
       if existsb (fun e : nat * nat => (e.2 =? i) && negb (bool_decide (e.1 ∈ E)))
                  entries
       then deactivate track else track) <$> T !! i.
Proof.
  induction entries as [|[p j] entries IH]; intros T i.
  - simpl. split; [reflexivity|]. destruct (T !! i); reflexivity.
  - cbn [foldl existsb fst snd].
    destruct (IH (deactivate_step E T (p, j)) i) as [Hlen Hlk].
    assert (Hstep : length (deactivate_step E T (p, j)) = length T /\
                    deactivate_step E T (p, j) !! i
                    = (fun track => if (j =? i) && negb (bool_decide (p ∈ E))
                                    then deactivate track else track) <$> T !! i).
    { unfold deactivate_step.
      destruct (bool_decide (p ∈ E)); simpl.
      - rewrite andb_false_r. split; [reflexivity|].
        destruct (T !! i); reflexivity.
      - rewrite andb_true_r.
        destruct (T !! j) as [tj|] eqn:Hj.
        + rewrite length_insert. split; [reflexivity|].
          destruct (Nat.eqb_spec j i) as [->|Hne].
          * rewrite list_lookup_insert_eq by (eapply lookup_lt_Some; eassumption).
            rewrite Hj. reflexivity.
          * rewrite list_lookup_insert_ne by congruence.
            destruct (T !! i); reflexivity.
        + split; [reflexivity|].
          destruct (Nat.eqb_spec j i) as [->|Hne].
          * rewrite Hj. reflexivity.
          * destruct (T !! i); reflexivity. }
    destruct Hstep as [Hlen1 Hlk1].
    split; [congruence|].
    rewrite Hlk, Hlk1.
    destruct (T !! i) as [t|]; [|reflexivity]. simpl. f_equal.
    destruct ((j =? i) && negb (bool_decide (p ∈ E))); simpl; [|reflexivity].
    destruct (existsb _ entries); reflexivity.
Qed.

Lemma enumerate_lookup (l : list nat) p e :
  enumerate l !! p = Some e <-> e.1 = p /\ l !! p = Some e.2.
Proof.
  unfold enumerate. destruct e as [a b]. simpl.
  rewrite lookup_zip_with_Some. split.
  - intros (x & y & [= <- <-] & Hx & Hy).
    apply lookup_seq in Hx as [-> _]. split; [reflexivity|exact Hy].
  - intros [<- Hb]. exists a, b. split; [reflexivity|]. split; [|exact Hb].
    apply lookup_seq. split; [reflexivity|]. eapply lookup_lt_Some; eassumption.
Qed.

(** A track at an index outside the snapshot is passed over. *)
Lemma existsb_enumerate_false (E : gset nat) (l : list nat) i :
  i ∉ l ->
  existsb (fun e : nat * nat => (e.2 =? i) && negb (bool_decide (e.1 ∈ E)))
          (enumerate l) = false.
Proof.
  intros Hni. apply not_true_is_false. intros Hex.
  apply existsb_exists in Hex as ([p j] & Hin & Hc).
  apply list_elem_of_In, list_elem_of_lookup in Hin as [q Hq].
  apply enumerate_lookup in Hq as [_ Hq]. simpl in *.
  apply andb_prop in Hc as [Hc _]. apply Nat.eqb_eq in Hc. subst j.
  apply Hni. eapply list_elem_of_lookup_2. eassumption.
Qed.

Lemma existsb_enumerate_true (E : gset nat) (l : list nat) i p :
  l !! p = Some i -> p ∉ E ->
  existsb (fun e : nat * nat => (e.2 =? i) && negb (bool_decide (e.1 ∈ E)))
          (enumerate l) = true.
Proof.
  intros Hp HE. apply existsb_exists. exists (p, i). split.
  - apply list_elem_of_In. eapply list_elem_of_lookup_2.
    apply enumerate_lookup. split; [reflexivity|exact Hp].
  - simpl. rewrite Nat.eqb_refl. simpl.
    rewrite bool_decide_eq_false_2 by exact HE. reflexivity.
Qed.

(** A track whose place in the snapshot is in [tracks_extended] is not
    deactivated. *)
Lemma existsb_enumerate_extended (E : gset nat) (l : list nat) i p :
  NoDup l -> l !! p = Some i -> p ∈ E ->
  existsb (fun e : nat * nat => (e.2 =? i) && negb (bool_decide (e.1 ∈ E)))
          (enumerate l) = false.
Proof.
  intros Hnd Hp HE. apply not_true_is_false. intros Hex.
  apply existsb_exists in Hex as ([q j] & Hin & Hc).
  apply list_elem_of_In, list_elem_of_lookup in Hin as [q' Hq].
  apply enumerate_lookup in Hq as [Hq1 Hq]. simpl in *. subst q'.
  apply andb_prop in Hc as [Hc Hn]. apply Nat.eqb_eq in Hc. subst j.
  assert (q = p) as -> by (eapply NoDup_lookup; eassumption).
  rewrite bool_decide_eq_true_2 in Hn by exact HE. discriminate.
Qed.

(** [tracks_extended] only grows. *)
Lemma match_loop_extended frame_id snapshot burrows : forall T E T' E' p,
  foldl (add_burrow frame_id snapshot) (T, E) burrows = (T', E') ->
  p ∈ E -> p ∈ E'.
Proof.
  induction burrows as [|b burrows IH]; intros T E T' E' p Hf Hp.
  - cbn [foldl] in Hf. injection Hf as <- <-. exact Hp.
  - cbn [foldl] in Hf.
    destruct (add_burrow frame_id snapshot (T, E) b) as [T1 E1] eqn:H1.
    eapply IH; [exact Hf|]. unfold add_burrow in H1.
    destruct (first_match T b 0 snapshot) as [[track_id j]|].
    + injection H1 as _ <-. apply elem_of_union. right. exact Hp.
    + injection H1 as _ <-. exact Hp.
Qed.

End WithShape.
End TracksFacts.

Module TracksClaims.
Import Resolver Tracks TracksFacts.

(** C6 (greedy first-match track association). When a burrow's turn
    comes in [add_burrows_to_tracks], the candidates are the tracks that
    were active when the frame started, in list order. Either some
    candidate's most recent outline intersects the burrow: then the first
    such track is recorded as extended, the burrow is appended to it
    exactly if it differs from that outline, and nothing else changes;
    the track is active in the list that the function leaves, with the
    history that it had at the burrow's turn, then the burrow if it was
    appended, then what later burrows of the frame added. Or no
    candidate's outline intersects it: then a new track that starts at
    the frame index is put at the end of the list, and is there, active
    and with this one entry, in the list that the function leaves. *)
Theorem add_burrows_first_match `{BurrowShape} (frame_id : Z)
    (done : list Burrow) (burrow : Burrow) (rest : list Burrow)
    (burrow_tracks : list BurrowTrack) :
  let snapshot := active_tracks burrow_tracks in
  let T := (match_burrows frame_id done burrow_tracks).1 in
  let E := (match_burrows frame_id done burrow_tracks).2 in
  let T' := (match_burrows frame_id (done ++ [burrow]) burrow_tracks).1 in
  let E' := (match_burrows frame_id (done ++ [burrow]) burrow_tracks).2 in
  let result :=
    add_burrows_to_tracks frame_id (done ++ burrow :: rest) burrow_tracks in
  (forall i, i ∈ snapshot <->
             exists track, burrow_tracks !! i = Some track /\ active track = true) /\
  ((exists p i track,
      snapshot !! p = Some i /\ T !! i = Some track /\
      intersects burrow (track_last track) = true /\
      (forall q j track', q < p -> snapshot !! q = Some j ->
         T !! j = Some track' ->
         intersects burrow (track_last track') = false) /\
      T' = (if differs burrow (track_last track)
            then <[i := track_append track frame_id burrow]> T else T) /\
      E' = {[p]} ∪ E /\
      exists track',
        result !! i = Some track' /\
        active track' = true /\
        first_entry track' = first_entry track /\
        (later_entries track
         ++ (if differs burrow (track_last track)
             then [(frame_id, burrow)] else []))
        `prefix_of` later_entries track')
   \/
   ((forall p i track, snapshot !! p = Some i -> T !! i = Some track ->
       intersects burrow (track_last track) = false) /\
    T' = T ++ [{| first_entry := (frame_id, burrow); later_entries := [];
                  active := true |}] /\
    E' = E /\
    result !! length T
    = Some {| first_entry := (frame_id, burrow); later_entries := [];
              active := true |})).
Proof.
  intros snapshot T E T' E' result. split; [apply active_tracks_spec|].
  assert (Hdone : foldl (add_burrow frame_id snapshot) (burrow_tracks, ∅) done
                  = (T, E)) by (unfold T, E; apply surjective_pairing).
  assert (Hstep : add_burrow frame_id snapshot (T, E) burrow = (T', E')).
  { unfold T', E', match_burrows. rewrite foldl_snoc. fold snapshot.
    rewrite Hdone. apply surjective_pairing. }
  destruct (foldl (add_burrow frame_id snapshot) (T', E') rest)
    as [Tf Ef] eqn:Hrest.
  assert (Hresult : result = foldl (deactivate_step Ef) Tf (enumerate snapshot)).
  { unfold result, add_burrows_to_tracks, match_burrows. fold snapshot.
    replace (done ++ burrow :: rest) with ((done ++ [burrow]) ++ rest)
      by (rewrite <- app_assoc; reflexivity).
    rewrite foldl_app, foldl_snoc, Hdone, Hstep, Hrest. reflexivity. }
  assert (Hlook : forall i, result !! i
            = (fun track =>
                 if existsb (fun en : nat * nat =>
                               (en.2 =? i) && negb (bool_decide (en.1 ∈ Ef)))
                            (enumerate snapshot)
                 then deactivate track else track) <$> Tf !! i).
  { intros i. rewrite Hresult.
    apply (deactivate_loop_lookup Ef (enumerate snapshot) Tf i). }
  pose proof (match_loop_length _ _ _ _ _ _ _ Hdone) as HlenT.
  unfold add_burrow in Hstep.
  destruct (first_match T burrow 0 snapshot) as [[track_id i]|] eqn:Hm.
  - left. apply first_match_Some in Hm as (p & t & -> & Hp & Ht & Hint & Hbefore).
    rewrite Ht in Hstep. cbn [Nat.add] in Hstep.
    assert (HT' : T' = (if differs burrow (track_last t)
                        then <[i := track_append t frame_id burrow]> T else T))
      by (injection Hstep as <- _; reflexivity).
    assert (HE' : E' = {[p]} ∪ E) by (injection Hstep as _ <-; reflexivity).
    exists p, i, t.
    split; [exact Hp|]. split; [exact Ht|]. split; [exact Hint|].
    split; [exact Hbefore|]. split; [exact HT'|]. split; [exact HE'|].
    assert (Hi : i ∈ snapshot) by (eapply list_elem_of_lookup_2; exact Hp).
    apply active_tracks_spec in Hi as (t0 & Ht0 & Hact0).
    destruct (match_loop_lookup _ _ _ _ _ _ _ _ _ Hdone Ht0)
      as (t1 & Ht1 & Hact1 & _ & _ & _).
    assert (t1 = t) as -> by congruence.
    set (t' := if differs burrow (track_last t)
               then track_append t frame_id burrow else t).
    assert (Ht' : T' !! i = Some t').
    { rewrite HT'. unfold t'. destruct (differs burrow (track_last t)).
      - apply list_lookup_insert_eq. eapply lookup_lt_Some. exact Ht.
      - exact Ht. }
    destruct (match_loop_lookup _ _ _ _ _ _ _ _ _ Hrest Ht')
      as (tf & Htf & Hactf & Hfirstf & Hpre & _).
    assert (HpE : p ∈ Ef).
    { eapply match_loop_extended; [exact Hrest|]. rewrite HE'.
      apply elem_of_union. left. apply elem_of_singleton. reflexivity. }
    exists tf. rewrite Hlook, Htf. cbn [fmap option_fmap option_map].
    rewrite (existsb_enumerate_extended Ef snapshot i p
               (active_tracks_NoDup burrow_tracks) Hp HpE).
    split; [reflexivity|].
    assert (Hsame : active t' = active t /\ first_entry t' = first_entry t /\
                    later_entries t'
                    = later_entries t
                      ++ (if differs burrow (track_last t)
                          then [(frame_id, burrow)] else [])).
    { unfold t'. destruct (differs burrow (track_last t)).
      - repeat split; reflexivity.
      - rewrite app_nil_r. repeat split; reflexivity. }
    destruct Hsame as (Ha & Hf & Hl).
    split; [congruence|]. split; [congruence|].
    rewrite <- Hl. exact Hpre.
  - right. injection Hstep as HT' HE'.
    split; [intros p i t Hp Ht; eapply first_match_None; eassumption|].
    split; [symmetry; exact HT'|]. split; [symmetry; exact HE'|].
    assert (Hnew : T' !! length T
                   = Some {| first_entry := (frame_id, burrow);
                             later_entries := []; active := true |}).
    { rewrite <- HT'. unfold create_track.
      rewrite lookup_app_r, Nat.sub_diag by lia. reflexivity. }
    assert (Hout : length T ∉ snapshot).
    { intros Hin. apply active_tracks_spec in Hin as (t0 & Ht0 & _).
      apply lookup_lt_Some in Ht0. lia. }
    destruct (match_loop_lookup _ _ _ _ _ _ _ _ _ Hrest Hnew)
      as (tf & Htf & _ & _ & _ & Hkeep).
    rewrite Hlook, Htf, (Hkeep Hout). cbn [fmap option_fmap option_map].
    rewrite existsb_enumerate_false by exact Hout. reflexivity.
Qed.

(** C7 (track deactivation is terminal). Every track of the list is still
    there after the frame, with its earlier entries. A track that was
    active and was recorded for no burrow is inactive afterwards and
    otherwise unchanged; that is the case whenever no burrow of the frame
    intersects its last outline. An inactive track comes out of the frame,
    and of any run of later frames, exactly as it went in. A burrow that
    intersects the last outline of no active track starts a new, active
    track, whatever inactive tracks it may intersect. *)
Theorem deactivated_tracks_stay `{BurrowShape} (frame_id : Z)
    (burrows : list Burrow) (burrow_tracks : list BurrowTrack)
    (i : nat) (track : BurrowTrack) :
  burrow_tracks !! i = Some track ->
  let result := add_burrows_to_tracks frame_id burrows burrow_tracks in
  (exists track', result !! i = Some track' /\
      first_entry track' = first_entry track /\
      later_entries track `prefix_of` later_entries track') /\
  (active track = true ->
   forall p, active_tracks burrow_tracks !! p = Some i ->
     p ∉ (match_burrows frame_id burrows burrow_tracks).2 ->
     exists track', result !! i = Some track' /\ active track' = false) /\
  (active track = true ->
   (forall b, b ∈ burrows -> intersects b (track_last track) = false) ->
   result !! i = Some (deactivate track)) /\
  (active track = false -> result !! i = Some track) /\
  (active track = false ->
   forall frames, run_frames frames burrow_tracks !! i = Some track) /\
  (forall b,
     (forall j tj, burrow_tracks !! j = Some tj -> active tj = true ->
                   intersects b (track_last tj) = false) ->
     let result1 := add_burrows_to_tracks frame_id [b] burrow_tracks in
     length result1 = S (length burrow_tracks) /\
     result1 !! length burrow_tracks
     = Some {| first_entry := (frame_id, b); later_entries := [];
               active := true |}).
Proof.
  intros Hi result.
  assert (Hinactive : forall fid bs tracks t,
            tracks !! i = Some t -> active t = false ->
            add_burrows_to_tracks fid bs tracks !! i = Some t).
  { intros fid bs tracks t Ht Hact. unfold add_burrows_to_tracks.
    destruct (match_burrows fid bs tracks) as [T' E'] eqn:Hm.
    assert (Hni : i ∉ active_tracks tracks).
    { rewrite active_tracks_spec. intros (t' & Ht' & Ha'). congruence. }
    destruct (match_loop_lookup _ _ _ _ _ _ _ _ _ Hm Ht)
      as (t' & Ht' & _ & _ & _ & Hsame).
    rewrite (Hsame Hni) in Ht'.
    rewrite (proj2 (deactivate_loop_lookup E' _ T' i)), Ht'. simpl.
    rewrite existsb_enumerate_false by exact Hni. reflexivity. }
  split; [|split; [|split; [|split; [|split]]]].
  - subst result. unfold add_burrows_to_tracks.
    destruct (match_burrows frame_id burrows burrow_tracks) as [T' E'] eqn:Hm.
    destruct (match_loop_lookup _ _ _ _ _ _ _ _ _ Hm Hi)
      as (t' & Ht' & _ & Hfirst & Hpre & _).
    rewrite (proj2 (deactivate_loop_lookup E' _ T' i)), Ht'. simpl.
    eexists. split; [reflexivity|].
    destruct (existsb _ _); simpl; split; assumption.
  - intros Hact p Hp HnE. subst result. unfold add_burrows_to_tracks.
    destruct (match_burrows frame_id burrows burrow_tracks) as [T' E'] eqn:Hm.
    destruct (match_loop_lookup _ _ _ _ _ _ _ _ _ Hm Hi)
      as (t' & Ht' & _ & _ & _ & _).
    rewrite (proj2 (deactivate_loop_lookup E' _ T' i)), Ht'. simpl.
    rewrite (existsb_enumerate_true E' _ i p Hp HnE).
    eexists. split; reflexivity.
  - intros Hact Hno. subst result. unfold add_burrows_to_tracks.
    destruct (match_burrows frame_id burrows burrow_tracks) as [T' E'] eqn:Hm.
    assert (Hin : i ∈ active_tracks burrow_tracks)
      by (apply active_tracks_spec; eauto).
    apply list_elem_of_lookup in Hin as [p Hp].
    destruct (match_loop_untouched _ _ _ _ _ _ _ _ _ Hm Hi Hno) as [Ht' HE'].
    { intros q _. apply not_elem_of_empty. }
    rewrite (proj2 (deactivate_loop_lookup E' _ T' i)), Ht'. simpl.
    rewrite (existsb_enumerate_true E' _ i p Hp (HE' p Hp)). reflexivity.
  - intros Hact. apply Hinactive; assumption.
  - intros Hact frames. clear result. revert burrow_tracks Hi.
    induction frames as [|[fid bs] frames IH]; intros tracks Ht.
    + exact Ht.
    + unfold run_frames. cbn [foldl fst snd]. apply IH.
      apply Hinactive; assumption.
  - intros b Hno result1. subst result1. unfold add_burrows_to_tracks.
    unfold match_burrows. cbn [foldl]. unfold add_burrow.
    destruct (first_match burrow_tracks b 0 (active_tracks burrow_tracks))
      as [[track_id j]|] eqn:Hm.
    + exfalso.
      apply first_match_Some in Hm as (p & tj & _ & Hp & Hj & Hint & _).
      assert (Hin : j ∈ active_tracks burrow_tracks)
        by (eapply list_elem_of_lookup_2; eassumption).
      apply active_tracks_spec in Hin as (tj' & Hj' & Hact).
      rewrite Hj in Hj'. injection Hj' as <-.
      rewrite (Hno j tj Hj Hact) in Hint. discriminate.
    + pose proof (deactivate_loop_lookup ∅
                    (enumerate (active_tracks burrow_tracks))
                    (create_track burrow_tracks frame_id b)
                    (length burrow_tracks)) as [Hlen Hlk].
      rewrite Hlen, Hlk. unfold create_track.
      rewrite length_app. simpl. split; [lia|].
      rewrite lookup_app_r, Nat.sub_diag by lia. simpl.
      rewrite existsb_enumerate_false; [reflexivity|].
      rewrite active_tracks_spec. intros (t' & Ht' & _).
      apply lookup_lt_Some in Ht'. lia.
Qed.

Lemma deactivated_tracks_stay_witness :
  @add_burrows_to_tracks Examples.share_vertex 7
    [Examples.burrow_b]
    [Examples.track_of 3 Examples.burrow_a true] !! 0
  = Some (deactivate (Examples.track_of 3 Examples.burrow_a true)) /\
  @run_frames Examples.share_vertex
    [(8%Z, [Examples.burrow_a]); (9%Z, [Examples.burrow_a'])]
    [Examples.track_of 3 Examples.burrow_a false] !! 0
  = Some (Examples.track_of 3 Examples.burrow_a false).
Proof.
  split.
  - refine (proj1 (proj2 (proj2 (@deactivated_tracks_stay Examples.share_vertex 7
              [Examples.burrow_b] [Examples.track_of 3 Examples.burrow_a true]
              0 _ eq_refl))) eq_refl _).
    intros b Hb. apply list_elem_of_singleton in Hb as ->. reflexivity.
  - refine (proj1 (proj2 (proj2 (proj2 (proj2
              (@deactivated_tracks_stay Examples.share_vertex 0 []
                 [Examples.track_of 3 Examples.burrow_a false] 0 _ eq_refl)))))
              eq_refl _).
Defined.

End TracksClaims.

Module ResolverFacts.
Import RasterFacts Mask MaskFacts Resolver.



Lemma argmin_from_bound l : forall best vbest i,
  best < i -> argmin_from best vbest i l < i + length l.
Proof.
  induction l as [|v l IH]; intros best vbest i Hb; simpl; [lia|].
  destruct (ereal_ltb v vbest).
  - specialize (IH i v (S i)). lia.
  - specialize (IH best vbest (S i)). lia.
Qed.

Lemma argmin_Some (l : list ereal) :
  l <> [] -> exists i, argmin l = Some i /\ i < length l.
Proof.
  destruct l as [|v l]; [congruence|]. intros _. simpl.
  eexists. split; [reflexivity|].
  pose proof (argmin_from_bound l 0 v 1). lia.
Qed.

Lemma list_remove_first_elem k l :
  k ∈ l -> exists r, list_remove_first k l = Ok r /\
                     (forall j, j ∈ l -> j <> k -> j ∈ r) /\
                     (forall j, j ∈ r -> j ∈ l).
Proof.
  induction l as [|x l IH]; intros Hk; [inversion Hk|]. simpl.
  destruct (Nat.eqb_spec x k) as [->|Hne].
  - exists l. split; [reflexivity|]. split.
    + intros j Hj Hjk. apply elem_of_cons in Hj as [->|Hj]; [congruence|exact Hj].
    + intros j Hj. right. exact Hj.
  - apply elem_of_cons in Hk as [->|Hk]; [congruence|].
    destruct (IH Hk) as (r & -> & Hin & Hout). exists (x :: r).
    split; [reflexivity|]. split.
    + intros j Hj Hjk. apply elem_of_cons in Hj as [->|Hj]; [left|right; auto].
    + intros j Hj. apply elem_of_cons in Hj as [->|Hj]; [left|right; auto].
Qed.


Section WithGeometry.
Context `{Rasterizer} `{Geometry}.

Arguments ereal_ltb : simpl never.
Arguments Qgtb : simpl never.
Arguments Qltb : simpl never.
Arguments bridge_outline : simpl never.
Arguments merged_outline : simpl never.
Arguments paint : simpl never.

Lemma ground_dist_lookup e chunks k c :
  chunks !! k = Some c ->
  ground_dist e chunks !! k
  = Some (distance (ground_line e) (LinearRing c)).
Proof.
  intros Hk. unfold ground_dist. rewrite map_fmap, list_lookup_fmap, Hk.
  reflexivity.
Qed.

Lemma ground_dist_length e chunks :
  length (ground_dist e chunks) = length chunks.
Proof. unfold ground_dist. apply length_map. Qed.


Lemma pixel_paint e bm outline y x :
  y < height e -> x < width e ->
  pixel (paint e bm outline) y x
  = if poly_covers (map (fun p : point => (int_of p.1, int_of p.2)) outline) x y
    then 1%Z else pixel bm y x.
Proof. intros. unfold paint. apply pixel_fillPoly; assumption. Qed.

Lemma paint_keeps e bm outline y x :
  y < height e -> x < width e ->
  pixel bm y x = 1%Z -> pixel (paint e bm outline) y x = 1%Z.
Proof.
  intros Hy Hx H1. rewrite pixel_paint by assumption.
  destruct (poly_covers _ x y); [reflexivity|exact H1].
Qed.

Lemma classified_initial e chunks bm :
  classified e chunks bm 0 (initial_state chunks bm).
Proof.
  constructor; simpl; try reflexivity; try lia.
  - apply length_imap.
  - intros j c Hj. eexists. rewrite list_lookup_imap, Hj. simpl.
    split; reflexivity.
Qed.

Lemma filter_seq_S (f : nat -> bool) k :
  List.filter f (seq 0 (S k))
  = List.filter f (seq 0 k) ++ (if f k then [k] else []).
Proof. rewrite seq_S, List.filter_app. simpl. destruct (f k); reflexivity. Qed.

Lemma bridged_directly_closest e chunks k :
  bridged_directly e chunks k = true -> closest_to_ground e chunks k = true.
Proof. unfold bridged_directly. intros Hb. apply andb_prop in Hb as [Hb _]. exact Hb. Qed.

Ltac simpl_state :=
  cbn [burrow_chunks next_id connected disconnected burrow_mask
       append_connected append_disconnected rbind].


Lemma bridge_outline_Ok e contour structure :
  2 <= length (exit_points e contour structure) ->
  exists outline, bridge_outline e contour structure = Ok outline.
Proof.
  unfold bridge_outline, cluster_exit_points.
  destruct (exit_points e contour structure) as [|p [|q l]]; cbn [rbind length];
    [lia|lia|].
  intros _. eexists. reflexivity.
Qed.

(** One round of the first loop keeps [classified], or raises what the
    bridging of its chunk raised. *)
Lemma classify_step_classified e chunks bm k st ck :
  k < length chunks -> chunks !! k = Some ck ->
  classified e chunks bm k st ->
  match classify_step e chunks (Ok st) k with
  | Ok st' => classified e chunks bm (S k) st'
  | Raise ex => bridged_directly e chunks k = true /\
                bridge_outline e ck (ground_line e) = Raise ex
  end.
Proof.
  intros Hk Hck Inv. unfold classify_step. cbn [rbind].
  pose proof (ground_dist_lookup e chunks k ck Hck) as Hgd.
  rewrite Hgd.
  set (gk := distance (ground_line e) (LinearRing ck)) in *.
  assert (Hclosest : closest_to_ground e chunks k
                     = ereal_ltb (Finite gk) (row_min chunks k))
    by (unfold closest_to_ground; rewrite Hgd; reflexivity).
  assert (Hbridged : bridged_directly e chunks k
                     = ereal_ltb (Finite gk) (row_min chunks k) && Qgtb gk 1)
    by (unfold bridged_directly; rewrite Hclosest, Hgd; reflexivity).
  destruct Inv as [Hlen Hnext Hconn Hdisc Hslot Hmask].
  destruct (Hslot k ck Hck) as (ok & Hok & Hok').
  rewrite Nat.ltb_irrefl in Hok'. simpl in Hok'. subst ok.
  destruct (ereal_ltb (Finite gk) (row_min chunks k)) eqn:Hlt.
  + destruct (Qgtb gk 1) eqn:Hg1.
    * (* bridged to the ground line *)
      unfold bridge_to_ground, connect_burrow_to_structure. rewrite Hok.
      cbn [outline_of].
      destruct (bridge_outline e ck (ground_line e)) as [bridged|ex] eqn:Hbr;
        cbn [rbind]; [|split; [rewrite Hbridged|]; reflexivity].
      constructor; simpl_state.
      -- rewrite length_insert. exact Hlen.
      -- lia.
      -- rewrite filter_seq_S, Hclosest, Hconn. reflexivity.
      -- rewrite filter_seq_S, Hclosest, Hdisc. cbn [negb].
         rewrite app_nil_r. reflexivity.
      -- intros j c Hj. destruct (decide (j = k)) as [->|Hne].
         ++ rewrite list_lookup_insert_eq by (rewrite Hlen; lia).
            simpl_state. eexists. split; [reflexivity|].
            assert (Hkk : (k <? S k) = true) by (apply Nat.ltb_lt; lia).
            rewrite Hkk, Hbridged. cbn [andb outline_of oid].
            assert (c = ck) as -> by congruence.
            split; [exact Hbr|]. split; [exact Hnext|].
            intros y x Hy Hx Hcov. rewrite pixel_paint by assumption.
            rewrite Hcov. reflexivity.
         ++ rewrite list_lookup_insert_ne by congruence.
            destruct (Hslot j c Hj) as (o & Ho & Ho').
            exists o. split; [exact Ho|].
            assert (Hjk : (j <? S k) = (j <? k)).
            { destruct (Nat.ltb_spec j (S k)), (Nat.ltb_spec j k);
                try reflexivity; lia. }
            rewrite Hjk.
            destruct ((j <? k) && bridged_directly e chunks j); [|exact Ho'].
            destruct Ho' as (Ho1 & Ho2 & Ho3).
            split; [exact Ho1|]. split; [exact Ho2|].
            intros y x Hy Hx Hcov. apply paint_keeps; [assumption..|].
            apply Ho3; assumption.
      -- intros y x Hy Hx H1. apply paint_keeps; [assumption..|].
         apply Hmask; assumption.
    * (* close enough: left as it is *)
      cbn [rbind].
      constructor; simpl_state; try assumption.
      -- rewrite filter_seq_S, Hclosest, Hconn. reflexivity.
      -- rewrite filter_seq_S, Hclosest, Hdisc. cbn [negb].
         rewrite app_nil_r. reflexivity.
      -- intros j c Hj. destruct (Hslot j c Hj) as (o & Ho & Ho').
         exists o. split; [exact Ho|].
         destruct (decide (j = k)) as [->|Hne].
         ++ rewrite Hbridged. simpl. rewrite andb_false_r.
            rewrite Nat.ltb_irrefl in Ho'. exact Ho'.
         ++ assert (Hjk : (j <? S k) = (j <? k)).
            { destruct (Nat.ltb_spec j (S k)), (Nat.ltb_spec j k);
                try reflexivity; lia. }
            rewrite Hjk. exact Ho'.
  + constructor; simpl_state; try assumption.
    * rewrite filter_seq_S, Hclosest, Hconn.
      rewrite app_nil_r. reflexivity.
    * rewrite filter_seq_S, Hclosest, Hdisc. reflexivity.
    * intros j c Hj. destruct (Hslot j c Hj) as (o & Ho & Ho').
      exists o. split; [exact Ho|].
      destruct (decide (j = k)) as [->|Hne].
      -- rewrite Hbridged. simpl. rewrite andb_false_r.
         rewrite Nat.ltb_irrefl in Ho'. exact Ho'.
      -- assert (Hjk : (j <? S k) = (j <? k)).
         { destruct (Nat.ltb_spec j (S k)), (Nat.ltb_spec j k);
             try reflexivity; lia. }
         rewrite Hjk. exact Ho'.
Qed.

Lemma classify_upto_S e chunks bm k :
  classify_upto e chunks bm (S k)
  = classify_step e chunks (classify_upto e chunks bm k) k.
Proof. unfold classify_upto. rewrite seq_S, foldl_snoc. reflexivity. Qed.

(** The first loop, when it returns, has kept [classified]; when it
    raises, the bridging of a chunk that is closest to the ground and
    farther than one pixel from it has raised. *)
Lemma classify_upto_classified e chunks bm k :
  k <= length chunks ->
  match classify_upto e chunks bm k with
  | Ok st => classified e chunks bm k st
  | Raise ex =>
      exists j c, j < k /\ chunks !! j = Some c /\
                  bridged_directly e chunks j = true /\
                  bridge_outline e c (ground_line e) = Raise ex
  end.
Proof.
  induction k as [|k IH]; intros Hk.
  - apply classified_initial.
  - rewrite classify_upto_S. specialize (IH ltac:(lia)).
    destruct (classify_upto e chunks bm k) as [st|ex].
    + destruct (lookup_lt_is_Some_2 chunks k) as [ck Hck]; [lia|].
      pose proof (classify_step_classified e chunks bm k st ck
                    ltac:(lia) Hck IH) as Hstep.
      destruct (classify_step e chunks (Ok st) k) as [st'|ex];
        [exact Hstep|].
      exists k, ck. split; [lia|]. split; [exact Hck|exact Hstep].
    + cbn [classify_step rbind].
      destruct IH as (j & c & Hj & Hc & Hb & Hr).
      exists j, c. split; [lia|]. split; [exact Hc|]. split; assumption.
Qed.

Lemma classify_classified e chunks bm st :
  classify e chunks bm = Ok st -> classified e chunks bm (length chunks) st.
Proof.
  intros Hst. pose proof (classify_upto_classified e chunks bm (length chunks)
                            (Nat.le_refl _)) as Hc.
  unfold classify in Hst. rewrite Hst in Hc. exact Hc.
Qed.

Lemma classify_raise e chunks bm ex :
  classify e chunks bm = Raise ex ->
  exists j c, chunks !! j = Some c /\
              bridged_directly e chunks j = true /\
              bridge_outline e c (ground_line e) = Raise ex.
Proof.
  intros Hst. pose proof (classify_upto_classified e chunks bm (length chunks)
                            (Nat.le_refl _)) as Hc.
  unfold classify in Hst. rewrite Hst in Hc.
  destruct Hc as (j & c & _ & Hc & Hb & Hr). eauto.
Qed.

(** After the first loop every chunk is in one of the two lists, and the
    chunks in [connected] have their link to the ground. *)
Lemma classified_cover e chunks bm st :
  classified e chunks bm (length chunks) st ->
  (forall k, k ∈ connected st -> k < length chunks) /\
  (forall k, k ∈ disconnected st -> k < length chunks) /\
  (forall k, k < length chunks ->
     k ∈ connected st \/ k ∈ disconnected st) /\
  (forall k, k ∈ connected st ->
     exists o, burrow_chunks st !! k = Some o /\
               ground_connected e chunks (outline_of o)) /\
  length (connected st) + length (disconnected st) = length chunks.
Proof.
  intros [Hlen Hnext Hconn Hdisc Hslot Hmask].
  split; [|split; [|split; [|split]]].
  - intros k Hk. rewrite Hconn in Hk. apply list_elem_of_In, filter_In in Hk as [Hk _].
    apply in_seq in Hk. lia.
  - intros k Hk. rewrite Hdisc in Hk. apply list_elem_of_In, filter_In in Hk as [Hk _].
    apply in_seq in Hk. lia.
  - intros k Hk. rewrite Hconn, Hdisc.
    destruct (closest_to_ground e chunks k) eqn:Hc; [left|right];
      apply list_elem_of_In, filter_In; (split; [apply in_seq; lia|]);
      rewrite Hc; reflexivity.
  - intros k Hk. rewrite Hconn in Hk.
    apply list_elem_of_In, filter_In in Hk as [Hk Hc]. apply in_seq in Hk.
    destruct (lookup_lt_is_Some_2 chunks k) as [c Hck]; [lia|].
    destruct (Hslot k c Hck) as (o & Ho & Ho'). exists o. split; [exact Ho|].
    assert (Hkk : (k <? length chunks) = true) by (apply Nat.ltb_lt; lia).
    rewrite Hkk in Ho'. cbn [andb] in Ho'.
    destruct (bridged_directly e chunks k) eqn:Hb.
    + destruct Ho' as (Hbr & _). eapply gc_bridged. exact Hbr.
    + subst o. cbn [outline_of].
      pose proof (ground_dist_lookup e chunks k c Hck) as Hgd.
      unfold bridged_directly in Hb. rewrite Hc, Hgd in Hb. cbn [andb] in Hb.
      unfold closest_to_ground in Hc. rewrite Hgd in Hc.
      eapply gc_direct; eassumption.
  - rewrite Hconn, Hdisc, filter_length, length_seq. reflexivity.
Qed.

Lemma list_remove_first_length k l r :
  list_remove_first k l = Ok r -> length l = S (length r).
Proof.
  revert r. induction l as [|x l IH]; intros r; simpl; [discriminate|].
  destruct (x =? k); [intros [= <-]; reflexivity|].
  destruct (list_remove_first k l) as [r'|]; [|discriminate].
  intros [= <-]. simpl. f_equal. apply IH. reflexivity.
Qed.

(** The step that forces a connection, after a first loop that left
    [connected] empty: the chunk nearest to the ground line is bridged,
    and what the bridging raises is raised. *)
Lemma force_connection_spec e chunks bm st :
  chunks <> [] ->
  classified e chunks bm (length chunks) st ->
  connected st = [] ->
  exists k o r,
    argmin (map Finite (ground_dist e chunks)) = Some k /\
    k < length chunks /\
    burrow_chunks st !! k = Some o /\
    list_remove_first k (disconnected st) = Ok r /\
    (forall ex, bridge_outline e (outline_of o) (ground_line e) = Raise ex ->
       force_connection e chunks st = Raise ex) /\
    (forall outline,
       bridge_outline e (outline_of o) (ground_line e) = Ok outline ->
       force_connection e chunks st
       = Ok {| burrow_chunks :=
                 <[k := {| oid := next_id st; outline_of := outline |}]>
                   (burrow_chunks st);
               next_id := S (next_id st);
               connected := [k];
               disconnected := r;
               burrow_mask := paint e (burrow_mask st) outline |}).
Proof.
  intros Hne Hcl Econn.
  pose proof (classified_cover _ _ _ _ Hcl) as (Hc & Hd & Hcov & Hg & Hsum).
  destruct Hcl as [Hlen Hnext Hconn Hdisc Hslot Hmask].
  destruct (argmin_Some (map Finite (ground_dist e chunks)))
    as (k & Hkarg & Hk).
  { destruct chunks; [congruence|discriminate]. }
  rewrite length_map, ground_dist_length in Hk.
  destruct (Hcov k Hk) as [Hin|Hin]; [rewrite Econn in Hin; inversion Hin|].
  destruct (lookup_lt_is_Some_2 (burrow_chunks st) k) as [o Ho]; [lia|].
  destruct (list_remove_first_elem k (disconnected st) Hin)
    as (r & Hr & Hkeep & Hsub).
  exists k, o, r. split; [exact Hkarg|]. split; [exact Hk|].
  split; [exact Ho|]. split; [exact Hr|].
  unfold force_connection, bridge_to_ground, connect_burrow_to_structure.
  rewrite Econn, Hkarg, Ho. split.
  - intros ex ->. reflexivity.
  - intros outline ->. simpl_state. rewrite Hr. reflexivity.
Qed.

(** The first two phases, when they return, leave the state [linked],
    with at least one chunk out of [disconnected]. *)
Lemma ground_phase_linked e chunks bm st :
  chunks <> [] ->
  ground_phase e chunks bm = Ok st ->
  linked e chunks st /\ length (disconnected st) < length chunks.
Proof.
  intros Hne. unfold ground_phase.
  destruct (classify e chunks bm) as [st1|ex] eqn:Hst1; [|discriminate].
  apply classify_classified in Hst1. cbn [rbind].
  pose proof (classified_cover _ _ _ _ Hst1) as (Hc & Hd & Hcov & Hg & Hsum).
  destruct (connected st1) as [|k0 conn] eqn:Econn.
  - (* no chunk was closest to the ground *)
    destruct (force_connection_spec e chunks bm st1 Hne Hst1 Econn)
      as (k & o & r & Hkarg & Hk & Ho & Hr & Hraise & Hok).
    destruct (bridge_outline e (outline_of o) (ground_line e))
      as [outline|ex] eqn:Hbr.
    2:{ rewrite (Hraise ex eq_refl). discriminate. }
    rewrite (Hok outline eq_refl). intros [= <-].
    destruct Hst1 as [Hlen Hnext Hconn Hdisc Hslot Hmask].
    assert (Hin : k ∈ disconnected st1).
    { destruct (Hcov k Hk) as [Hin|Hin]; [inversion Hin|exact Hin]. }
    destruct (list_remove_first_elem k (disconnected st1) Hin)
      as (r' & Hr' & Hkeep & Hsub).
    assert (r' = r) as -> by congruence.
    assert (Ho_orig : exists c, chunks !! k = Some c /\ outline_of o = c).
    { destruct (lookup_lt_is_Some_2 chunks k Hk) as [c Hck].
      destruct (Hslot k c Hck) as (o' & Ho' & Hslot').
      assert (o' = o) as -> by congruence.
      exists c. split; [exact Hck|].
      assert (Hnb : bridged_directly e chunks k = false).
      { unfold bridged_directly.
        assert (Hnc : closest_to_ground e chunks k = false).
        { destruct (closest_to_ground e chunks k) eqn:Hclo; [|reflexivity].
          assert (Hkc : k ∈ connected st1).
          { rewrite Hconn. apply list_elem_of_In, filter_In.
            split; [apply in_seq; lia|exact Hclo]. }
          rewrite Econn in Hkc. inversion Hkc. }
        rewrite Hnc. reflexivity. }
      rewrite Hnb, andb_false_r in Hslot'. subst o. reflexivity. }
    destruct Ho_orig as (c & Hck & Hoc).
    split.
    + constructor; simpl_state.
      * rewrite length_insert. exact Hlen.
      * discriminate.
      * intros j Hj. apply list_elem_of_singleton in Hj as ->. exact Hk.
      * intros j Hj. apply Hd, Hsub, Hj.
      * intros j Hj.
        destruct (decide (j = k)) as [->|Hjk];
          [left; apply list_elem_of_singleton; reflexivity|right].
        apply Hkeep; [|exact Hjk].
        destruct (Hcov j Hj) as [Hin'|Hin']; [inversion Hin'|exact Hin'].
      * intros j Hj. apply list_elem_of_singleton in Hj as ->.
        rewrite list_lookup_insert_eq by lia.
        eexists. split; [reflexivity|]. cbn [outline_of].
        eapply gc_bridged. exact Hbr.
    + apply list_remove_first_length in Hr. simpl_state.
      simpl in Hsum. lia.
  - unfold force_connection. rewrite Econn. intros [= <-]. split.
    + destruct Hst1 as [Hlen Hnext Hconn Hdisc Hslot Hmask].
      constructor; rewrite ?Econn; try assumption; discriminate.
    + simpl in Hsum. lia.
Qed.


Lemma candidate_dist_length chunks st :
  length (candidate_dist chunks st)
  = length (disconnected st) * length (connected st).
Proof.
  unfold candidate_dist. apply flat_map_constant_length.
  intros x _. apply length_map.
Qed.

(** A round of the loop [while disconnected] that returns has taken one
    chunk out of [disconnected] and put it at the end of [connected];
    this holds of every state. *)
Lemma merge_step_removes e chunks st st' :
  merge_step e chunks st = Ok st' ->
  exists k1 c1,
    disconnected st !! k1 = Some c1 /\
    disconnected st' = delete k1 (disconnected st) /\
    connected st' = connected st ++ [c1] /\
    S (length (disconnected st')) = length (disconnected st) /\
    next_id st' = S (next_id st).
Proof.
  unfold merge_step.
  destruct (argmin (candidate_dist chunks st)) as [i|]; [|discriminate].
  set (k1 := i / length (connected st)).
  set (k2 := i mod length (connected st)).
  destruct (disconnected st !! k1) as [c1|] eqn:Hc1; [|discriminate].
  destruct (connected st !! k2) as [c2|]; [|discriminate].
  destruct (burrow_chunks st !! c1) as [o1|]; [|discriminate].
  destruct (burrow_chunks st !! c2) as [o2|]; [|discriminate].
  unfold connect_burrow_to_structure.
  destruct (bridge_outline e (outline_of o1) (LinearRing (outline_of o2)))
    as [enlarged|ex]; cbn [rbind]; [|discriminate].
  destruct (_ !! c2) as [bc2|]; [|discriminate].
  intros [= <-]. exists k1, c1. simpl_state.
  split; [exact Hc1|]. split; [reflexivity|]. split; [reflexivity|].
  split; [|reflexivity].
  rewrite length_delete by (eexists; exact Hc1). 
  apply lookup_lt_Some in Hc1. lia.
Qed.

(** One round of the loop [while disconnected], written out: the pair
    that is taken, and the result, which is what the bridging of the
    disconnected chunk to the connected one raises, or the state in which
    the merged outline has replaced the objects of the two chunks. *)
Lemma merge_step_choice e chunks st :
  linked e chunks st -> disconnected st <> [] ->
  exists i c1 c2 o1 o2,
    let n := length (connected st) in
    argmin (candidate_dist chunks st) = Some i /\
    i / n < length (disconnected st) /\ i mod n < n /\
    disconnected st !! (i / n) = Some c1 /\
    connected st !! (i mod n) = Some c2 /\
    burrow_chunks st !! c1 = Some o1 /\
    burrow_chunks st !! c2 = Some o2 /\
    (forall ex,
       bridge_outline e (outline_of o1) (LinearRing (outline_of o2)) = Raise ex ->
       merge_step e chunks st = Raise ex) /\
    (forall enlarged_chunk,
       bridge_outline e (outline_of o1) (LinearRing (outline_of o2))
       = Ok enlarged_chunk ->
       exists bc2,
         let outline :=
           {| oid := next_id st;
              outline_of :=
                merged_outline enlarged_chunk (LinearRing (outline_of o2)) |} in
         <[c1:=outline]> (burrow_chunks st) !! c2 = Some bc2 /\
         merge_step e chunks st
         = Ok {| burrow_chunks :=
                   map (fun bc => if oid bc =? oid bc2 then outline else bc)
                       (<[c1:=outline]> (burrow_chunks st));
                 next_id := S (next_id st);
                 connected := connected st ++ [c1];
                 disconnected := delete (i / n) (disconnected st);
                 burrow_mask := paint e (burrow_mask st) enlarged_chunk |}).
Proof.
  intros [Hlen Hsome Hc Hd Hcov Hg] Hdne. unfold merge_step.
  assert (Hm : 0 < length (disconnected st))
    by (destruct (disconnected st); [congruence|simpl; lia]).
  assert (Hn : 0 < length (connected st))
    by (destruct (connected st); [congruence|simpl; lia]).
  destruct (argmin_Some (candidate_dist chunks st)) as (i & Hi & Hilt).
  { intros Hnil. apply (f_equal length) in Hnil.
    rewrite candidate_dist_length in Hnil. simpl in Hnil. nia. }
  rewrite Hi. rewrite candidate_dist_length in Hilt.
  assert (Hk1 : i / length (connected st) < length (disconnected st)).
  { apply Nat.Div0.div_lt_upper_bound. lia. }
  assert (Hk2 : i mod length (connected st) < length (connected st)).
  { apply Nat.mod_upper_bound. lia. }
  destruct (lookup_lt_is_Some_2 _ _ Hk1) as [c1 Hc1].
  destruct (lookup_lt_is_Some_2 _ _ Hk2) as [c2 Hc2].
  rewrite Hc1, Hc2.
  assert (Hc1lt : c1 < length chunks)
    by (apply Hd; eapply list_elem_of_lookup_2; eassumption).
  assert (Hc2in : c2 ∈ connected st)
    by (eapply list_elem_of_lookup_2; eassumption).
  destruct (lookup_lt_is_Some_2 (burrow_chunks st) c1) as [o1 Ho1]; [lia|].
  destruct (Hg c2 Hc2in) as (o2 & Ho2 & _).
  rewrite Ho1, Ho2. unfold connect_burrow_to_structure.
  exists i, c1, c2, o1, o2. cbv zeta.
  repeat (split; [first [reflexivity|assumption]|]).
  split.
  - intros ex ->. reflexivity.
  - intros enlarged ->. cbn [rbind].
    set (outline := {| oid := next_id st; outline_of := _ |}).
    destruct (lookup_lt_is_Some_2 (<[c1:=outline]> (burrow_chunks st)) c2)
      as [bc2 Hbc2].
    { rewrite length_insert. apply lookup_lt_Some in Ho2. exact Ho2. }
    exists bc2. rewrite Hbc2. split; reflexivity.
Qed.

(** A round of the loop that returns keeps the state [linked]. *)
Lemma merge_step_linked e chunks st st' :
  linked e chunks st ->
  merge_step e chunks st = Ok st' ->
  linked e chunks st'.
Proof.
  intros Hl Hstep.
  assert (Hdne : disconnected st <> []).
  { apply merge_step_removes in Hstep as (k1 & c1 & Hc1 & _).
    intros E. rewrite E in Hc1. discriminate. }
  destruct (merge_step_choice e chunks st Hl Hdne)
    as (i & c1 & c2 & o1 & o2 & _ & _ & _ & Hc1 & Hc2 & Ho1 & Ho2 & Hraise & Hok).
  cbv zeta in *.
  destruct (bridge_outline e (outline_of o1) (LinearRing (outline_of o2)))
    as [enlarged|ex] eqn:Hbr.
  2:{ rewrite (Hraise ex eq_refl) in Hstep. discriminate. }
  destruct (Hok enlarged eq_refl) as (bc2 & Hbc2 & Heq).
  rewrite Heq in Hstep. injection Hstep as <-.
  destruct Hl as [Hlen Hsome Hc Hd Hcov Hg].
  set (k1 := i / length (connected st)) in *.
  set (outline := {| oid := next_id st; outline_of := _ |}) in *.
  assert (Hc1lt : c1 < length chunks)
    by (apply Hd; eapply list_elem_of_lookup_2; eassumption).
  assert (Hc2in : c2 ∈ connected st)
    by (eapply list_elem_of_lookup_2; eassumption).
  destruct (Hg c2 Hc2in) as (o2' & Ho2' & Hgc2).
  assert (o2' = o2) as -> by congruence.
  assert (Hgo : ground_connected e chunks (outline_of outline))
    by (eapply gc_merged; [exact Hgc2|exact Hbr]).
  constructor; simpl_state.
  - rewrite length_map, length_insert. exact Hlen.
  - destruct (connected st); discriminate.
  - intros k Hk. apply elem_of_app in Hk as [Hk|Hk]; [apply Hc, Hk|].
    apply list_elem_of_singleton in Hk as ->. exact Hc1lt.
  - intros k Hk. apply Hd. eapply list_elem_of_delete_inv. exact Hk.
  - intros k Hk. destruct (Hcov k Hk) as [Hin|Hin].
    + left. apply elem_of_app. left. exact Hin.
    + apply list_elem_of_lookup in Hin as [q Hq].
      destruct (lt_eq_lt_dec q k1) as [[Hlt| ->]|Hgt].
      * right. eapply list_elem_of_lookup_2.
        rewrite list_lookup_delete_lt by exact Hlt. exact Hq.
      * left. apply elem_of_app. right. apply list_elem_of_singleton. congruence.
      * right. destruct q as [|q]; [lia|].
        eapply (list_elem_of_lookup_2 _ q).
        rewrite list_lookup_delete_ge by lia. exact Hq.
  - intros k Hk.
    assert (Hklt : k < length chunks).
    { apply elem_of_app in Hk as [Hk|Hk]; [apply Hc, Hk|].
      apply list_elem_of_singleton in Hk as ->. exact Hc1lt. }
    rewrite map_fmap, list_lookup_fmap.
    destruct (decide (k = c1)) as [->|Hne].
    + rewrite list_lookup_insert_eq by lia. simpl.
      eexists. split; [reflexivity|].
      destruct (_ =? _); exact Hgo.
    + rewrite list_lookup_insert_ne by congruence.
      apply elem_of_app in Hk as [Hk|Hk];
        [|apply list_elem_of_singleton in Hk; congruence].
      destruct (Hg k Hk) as (o & Ho & Hgco). rewrite Ho. simpl.
      eexists. split; [reflexivity|].
      destruct (_ =? _); [exact Hgo|exact Hgco].
Qed.

(** With fuel for every chunk in [disconnected] the loop comes to an
    end, by returning or by raising; this holds of every state. *)
Lemma merge_loop_ends e chunks : forall fuel st,
  length (disconnected st) <= fuel ->
  exists res, merge_loop fuel e chunks st = Some res.
Proof.
  induction fuel as [|fuel IH]; intros st Hf.
  - destruct (disconnected st) eqn:E; [|simpl in Hf; lia].
    eexists. cbn [merge_loop]. rewrite E. reflexivity.
  - cbn [merge_loop]. destruct (disconnected st) as [|d ds] eqn:E;
      [eexists; reflexivity|].
    destruct (merge_step e chunks st) as [st1|ex] eqn:Hstep;
      [|eexists; reflexivity].
    apply IH. apply merge_step_removes in Hstep as (_ & _ & _ & _ & _ & Hlen & _).
    rewrite E in Hlen. simpl in *. lia.
Qed.

(** A loop that returns has emptied [disconnected], in as many rounds as
    it held chunks, each of which took one unit of fuel and made one new
    object; and it has kept the state [linked]. *)
Lemma merge_loop_returns e chunks : forall fuel st st',
  linked e chunks st ->
  merge_loop fuel e chunks st = Some (Ok st') ->
  disconnected st' = [] /\ linked e chunks st' /\
  length (disconnected st) <= fuel /\
  next_id st' = next_id st + length (disconnected st) /\
  length (connected st') = length (connected st) + length (disconnected st).
Proof.
  induction fuel as [|fuel IH]; intros st st' Hl Hloop.
  - cbn [merge_loop] in Hloop. destruct (disconnected st) eqn:E; [|discriminate].
    injection Hloop as <-. rewrite E. simpl.
    split; [reflexivity|]. split; [exact Hl|]. lia.
  - cbn [merge_loop] in Hloop. destruct (disconnected st) as [|d ds] eqn:E.
    + injection Hloop as <-. rewrite E. simpl.
      split; [reflexivity|]. split; [exact Hl|]. lia.
    + destruct (merge_step e chunks st) as [st1|ex] eqn:Hstep; [|discriminate].
      pose proof (merge_step_linked e chunks st st1 Hl Hstep) as Hl1.
      apply merge_step_removes in Hstep as (k1 & c1 & _ & _ & Hcon & Hlen & Hid).
      destruct (IH st1 st' Hl1 Hloop) as (Hnil & Hl' & Hfuel & Hnext & Hconn).
      rewrite E in Hlen. simpl in Hlen.
      rewrite Hcon, length_app in Hconn. simpl in Hconn |- *.
      split; [exact Hnil|]. split; [exact Hl'|]. lia.
Qed.


End WithGeometry.
End ResolverFacts.

Module ResolverClaims.
Import RasterFacts Mask MaskFacts Resolver ResolverFacts.






(** C4 (termination of the merge loop). When the first two phases have
    returned on a list of [N] chunks, fewer than [N] chunks are in
    [disconnected]. Every round of the loop [while disconnected] that
    returns has removed exactly one element from [disconnected], adding
    none, and has put it at the end of [connected]; a round that does
    not return raises, which ends the loop too. So with fuel for as many
    rounds as [disconnected] has elements the loop comes to an end,
    whatever the distances; and when it returns, [disconnected] is empty
    and it has made exactly that many rounds. *)
Theorem merge_loop_terminates `{Rasterizer} `{Geometry}
    (e : env) (chunks : list polyline) (bm : image) (st0 : state) :
  ground_phase e chunks bm = Ok st0 ->
  length (disconnected st0) < length chunks /\
  (forall st st',
     merge_step e chunks st = Ok st' ->
     exists k1 c1,
       disconnected st !! k1 = Some c1 /\
       disconnected st' = delete k1 (disconnected st) /\
       S (length (disconnected st')) = length (disconnected st) /\
       connected st' = connected st ++ [c1]) /\
  (forall fuel, length (disconnected st0) <= fuel ->
     exists res, merge_loop fuel e chunks st0 = Some res) /\
  (forall fuel st',
     merge_loop fuel e chunks st0 = Some (Ok st') ->
     disconnected st' = [] /\
     length (disconnected st0) <= fuel /\
     next_id st' = next_id st0 + length (disconnected st0) /\
     length (connected st') = length (connected st0) + length (disconnected st0)).
Proof.
  intros Hphase.
  assert (Hne : chunks <> []) by (intros ->; discriminate Hphase).
  destruct (ground_phase_linked e chunks bm st0 Hne Hphase) as [Hl0 Hlt].
  split; [exact Hlt|]. split; [|split].
  - intros st st' Hstep.
    destruct (merge_step_removes e chunks st st' Hstep)
      as (k1 & c1 & Hk & Hdel & Hcon & Hlen & _).
    exists k1, c1. repeat (split; [assumption|]). exact Hcon.
  - intros fuel Hf. apply merge_loop_ends. exact Hf.
  - intros fuel st' Hloop.
    destruct (merge_loop_returns e chunks fuel st0 st' Hl0 Hloop)
      as (Hnil & _ & Hfuel & Hnext & Hconn).
    repeat (split; [assumption|]). exact Hconn.
Qed.

Lemma merge_loop_terminates_witness :
  exists st0,
    @ground_phase Examples.bbox Examples.boxes Examples.field_env
      [Examples.chunk_top; Examples.chunk_mid; Examples.chunk_deep]
      (zeros 10 10) = Ok st0 /\
    length (disconnected st0) < 3 /\
    exists res,
      @merge_loop Examples.bbox Examples.boxes 2 Examples.field_env
        [Examples.chunk_top; Examples.chunk_mid; Examples.chunk_deep] st0
      = Some res.
Proof.
  assert (Hst : exists st0,
            @ground_phase Examples.bbox Examples.boxes Examples.field_env
              [Examples.chunk_top; Examples.chunk_mid; Examples.chunk_deep]
              (zeros 10 10) = Ok st0) by (eexists; vm_compute; reflexivity).
  destruct Hst as [st0 Hphase].
  destruct (@merge_loop_terminates Examples.bbox Examples.boxes
              Examples.field_env
              [Examples.chunk_top; Examples.chunk_mid; Examples.chunk_deep]
              (zeros 10 10) st0 Hphase)
    as (Hlen & _ & Hends & _).
  exists st0. split; [exact Hphase|]. split; [exact Hlen|].
  apply Hends. simpl in Hlen. lia.
Defined.

(** C10 (empty input). Called with no chunks, [connect_burrow_chunks]
    returns the empty list and the mask as it was, whatever the fuel and
    whatever the geometry; without the early return the step that forces
    a connection would raise, its [argmin] being over an empty array. *)
Theorem connect_no_chunks `{Rasterizer} `{Geometry}
    (e : env) (bm : image) (fuel : nat) :
  connect_burrow_chunks fuel e [] bm = Some (Ok ([], bm)) /\
  ground_phase e [] bm = Raise ValueError.
Proof. split; reflexivity. Qed.

End ResolverClaims.


Module VisionFacts.
Import RasterFacts Mask MaskFacts.

Lemma max_areas_ge (areas : list Z) (L : Z) :
  max_areas areas = Ok L -> forall a, a ∈ areas -> (a <= L)%Z.
Proof.
  destruct areas as [|a0 l]; [discriminate|]. simpl. intros [= <-] a Ha.
  induction l as [|b l IH]; simpl.
  - apply list_elem_of_singleton in Ha as ->. lia.
  - apply elem_of_cons in Ha as [->|Ha].
    + assert (a0 <= foldr Z.max a0 l)%Z by (clear; induction l; simpl; lia). lia.
    + apply elem_of_cons in Ha as [->|Ha]; [lia|].
      assert (a <= foldr Z.max a0 l)%Z by (apply IH; right; exact Ha). lia.
Qed.

Lemma lowered_succ (ct : Q) (r : nat) :
  lowered ct (S r) = lowered (ct - 1)%Q r.
Proof.
  unfold lowered. induction r as [|r IH]; [reflexivity|].
  cbn [Nat.iter nat_rect] in *. rewrite IH. reflexivity.
Qed.

Section WithVision.
Context `{Rasterizer} `{Labelling} `{Geometry}.

Arguments Qgtb : simpl never.
Arguments Qltb : simpl never.
Arguments threshold_mask : simpl never.
Arguments largest_area : simpl never.

(** The per-label sum that the loop takes for an area is the label times
    the number of pixels of the region. *)
Lemma ndimage_sum_labels (e : env) (labels : image) (lbl : nat) :
  ndimage_sum e labels labels lbl
  = (Z.of_nat lbl * Z.of_nat (region_size e labels lbl))%Z.
Proof.
  unfold ndimage_sum, region_size. rewrite <- img_sum_indicator. f_equal.
  apply mkimage_ext. intros y x _ _.
  destruct (Z.eqb_spec (pixel labels y x) (Z.of_nat lbl)) as [->|]; reflexivity.
Qed.

(** When the measure of the loop is within the bound, so is the area of
    every region. *)
Lemma largest_area_bounds_regions (e : env) (bm : image) (L : Z) (lbl : nat) :
  largest_area e bm = Ok L ->
  1 <= lbl <= (label bm).2 ->
  (Z.of_nat (region_size e (label bm).1 lbl) <= L)%Z.
Proof.
  unfold largest_area. destruct (label bm) as [labels n]. simpl.
  intros HL Hlbl.
  pose proof (max_areas_ge _ _ HL (ndimage_sum e labels labels lbl)) as Hge.
  rewrite ndimage_sum_labels in Hge.
  assert (Hin : (Z.of_nat lbl * Z.of_nat (region_size e labels lbl))%Z
                ∈ map (fun lbl => ndimage_sum e labels labels lbl) (seq 1 n)).
  { rewrite map_fmap. apply list_elem_of_fmap. exists lbl.
    split; [symmetry; apply ndimage_sum_labels|apply elem_of_seq; lia]. }
  specialize (Hge Hin). nia.
Qed.

(** What the loop returns: the mask of the first round whose measure is
    within the bound. *)
Lemma threshold_loop_spec (e : env) (frame gm : image) :
  forall fuel ct bm,
  threshold_loop fuel e frame gm ct = Some (Ok bm) ->
  exists rounds,
    rounds < fuel /\
    bm = threshold_mask e frame gm (lowered ct rounds) /\
    (exists L, largest_area e bm = Ok L /\
               Qgtb (inject_Z L) (10 * area_min e) = false) /\
    forall r, r < rounds ->
      exists L, largest_area e (threshold_mask e frame gm (lowered ct r)) = Ok L /\
                Qgtb (inject_Z L) (10 * area_min e) = true.
Proof.
  induction fuel as [|fuel IH]; intros ct bm Hloop; [discriminate|].
  cbn [threshold_loop] in Hloop.
  destruct (largest_area e (threshold_mask e frame gm ct)) as [L|ex] eqn:HL;
    [|discriminate].
  destruct (Qgtb (inject_Z L) (10 * area_min e)) eqn:Hgt.
  - apply IH in Hloop as (rounds & Hr & -> & Hexit & Hbefore).
    exists (S rounds). split; [lia|]. rewrite lowered_succ.
    split; [reflexivity|]. split; [exact Hexit|].
    intros r Hlt. destruct r as [|r].
    + exists L. split; [exact HL|exact Hgt].
    + rewrite lowered_succ. apply Hbefore. lia.
  - injection Hloop as <-. exists 0. split; [lia|].
    split; [reflexivity|]. split; [exists L; split; assumption|].
    intros r Hr. lia.
Qed.

(** More fuel does not change what the loop returns. *)
Lemma threshold_loop_mono (e : env) (frame gm : image) :
  forall fuel ct res,
  threshold_loop fuel e frame gm ct = Some res ->
  forall fuel', fuel <= fuel' -> threshold_loop fuel' e frame gm ct = Some res.
Proof.
  induction fuel as [|fuel IH]; intros ct res Hloop fuel' Hle; [discriminate|].
  destruct fuel' as [|fuel']; [lia|].
  cbn [threshold_loop] in *.
  destruct (largest_area e (threshold_mask e frame gm ct)) as [L|ex];
    [|exact Hloop].
  destruct (Qgtb (inject_Z L) (10 * area_min e)); [|exact Hloop].
  eapply IH; [exact Hloop|lia].
Qed.

(** Rounds in which the loop's measure exceeds its bound are passed, at
    one unit of fuel each. *)
Lemma threshold_loop_rounds (e : env) (frame gm : image) :
  forall rounds ct,
  (forall r, r < rounds ->
     exists L,
       largest_area e (threshold_mask e frame gm (lowered ct r)) = Ok L /\
       Qgtb (inject_Z L) (10 * area_min e) = true) ->
  (forall fuel,
     threshold_loop (rounds + fuel) e frame gm ct
     = threshold_loop fuel e frame gm (lowered ct rounds)) /\
  (forall fuel, fuel <= rounds -> threshold_loop fuel e frame gm ct = None).
Proof.
  induction rounds as [|rounds IH]; intros ct Hbefore.
  - split; [intros fuel; reflexivity|].
    intros fuel Hf. assert (fuel = 0) as -> by lia. reflexivity.
  - destruct (Hbefore 0 ltac:(lia)) as (L & HL & Hgt).
    change (lowered ct 0) with ct in HL.
    destruct (IH (ct - 1)%Q) as [Hgo Hshort].
    { intros r Hr. rewrite <- lowered_succ. apply Hbefore. lia. }
    split.
    + intros fuel. cbn [Nat.add threshold_loop]. rewrite HL, Hgt.
      rewrite lowered_succ. apply Hgo.
    + intros fuel Hf. destruct fuel as [|fuel]; [reflexivity|].
      cbn [threshold_loop]. rewrite HL, Hgt. apply Hshort. lia.
Qed.

(** A threshold that is not positive leaves nothing of a frame. *)
Lemma threshold_mask_empty (e : env) (frame gm : image) (ct : Q) :
  (ct <= 0)%Q ->
  (forall y x, y < height e -> x < width e -> (0 <= pixel frame y x)%Z) ->
  forall y x, y < height e -> x < width e ->
    pixel (threshold_mask e frame gm ct) y x = 0%Z.
Proof.
  intros Hct Hpos y x Hy Hx. unfold threshold_mask, assign_where.
  rewrite !pixel_mkimage by assumption.
  destruct (pixel gm y x =? 0)%Z; [reflexivity|].
  destruct (Qltb (inject_Z (pixel frame y x)) ct) eqn:Hlt; [|reflexivity].
  exfalso. apply Qltb_lt in Hlt.
  assert (Hq : (0 <= inject_Z (pixel frame y x))%Q).
  { unfold Qle, inject_Z. simpl. specialize (Hpos y x Hy Hx). lia. }
  apply (Qlt_irrefl (inject_Z (pixel frame y x))).
  eapply Qlt_le_trans; [exact Hlt|].
  eapply Qle_trans; eassumption.
Qed.

(** The loop comes to an end: by returning a mask, or by the [ValueError]
    of [max] when the mask has no region left. *)
Lemma threshold_loop_total (e : env) (frame gm : image) :
  (forall y x, y < height e -> x < width e -> (0 <= pixel frame y x)%Z) ->
  (forall ct,
     (forall y x, y < height e -> x < width e ->
        pixel (threshold_mask e frame gm ct) y x = 0%Z) ->
     (label (threshold_mask e frame gm ct)).2 = 0) ->
  forall n ct fuel,
    (ct <= inject_Z (Z.of_nat n))%Q -> n < fuel ->
    exists res, threshold_loop fuel e frame gm ct = Some res.
Proof.
  intros Hpos Hlabel.
  induction n as [|n IH]; intros ct fuel Hct Hfuel;
    (destruct fuel as [|fuel]; [lia|]); cbn [threshold_loop].
  - assert (HL : largest_area e (threshold_mask e frame gm ct) = Raise ValueError).
    { unfold largest_area.
      pose proof (Hlabel ct (threshold_mask_empty e frame gm ct Hct Hpos)) as Hn.
      destruct (label (threshold_mask e frame gm ct)) as [labels k].
      simpl in Hn. subst k. reflexivity. }
    rewrite HL. eexists. reflexivity.
  - destruct (largest_area e (threshold_mask e frame gm ct)) as [L|ex];
      [|eexists; reflexivity].
    destruct (Qgtb (inject_Z L) (10 * area_min e)); [|eexists; reflexivity].
    apply IH; [|lia].
    rewrite Nat2Z.inj_succ in Hct. unfold Z.succ in Hct.
    rewrite inject_Z_plus in Hct.
    apply Qplus_le_l with (z := 1%Q).
    assert (Heq : (ct - 1 + 1 == ct)%Q) by ring.
    rewrite Heq. exact Hct.
Qed.

Lemma ceiling_bound (q : Q) :
  (q <= inject_Z (Z.of_nat (Z.to_nat (Qceiling q))))%Q.
Proof.
  eapply Qle_trans; [apply Qle_ceiling|].
  rewrite <- Zle_Qle. lia.
Qed.

(** What the pruning loop does to a pixel. *)
Lemma prune_loop_pixel (e : env) (labels : image) (ls : list nat) :
  forall bm y x, y < height e -> x < width e ->
  pixel (foldl (prune_step e labels) bm ls) y x
  = if existsb (fun lbl => far_from_ground e labels lbl &&
                           (Z.of_nat lbl =? pixel labels y x)%Z) ls
    then 0%Z else pixel bm y x.
Proof.
  induction ls as [|lbl ls IH]; intros bm y x Hy Hx; [reflexivity|].
  cbn [foldl existsb]. rewrite IH by assumption.
  destruct (existsb _ ls); [rewrite orb_true_r; reflexivity|].
  rewrite orb_false_r. unfold prune_step.
  change (Qgtb (distance (ground_line e)
                  (Point (centroid (regionprops (region e labels lbl)))))
               (ground_point_distance e))
    with (far_from_ground e labels lbl).
  destruct (far_from_ground e labels lbl); [|reflexivity].
  unfold assign_where. rewrite pixel_mkimage by assumption. reflexivity.
Qed.

Lemma kept_spec (e : env) (frame labels : image) (lbl : nat) :
  kept e frame labels lbl = true <->
  (area_min e <= area (regionprops (region e labels lbl)))%Q /\
  (ground_point_distance e / 2 <= centroid_depth e labels lbl)%Q /\
  (region_mean e frame labels lbl <= chunk_color_thresh e)%Q /\
  2 < length (find_contour (region e labels lbl)).
Proof.
  unfold kept, large_and_deep, Qgtb.
  rewrite !andb_true_iff, !negb_true_iff, !Qltb_ge, Nat.ltb_lt. tauto.
Qed.

Lemma too_bright_spec (e : env) (frame labels : image) (lbl : nat) :
  too_bright e frame labels lbl = true <->
  (area_min e <= area (regionprops (region e labels lbl)))%Q /\
  (ground_point_distance e / 2 <= centroid_depth e labels lbl)%Q /\
  (chunk_color_thresh e < region_mean e frame labels lbl)%Q.
Proof.
  unfold too_bright, large_and_deep, Qgtb.
  rewrite !andb_true_iff, !negb_true_iff, !Qltb_ge, Qltb_lt. tauto.
Qed.

(** One round of the loop of [get_burrow_chunks], by cases. *)
Lemma chunk_step_cases (e : env) (frame labels : image)
    (chunks : list polyline) (bm : image) (lbl : nat) :
  chunk_step e frame labels (chunks, bm) lbl
  = (chunks ++ (if kept e frame labels lbl
                then [find_contour (region e labels lbl)] else []),
     if too_bright e frame labels lbl
     then assign_where (height e) (width e) bm
            (fun y x => (pixel labels y x =? Z.of_nat lbl)%Z) 0%Z
     else bm).
Proof.
  unfold chunk_step, kept, too_bright, large_and_deep, centroid_depth.
  destruct (Qltb (area _) _); cbn [negb andb]; [rewrite app_nil_r; reflexivity|].
  destruct (Qltb (distance _ _) _); cbn [negb andb];
    [rewrite app_nil_r; reflexivity|].
  destruct (Qgtb (region_mean e frame labels lbl) _); cbn [negb andb];
    [rewrite app_nil_r; reflexivity|].
  destruct (2 <? _); [reflexivity|rewrite app_nil_r; reflexivity].
Qed.

(** The loop of [get_burrow_chunks] over a list of labels. *)
Lemma chunk_loop_spec (e : env) (frame labels : image) (ls : list nat) :
  forall chunks bm,
  (foldl (chunk_step e frame labels) (chunks, bm) ls).1
  = chunks ++ map (fun lbl => find_contour (region e labels lbl))
                  (List.filter (kept e frame labels) ls) /\
  forall y x, y < height e -> x < width e ->
    pixel (foldl (chunk_step e frame labels) (chunks, bm) ls).2 y x
    = if existsb (fun lbl => too_bright e frame labels lbl &&
                             (pixel labels y x =? Z.of_nat lbl)%Z) ls
      then 0%Z else pixel bm y x.
Proof.
  induction ls as [|lbl ls IH]; intros chunks bm.
  - simpl. rewrite app_nil_r. split; reflexivity.
  - cbn [foldl List.filter existsb]. rewrite chunk_step_cases.
    destruct (IH (chunks ++ (if kept e frame labels lbl
                             then [find_contour (region e labels lbl)] else []))
                 (if too_bright e frame labels lbl
                  then assign_where (height e) (width e) bm
                         (fun y x => (pixel labels y x =? Z.of_nat lbl)%Z) 0%Z
                  else bm)) as [Hc Hm].
    split.
    + rewrite Hc. destruct (kept e frame labels lbl); cbn [map].
      * rewrite <- app_assoc. reflexivity.
      * rewrite app_nil_r. reflexivity.
    + intros y x Hy Hx. rewrite Hm by assumption.
      destruct (existsb _ ls); [rewrite orb_true_r; reflexivity|].
      rewrite orb_false_r.
      destruct (too_bright e frame labels lbl); [|reflexivity].
      unfold assign_where. rewrite pixel_mkimage by assumption. reflexivity.
Qed.

End WithVision.
End VisionFacts.


Module VisionClaims.
Import RasterFacts Mask MaskFacts VisionFacts.

(** C5 (chunk extraction filter), as the code has it. [get_burrow_chunks]
    returns, in the order of the labels, the outer contours of exactly
    those regions of the mask whose area is at least the minimum, whose
    centroid is at least half the ground-point distance from the ground
    line, whose mean intensity does not exceed the brightness threshold,
    and whose contour has more than two points. It clears from the mask
    the regions that pass the tests of area and of depth and are too
    bright, and leaves every other pixel of the mask as it was. *)
Theorem get_burrow_chunks_filter `{Rasterizer} `{Labelling} `{Geometry}
    (e : env) (frame bm : image) :
  let labels := (label bm).1 in
  let num_features := (label bm).2 in
  (get_burrow_chunks e frame bm).1
  = map (fun lbl => find_contour (region e labels lbl))
        (List.filter (kept e frame labels) (seq 1 num_features)) /\
  (forall lbl,
     kept e frame labels lbl = true <->
     (area_min e <= area (regionprops (region e labels lbl)))%Q /\
     (ground_point_distance e / 2 <= centroid_depth e labels lbl)%Q /\
     (region_mean e frame labels lbl <= chunk_color_thresh e)%Q /\
     2 < length (find_contour (region e labels lbl))) /\
  (forall lbl,
     too_bright e frame labels lbl = true <->
     (area_min e <= area (regionprops (region e labels lbl)))%Q /\
     (ground_point_distance e / 2 <= centroid_depth e labels lbl)%Q /\
     (chunk_color_thresh e < region_mean e frame labels lbl)%Q) /\
  (forall y x, y < height e -> x < width e ->
     pixel (get_burrow_chunks e frame bm).2 y x
     = if existsb (fun lbl => too_bright e frame labels lbl &&
                              (pixel labels y x =? Z.of_nat lbl)%Z)
                  (seq 1 num_features)
       then 0%Z else pixel bm y x).
Proof.
  intros labels num_features. unfold get_burrow_chunks.
  subst labels num_features. destruct (label bm) as [labels n]. cbn [fst snd].
  destruct (chunk_loop_spec e frame labels (seq 1 n) [] bm) as [Hc Hm].
  split; [exact Hc|]. split; [apply kept_spec|]. split; [apply too_bright_spec|].
  exact Hm.
Qed.

(** C5, the claim as it was stated, fails: a line of three dark pixels,
    five rows below the ground line, has the minimum area, is deep enough
    and is not too bright, yet it yields no chunk, because its contour has
    only two points. *)
Lemma line_region_dropped :
  let e := Examples.field_env in
  let labels := (@label Examples.one_region Examples.line_mask).1 in
  (@label Examples.one_region Examples.line_mask).2 = 1 /\
  (area_min e <= area (@regionprops Examples.one_region (region e labels 1)))%Q /\
  (ground_point_distance e / 2
   <= @centroid_depth Examples.one_region Examples.boxes e labels 1)%Q /\
  (@region_mean e Examples.dark_frame labels 1 <= chunk_color_thresh e)%Q /\
  @find_contour Examples.one_region (region e labels 1) = [(3, 5); (5, 5)]%Q /\
  @get_burrow_chunks Examples.one_region Examples.boxes e Examples.dark_frame
    Examples.line_mask = ([], Examples.line_mask).
Proof.
  cbv zeta. split; [reflexivity|].
  split; [vm_compute; discriminate|].
  split; [vm_compute; discriminate|].
  split; [vm_compute; discriminate|].
  split; reflexivity.
Qed.

(** C8 (initial-mask bootstrap), evaluated at a first frame with two dark
    blocks. Cut at the first threshold, the ground-restricted mask has
    two clusters, of 4 and of 6 pixels: the largest has an area below 10
    times the minimum area, which is 1, so that the loop should be over
    after its first round, with both blocks in the mask, neither of
    which is too far from the ground line. But the code measures a
    cluster by [ndimage.measurements.sum(labels, labels, ...)], the sum
    of its labels, which is its area times its label: the second cluster
    counts 12, the loop goes on lowering the threshold, and the mask that
    is returned, two rounds later, has lost the second block. *)
Theorem get_initial_burrow_mask_label_weighted :
  let e := Examples.weighted_env in
  let frame := Examples.weighted_frame in
  exists ground_mask bm',
    @get_ground_mask Examples.bbox e = Ok ground_mask /\
    let gm := @eroded_ground_mask Examples.bbox e ground_mask in
    let bm := threshold_mask e frame gm (initial_color_thresh e) in
    (@label Examples.halves bm).2 = 2 /\
    region_size e (@label Examples.halves bm).1 1 = 4 /\
    region_size e (@label Examples.halves bm).1 2 = 6 /\
    (inject_Z 6 < 10 * area_min e)%Q /\
    pixel (@prune_far Examples.halves Examples.boxes e bm) 1 3 = 1%Z /\
    @largest_area Examples.halves e bm = Ok 12%Z /\
    (10 * area_min e < inject_Z 12)%Q /\
    @get_initial_burrow_mask Examples.bbox Examples.halves Examples.boxes
      3 e frame = Some (Ok bm') /\
    bm' = @prune_far Examples.halves Examples.boxes e
            (threshold_mask e frame gm (lowered (initial_color_thresh e) 2)) /\
    pixel bm' 1 3 = 0%Z.
Proof.
  cbv zeta. eexists. eexists. split; [reflexivity|].
  split; [vm_compute; reflexivity|].
  split; [vm_compute; reflexivity|].
  split; [vm_compute; reflexivity|].
  split; [vm_compute; reflexivity|].
  split; [vm_compute; reflexivity|].
  split; [vm_compute; reflexivity|].
  split; [vm_compute; reflexivity|].
  split; [vm_compute; reflexivity|].
  split; [vm_compute; reflexivity|].
  vm_compute. reflexivity.
Qed.

End VisionClaims.


Module MaskExtras.
Import RasterFacts Mask MaskFacts VisionFacts.

Lemma lowered_le (ct : Q) (r : nat) : (lowered ct r <= ct)%Q.
Proof.
  induction r as [|r IH]; [apply Qle_refl|].
  unfold lowered, Nat.iter in *. cbn [nat_rect].
  set (q := nat_rect _ _ _ r) in *. lra.
Qed.

Lemma pixel_threshold_mask (e : env) (frame gm : image) (ct : Q) y x :
  y < height e -> x < width e ->
  pixel (threshold_mask e frame gm ct) y x
  = if (pixel gm y x =? 0)%Z then 0%Z
    else if Qltb (inject_Z (pixel frame y x)) ct then 1%Z else 0%Z.
Proof.
  intros Hy Hx. unfold threshold_mask, assign_where.
  rewrite !pixel_mkimage by assumption. reflexivity.
Qed.

(** X1. The flicker test as the code makes it. Whenever
    [update_burrow_mask] returns, the cached raster holds the pixels that
    were flagged in this frame. When the flagged pixels number more than
    25.5 times the ground pixels (ten times their number exceeds 255 times
    the ground's), the burrow mask is returned exactly as it was; otherwise
    the update is made, and every pixel outside the ground region is
    cleared. *)
Theorem update_burrow_mask_skip_rule `{Rasterizer}
    (e : env) (bg : qimage) (frame : image) (m m' : masks) (gm : image) :
  get_ground_mask e = Ok gm ->
  update_burrow_mask e bg frame m = Ok m' ->
  cache_image_uint8 m' = change_mask e bg frame /\
  (255 * ground_region_size e gm < 10 * flagged_count e bg frame ->
   burrow_mask m' = burrow_mask m) /\
  (10 * flagged_count e bg frame <= 255 * ground_region_size e gm ->
   forall y x, y < height e -> x < width e ->
     pixel gm y x = 0%Z -> pixel (burrow_mask m') y x = 0%Z).
Proof.
  intros Hgm. unfold update_burrow_mask. rewrite Hgm. cbn [rbind].
  pose proof (too_much_change_iff e bg frame gm Hgm) as Hiff.
  destruct (too_much_change (change_mask e bg frame) gm) eqn:Ht;
    intros [= <-]; cbn [burrow_mask cache_image_uint8].
  - split; [reflexivity|]. split; [reflexivity|].
    intros Hle. exfalso. assert (Hlt := proj1 Hiff eq_refl). lia.
  - split; [reflexivity|]. split.
    + intros Hlt. apply Hiff in Hlt. discriminate.
    + intros _ y x Hy Hx Hout. unfold assign_where at 1.
      rewrite pixel_mkimage by assumption. cbv beta. rewrite Hout. reflexivity.
Qed.

Lemma update_burrow_mask_skip_rule_witness :
  exists m',
    @update_burrow_mask Examples.bbox Examples.flicker_env
      Examples.flicker_background Examples.flicker_frame Examples.flicker_masks
    = Ok m' /\
    cache_image_uint8 m'
    = change_mask Examples.flicker_env Examples.flicker_background
        Examples.flicker_frame.
Proof.
  eexists. split; [reflexivity|].
  exact (proj1 (@update_burrow_mask_skip_rule Examples.bbox Examples.flicker_env
                  Examples.flicker_background Examples.flicker_frame
                  Examples.flicker_masks _ _ eq_refl eq_refl)).
Defined.

(** X2. In a call of [update_burrow_mask] that is not aborted, a 0/1
    burrow mask comes out as a 0/1 mask, and every pixel of the ground
    region that is flagged in this frame and survives the opening is set
    in it. *)
Theorem update_burrow_mask_adds_excavated `{Rasterizer}
    (e : env) (bg : qimage) (frame : image) (m m' : masks) (gm : image) :
  get_ground_mask e = Ok gm ->
  too_much_change (change_mask e bg frame) gm = false ->
  update_burrow_mask e bg frame m = Ok m' ->
  binary (height e) (width e) (burrow_mask m) ->
  binary (height e) (width e) (burrow_mask m') /\
  forall y x, y < height e -> x < width e ->
    pixel (morph_open (height e) (width e) MORPH_ELLIPSE_3x3
             (change_mask e bg frame)) y x = 1%Z ->
    pixel gm y x <> 0%Z ->
    pixel (burrow_mask m') y x = 1%Z.
Proof.
  intros Hgm Hgo Hup Hbin.
  split; [eapply update_burrow_mask_binary; eassumption|].
  revert Hup. unfold update_burrow_mask. rewrite Hgm. cbn [rbind]. rewrite Hgo.
  intros [= <-] y x Hy Hx Hnew Hin. cbn [burrow_mask].
  unfold assign_where at 1. rewrite pixel_mkimage by assumption. cbv beta.
  destruct (pixel gm y x =? 0)%Z eqn:E; [apply Z.eqb_eq in E; contradiction|].
  set (bm1 := assign_where _ _ (burrow_mask m) _ 1%Z).
  assert (Hb1 : binary (height e) (width e) bm1)
    by (apply assign_where_binary; [exact Hbin|right; reflexivity]).
  assert (H1 : pixel bm1 y x = 1%Z).
  { unfold bm1, assign_where. rewrite pixel_mkimage by assumption.
    cbv beta. rewrite Hnew. reflexivity. }
  pose proof (morph_close_extensive (height e) (width e) MORPH_ELLIPSE_3x3
                bm1 y x cross_symmetric Hy Hx) as Hext.
  rewrite H1 in Hext.
  destruct (morph_close_binary (height e) (width e) MORPH_ELLIPSE_3x3 bm1
              cross_centre Hb1 y x Hy Hx) as [E0|E1]; [|exact E1].
  rewrite E0 in Hext. lia.
Qed.

Lemma update_burrow_mask_adds_excavated_witness :
  exists m',
    @update_burrow_mask Examples.bbox Examples.flicker_env
      Examples.flicker_background Examples.flicker_frame Examples.flicker_masks
    = Ok m' /\
    pixel (burrow_mask m') 2 2 = 1%Z.
Proof.
  eexists. split; [reflexivity|].
  refine (proj2 (@update_burrow_mask_adds_excavated Examples.bbox
                   Examples.flicker_env Examples.flicker_background
                   Examples.flicker_frame Examples.flicker_masks _ _
                   eq_refl eq_refl eq_refl _) 2 2 _ _ eq_refl _).
  - intros y x Hy Hx. unfold Examples.flicker_masks, zeros. cbn [burrow_mask].
    rewrite pixel_mkimage by assumption. left. reflexivity.
  - simpl. lia.
  - simpl. lia.
  - vm_compute. discriminate.
Defined.

(** X3. [get_burrow_chunks] only ever clears pixels of the mask; it
    returns at most one chunk per labelled region; and every chunk that it
    returns has more than two points. *)
Theorem get_burrow_chunks_only_clears `{Rasterizer} `{Labelling} `{Geometry}
    (e : env) (frame bm : image) :
  (forall y x, y < height e -> x < width e ->
     pixel (get_burrow_chunks e frame bm).2 y x = pixel bm y x \/
     pixel (get_burrow_chunks e frame bm).2 y x = 0%Z) /\
  length (get_burrow_chunks e frame bm).1 <= (label bm).2 /\
  forall c, c ∈ (get_burrow_chunks e frame bm).1 -> 2 < length c.
Proof.
  unfold get_burrow_chunks. destruct (label bm) as [labels n]. cbn [fst snd].
  destruct (chunk_loop_spec e frame labels (seq 1 n) [] bm) as [Hc Hm].
  split; [|split].
  - intros y x Hy Hx. rewrite (Hm y x Hy Hx).
    destruct (existsb _ _); [right|left]; reflexivity.
  - rewrite Hc. cbn [app]. rewrite length_map.
    etransitivity; [apply filter_length_le|]. rewrite length_seq. lia.
  - intros c Hin. rewrite Hc in Hin. cbn [app] in Hin.
    rewrite map_fmap in Hin. apply list_elem_of_fmap in Hin as (lbl & -> & Hl).
    apply list_elem_of_In, filter_In in Hl as [_ Hk].
    apply kept_spec in Hk. tauto.
Qed.

(** X4. The mask that [get_initial_burrow_mask] returns is a 0/1 raster,
    and every pixel set in it lies in the eroded ground mask and is darker
    in the frame than the first colour threshold. *)
Theorem initial_mask_dark_and_underground `{Rasterizer} `{Labelling} `{Geometry}
    (fuel : nat) (e : env) (frame ground_mask bm' : image) :
  get_ground_mask e = Ok ground_mask ->
  get_initial_burrow_mask fuel e frame = Some (Ok bm') ->
  forall y x, y < height e -> x < width e ->
    pixel bm' y x = 0%Z \/
    (pixel bm' y x = 1%Z /\
     pixel (eroded_ground_mask e ground_mask) y x <> 0%Z /\
     (inject_Z (pixel frame y x) < initial_color_thresh e)%Q).
Proof.
  intros Hgm. unfold get_initial_burrow_mask. rewrite Hgm.
  fold (eroded_ground_mask e ground_mask).
  destruct (threshold_loop fuel e frame (eroded_ground_mask e ground_mask)
              (initial_color_thresh e)) as [[bm|ex]|] eqn:Hloop;
    [|discriminate|discriminate].
  intros [= <-] y x Hy Hx.
  apply threshold_loop_spec in Hloop as (rounds & _ & -> & _ & _).
  unfold prune_far.
  destruct (label _) as [labels k].
  rewrite prune_loop_pixel by assumption.
  destruct (existsb _ _); [left; reflexivity|].
  rewrite pixel_threshold_mask by assumption.
  destruct (pixel (eroded_ground_mask e ground_mask) y x =? 0)%Z eqn:Eg;
    [left; reflexivity|].
  destruct (Qltb (inject_Z (pixel frame y x)) _) eqn:Et; [|left; reflexivity].
  right. split; [reflexivity|]. split.
  - intros E0. rewrite E0 in Eg. discriminate.
  - apply Qltb_lt in Et. eapply Qlt_le_trans; [exact Et|apply lowered_le].
Qed.

Lemma initial_mask_dark_and_underground_witness :
  exists bm',
    @get_initial_burrow_mask Examples.bbox Examples.one_region Examples.boxes
      1 Examples.block_env Examples.block_frame = Some (Ok bm') /\
    (pixel bm' 2 2 = 0%Z \/
     (pixel bm' 2 2 = 1%Z /\
      pixel (@eroded_ground_mask Examples.bbox Examples.block_env
               (mkimage 10 10 (fun _ _ => 255%Z))) 2 2 <> 0%Z /\
      (inject_Z (pixel Examples.block_frame 2 2)
       < initial_color_thresh Examples.block_env)%Q)).
Proof.
  eexists. split; [vm_compute; reflexivity|].
  apply (@initial_mask_dark_and_underground Examples.bbox Examples.one_region
           Examples.boxes 1 Examples.block_env Examples.block_frame
           (mkimage 10 10 (fun _ _ => 255%Z))).
  - vm_compute. reflexivity.
  - vm_compute. reflexivity.
  - simpl. lia.
  - simpl. lia.
Defined.

(** X23. The stopping rule of the first mask, as the code has it. The
    measure of a round is the greatest, over the regions of the round's
    mask, of the label of a region times its number of pixels. When the
    measure exceeded 10 times the minimum area in every round before
    round [rounds], the call needs more fuel than [rounds]; and with
    that fuel it ends in round [rounds] if the measure of that round is
    at most 10 times the minimum area, returning that round's mask with
    the far regions cleared, or if the mask of that round has no region,
    raising the [ValueError] of [max]. *)
Theorem initial_mask_stopping_rule `{Rasterizer} `{Labelling} `{Geometry}
    (e : env) (frame ground_mask : image) (rounds : nat) :
  get_ground_mask e = Ok ground_mask ->
  (forall r, r < rounds ->
     exists L,
       largest_area e
         (threshold_mask e frame (eroded_ground_mask e ground_mask)
            (lowered (initial_color_thresh e) r)) = Ok L /\
       (10 * area_min e < inject_Z L)%Q) ->
  let bm := threshold_mask e frame (eroded_ground_mask e ground_mask)
              (lowered (initial_color_thresh e) rounds) in
  largest_area e bm
  = max_areas (map (fun lbl => (Z.of_nat lbl
                                * Z.of_nat (region_size e (label bm).1 lbl))%Z)
                   (seq 1 (label bm).2)) /\
  (forall fuel, fuel <= rounds -> get_initial_burrow_mask fuel e frame = None) /\
  (forall L, largest_area e bm = Ok L -> (inject_Z L <= 10 * area_min e)%Q ->
     forall fuel, rounds < fuel ->
       get_initial_burrow_mask fuel e frame = Some (Ok (prune_far e bm))) /\
  ((label bm).2 = 0 ->
   forall fuel, rounds < fuel ->
     get_initial_burrow_mask fuel e frame = Some (Raise ValueError)).
Proof.
  intros Hgm Hbefore bm.
  set (gm := eroded_ground_mask e ground_mask) in *.
  destruct (threshold_loop_rounds e frame gm rounds (initial_color_thresh e))
    as [Hgo Hshort].
  { intros r Hr. destruct (Hbefore r Hr) as (L & HL & Hgt).
    exists L. split; [exact HL|]. apply Qltb_lt. exact Hgt. }
  assert (Hinit : forall fuel,
            get_initial_burrow_mask fuel e frame
            = match threshold_loop fuel e frame gm (initial_color_thresh e) with
              | None => None
              | Some (Raise ex) => Some (Raise ex)
              | Some (Ok m) => Some (Ok (prune_far e m))
              end).
  { intros fuel. unfold get_initial_burrow_mask. rewrite Hgm. reflexivity. }
  split; [|split; [|split]].
  - unfold largest_area. destruct (label bm) as [labels n]. cbn [fst snd].
    f_equal. apply map_ext. intros lbl. apply ndimage_sum_labels.
  - intros fuel Hf. rewrite Hinit, (Hshort fuel Hf). reflexivity.
  - intros L HL Hle fuel Hf. rewrite Hinit.
    replace fuel with (rounds + S (fuel - S rounds)) by lia.
    rewrite Hgo. cbn [threshold_loop]. fold bm. rewrite HL.
    apply Qltb_ge in Hle. unfold Qgtb. rewrite Hle. reflexivity.
  - intros Hn fuel Hf. rewrite Hinit.
    replace fuel with (rounds + S (fuel - S rounds)) by lia.
    rewrite Hgo. cbn [threshold_loop]. fold bm.
    unfold largest_area. destruct (label bm) as [labels n].
    cbn [snd] in Hn. subst n. reflexivity.
Qed.

Lemma initial_mask_stopping_rule_witness :
  @get_initial_burrow_mask Examples.bbox Examples.halves Examples.boxes
    3 Examples.weighted_env Examples.weighted_frame
  = Some (Ok (@prune_far Examples.halves Examples.boxes Examples.weighted_env
                (threshold_mask Examples.weighted_env Examples.weighted_frame
                   (@eroded_ground_mask Examples.bbox Examples.weighted_env
                      (mkimage 10 10 (fun _ _ => 255%Z)))
                   (lowered (initial_color_thresh Examples.weighted_env) 2)))).
Proof.
  refine (proj1 (proj2 (proj2
            (@initial_mask_stopping_rule Examples.bbox Examples.halves
               Examples.boxes Examples.weighted_env Examples.weighted_frame
               (mkimage 10 10 (fun _ _ => 255%Z)) 2 _ _))) 4%Z _ _ 3 _).
  - vm_compute. reflexivity.
  - intros r Hr. exists 12%Z.
    destruct r as [|[|r]]; [| |lia].
    + split; [vm_compute; reflexivity|vm_compute; reflexivity].
    + split; [vm_compute; reflexivity|vm_compute; reflexivity].
  - vm_compute. reflexivity.
  - vm_compute. discriminate.
  - lia.
Defined.

End MaskExtras.


Module ResolverOrder.
Import Resolver.

Lemma ereal_ltb_irrefl (a : ereal) : ereal_ltb a a = false.
Proof.
  destruct a as [q|]; [|reflexivity]. simpl.
  apply Qltb_ge. apply Qle_refl.
Qed.

Lemma ereal_ltb_trans (a b c : ereal) :
  ereal_ltb a b = true -> ereal_ltb b c = true -> ereal_ltb a c = true.
Proof.
  destruct a as [x|], b as [y|], c as [z|]; simpl; try congruence.
  rewrite !Qltb_lt. apply Qlt_trans.
Qed.

Lemma ereal_ltb_cotrans (a b c : ereal) :
  ereal_ltb a c = true -> ereal_ltb a b = true \/ ereal_ltb b c = true.
Proof.
  destruct a as [x|], b as [y|], c as [z|]; simpl; try congruence; auto.
  rewrite !Qltb_lt. intros Hxz.
  destruct (Qlt_le_dec x y) as [Hxy|Hyx]; [left; exact Hxy|right].
  eapply Qle_lt_trans; eassumption.
Qed.

Lemma ereal_ltb_asym (a b : ereal) :
  ereal_ltb a b = true -> ereal_ltb b a = false.
Proof.
  intros Hab. destruct (ereal_ltb b a) eqn:Hba; [|reflexivity].
  pose proof (ereal_ltb_trans _ _ _ Hab Hba) as Haa.
  rewrite ereal_ltb_irrefl in Haa. discriminate.
Qed.

(** The scan of [argmin]: either the best entry so far stays, or a later
    entry that is strictly less takes its place, the first of the least
    entries. *)
Lemma argmin_from_spec (l : list ereal) : forall best vbest i,
  (argmin_from best vbest i l = best /\
   forall j w, l !! j = Some w -> ereal_ltb w vbest = false) \/
  (exists j v,
     argmin_from best vbest i l = i + j /\ l !! j = Some v /\
     ereal_ltb v vbest = true /\
     (forall j' w, l !! j' = Some w -> ereal_ltb w v = false) /\
     (forall j' w, j' < j -> l !! j' = Some w -> ereal_ltb v w = true)).
Proof.
  induction l as [|x l IH]; intros best vbest i.
  - left. split; [reflexivity|]. intros j w Hj. discriminate.
  - cbn [argmin_from]. destruct (ereal_ltb x vbest) eqn:Hx.
    + right. destruct (IH i x (S i)) as [[Hm Hall]|(j & v & Hm & Hj & Hv & Hall & Hfirst)].
      * exists 0, x. rewrite Hm. split; [lia|]. split; [reflexivity|].
        split; [exact Hx|]. split.
        -- intros [|j'] w Hw; simpl in Hw.
           ++ injection Hw as <-. apply ereal_ltb_irrefl.
           ++ eapply Hall. exact Hw.
        -- intros j' w Hlt. lia.
      * exists (S j), v. rewrite Hm. split; [lia|]. split; [exact Hj|].
        split; [eapply ereal_ltb_trans; eassumption|]. split.
        -- intros [|j'] w Hw; simpl in Hw.
           ++ injection Hw as <-. apply ereal_ltb_asym. exact Hv.
           ++ eapply Hall. exact Hw.
        -- intros [|j'] w Hlt Hw; simpl in Hw.
           ++ injection Hw as <-. exact Hv.
           ++ eapply Hfirst; [|exact Hw]. lia.
    + destruct (IH best vbest (S i)) as [[Hm Hall]|(j & v & Hm & Hj & Hv & Hall & Hfirst)].
      * left. split; [exact Hm|].
        intros [|j'] w Hw; simpl in Hw.
        -- injection Hw as <-. exact Hx.
        -- eapply Hall. exact Hw.
      * right. exists (S j), v. rewrite Hm. split; [lia|]. split; [exact Hj|].
        split; [exact Hv|].
        assert (Hvx : ereal_ltb v x = true).
        { destruct (ereal_ltb_cotrans v x vbest Hv) as [Hvx|Hxv];
            [exact Hvx|congruence]. }
        split.
        -- intros [|j'] w Hw; simpl in Hw.
           ++ injection Hw as <-. apply ereal_ltb_asym. exact Hvx.
           ++ eapply Hall. exact Hw.
        -- intros [|j'] w Hlt Hw; simpl in Hw.
           ++ injection Hw as <-. exact Hvx.
           ++ eapply Hfirst; [|exact Hw]. lia.
Qed.

(** [argmin] returns the first index of a least entry. *)
Lemma argmin_spec (l : list ereal) (m : nat) :
  argmin l = Some m ->
  exists v,
    l !! m = Some v /\
    (forall j w, l !! j = Some w -> ereal_ltb w v = false) /\
    (forall j w, j < m -> l !! j = Some w -> ereal_ltb v w = true).
Proof.
  destruct l as [|x l]; [discriminate|]. cbn [argmin]. intros [= <-].
  destruct (argmin_from_spec l 0 x 1)
    as [[Hm Hall]|(j & v & Hm & Hj & Hv & Hall & Hfirst)]; rewrite Hm.
  - exists x. split; [reflexivity|]. split.
    + intros [|j] w Hw; simpl in Hw.
      * injection Hw as <-. apply ereal_ltb_irrefl.
      * eapply Hall. exact Hw.
    + intros j w Hlt. lia.
  - exists v. split; [exact Hj|]. split.
    + intros [|j'] w Hw; simpl in Hw.
      * injection Hw as <-. apply ereal_ltb_asym. exact Hv.
      * eapply Hall. exact Hw.
    + intros [|j'] w Hlt Hw; simpl in Hw.
      * injection Hw as <-. exact Hv.
      * eapply Hfirst; [|exact Hw]. lia.
Qed.

End ResolverOrder.


Module ResolverMore.
Import RasterFacts Mask MaskFacts Resolver ResolverFacts ResolverOrder Keeps.

Lemma filter_partition_perm (f : nat -> bool) (l : list nat) :
  List.filter f l ++ List.filter (fun x => negb (f x)) l ≡ₚ l.
Proof.
  induction l as [|x l IH]; [reflexivity|]. cbn [List.filter].
  destruct (f x); cbn [negb app].
  - constructor. exact IH.
  - rewrite <- Permutation_middle. constructor. exact IH.
Qed.

Lemma list_remove_first_perm k l r :
  list_remove_first k l = Ok r -> l ≡ₚ k :: r.
Proof.
  revert r. induction l as [|x l IH]; intros r; cbn [list_remove_first];
    [discriminate|].
  destruct (Nat.eqb_spec x k) as [->|Hne]; [intros [= <-]; reflexivity|].
  destruct (list_remove_first k l) as [r'|]; [|discriminate].
  intros [= <-]. rewrite (IH r' eq_refl). apply perm_swap.
Qed.

Lemma unique_based_on_id_length (l : list obj) :
  length (unique_based_on_id l) <= length l.
Proof.
  induction l as [|o l IH]; [reflexivity|]. cbn [unique_based_on_id length].
  pose proof (filter_length_le (fun o' => negb (oid o' =? oid o))
                (unique_based_on_id l)). lia.
Qed.

Lemma mask_grows_refl e bm : mask_grows e bm bm.
Proof. intros y x _ _. left. reflexivity. Qed.

Lemma mask_grows_trans e bm1 bm2 bm3 :
  mask_grows e bm1 bm2 -> mask_grows e bm2 bm3 -> mask_grows e bm1 bm3.
Proof.
  intros H12 H23 y x Hy Hx.
  destruct (H23 y x Hy Hx) as [E|E]; [|right; exact E].
  rewrite E. apply H12; assumption.
Qed.

Section WithGeometry.
Context `{Rasterizer} `{Geometry}.

Arguments ereal_ltb : simpl never.
Arguments Qgtb : simpl never.
Arguments Qltb : simpl never.
Arguments bridge_outline : simpl never.
Arguments merged_outline : simpl never.
Arguments paint : simpl never.

Ltac simpl_state :=
  cbn [burrow_chunks next_id connected disconnected burrow_mask
       append_connected append_disconnected rbind].

Lemma mask_grows_paint e bm outline : mask_grows e bm (paint e bm outline).
Proof.
  intros y x Hy Hx. rewrite pixel_paint by assumption.
  destruct (poly_covers _ x y); [right|left]; reflexivity.
Qed.

(** An entry of the flattened matrix of candidates. *)
Lemma candidate_lookup chunks st a b d c :
  disconnected st !! a = Some d -> connected st !! b = Some c ->
  candidate_dist chunks st !! (a * length (connected st) + b)
  = Some (burrow_dist chunks d c).
Proof.
  unfold candidate_dist. generalize (disconnected st) as ds.
  intros ds. revert a. induction ds as [|d0 ds IH]; intros a Ha Hb;
    [discriminate|].
  cbn [flat_map]. destruct a as [|a]; simpl in Ha.
  - injection Ha as ->. rewrite lookup_app_l.
    + simpl. rewrite map_fmap, list_lookup_fmap, Hb. reflexivity.
    + rewrite length_map. eapply lookup_lt_Some. exact Hb.
  - rewrite lookup_app_r by (rewrite length_map; simpl; lia).
    rewrite length_map.
    replace (S a * length (connected st) + b - length (connected st))
      with (a * length (connected st) + b) by (simpl; lia).
    apply IH; assumption.
Qed.

(** The first two phases leave the chunks divided between the two lists. *)
Lemma ground_phase_partitioned e chunks bm st :
  ground_phase e chunks bm = Ok st -> partitioned chunks st.
Proof.
  unfold ground_phase, partitioned.
  destruct (classify e chunks bm) as [st1|ex] eqn:Hst1; [|discriminate].
  apply classify_classified in Hst1.
  cbn [rbind]. destruct Hst1 as [Hlen Hnext Hconn Hdisc Hslot Hmask].
  assert (Hp : connected st1 ++ disconnected st1 ≡ₚ seq 0 (length chunks))
    by (rewrite Hconn, Hdisc; apply filter_partition_perm).
  unfold force_connection. destruct (connected st1) as [|k0 conn] eqn:Econn.
  - destruct (argmin (map Finite (ground_dist e chunks))) as [k|]; [|discriminate].
    unfold bridge_to_ground. destruct (burrow_chunks st1 !! k); [|discriminate].
    unfold connect_burrow_to_structure.
    destruct (bridge_outline e (outline_of o) (ground_line e)) as [outline|ex];
      [|discriminate].
    simpl_state.
    destruct (list_remove_first k (disconnected st1)) as [r|] eqn:Hr;
      [|discriminate].
    simpl_state. intros [= <-]. simpl_state. rewrite Econn. cbn [app] in *.
    rewrite <- Hp. symmetry. apply list_remove_first_perm. exact Hr.
  - intros [= <-]. rewrite Econn. exact Hp.
Qed.

Lemma merge_step_partitioned e chunks st st' :
  merge_step e chunks st = Ok st' ->
  partitioned chunks st -> partitioned chunks st'.
Proof.
  intros Hstep Hp.
  destruct (merge_step_removes e chunks st st' Hstep)
    as (k1 & c1 & Hk & Hdel & Hcon & _ & _).
  unfold partitioned in *. rewrite Hcon, Hdel, <- Hp, <- app_assoc.
  apply Permutation_app_head. cbn [app]. symmetry.
  apply delete_Permutation. exact Hk.
Qed.

(** A round of the loop only paints. *)
Lemma merge_step_grows e chunks st st' :
  merge_step e chunks st = Ok st' ->
  mask_grows e (burrow_mask st) (burrow_mask st').
Proof.
  unfold merge_step.
  destruct (argmin (candidate_dist chunks st)) as [i|]; [|discriminate].
  destruct (disconnected st !! _) as [c1|]; [|discriminate].
  destruct (connected st !! _) as [c2|]; [|discriminate].
  destruct (burrow_chunks st !! c1) as [o1|]; [|discriminate].
  destruct (burrow_chunks st !! c2) as [o2|]; [|discriminate].
  unfold connect_burrow_to_structure.
  destruct (bridge_outline e (outline_of o1) (LinearRing (outline_of o2)))
    as [enlarged|ex]; cbn [rbind]; [|discriminate].
  destruct (_ !! c2) as [bc2|]; [|discriminate].
  intros [= <-]. simpl_state. apply mask_grows_paint.
Qed.

(** Whatever the fuel, a loop that returns has emptied [disconnected] and
    kept what held at its start. *)
Lemma merge_loop_keeps e chunks : forall fuel st st',
  linked e chunks st -> partitioned chunks st ->
  merge_loop fuel e chunks st = Some (Ok st') ->
  linked e chunks st' /\ partitioned chunks st' /\ disconnected st' = [] /\
  mask_grows e (burrow_mask st) (burrow_mask st').
Proof.
  induction fuel as [|fuel IH]; intros st st' Hl Hp Hloop.
  - cbn [merge_loop] in Hloop. destruct (disconnected st) eqn:E; [|discriminate].
    injection Hloop as <-. split; [exact Hl|]. split; [exact Hp|].
    split; [exact E|apply mask_grows_refl].
  - cbn [merge_loop] in Hloop. destruct (disconnected st) as [|d ds] eqn:E.
    + injection Hloop as <-. split; [exact Hl|]. split; [exact Hp|].
      split; [exact E|apply mask_grows_refl].
    + destruct (merge_step e chunks st) as [st1|ex] eqn:Hs; [|discriminate].
      pose proof (merge_step_linked e chunks st st1 Hl Hs) as Hl1.
      pose proof (merge_step_partitioned e chunks st st1 Hs Hp) as Hp1.
      destruct (IH st1 st' Hl1 Hp1 Hloop) as (Hl' & Hp' & Hnil & Hg).
      split; [exact Hl'|]. split; [exact Hp'|]. split; [exact Hnil|].
      eapply mask_grows_trans; [|exact Hg].
      eapply merge_step_grows. exact Hs.
Qed.

(** The first loop only paints. *)
Lemma classify_upto_grows e chunks bm k st :
  classify_upto e chunks bm k = Ok st -> mask_grows e bm (burrow_mask st).
Proof.
  revert st. induction k as [|k IH]; intros st.
  - intros [= <-]. apply mask_grows_refl.
  - rewrite classify_upto_S.
    destruct (classify_upto e chunks bm k) as [st0|ex]; [|discriminate].
    specialize (IH st0 eq_refl). unfold classify_step. cbn [rbind].
    destruct (ground_dist e chunks !! k) as [gk|]; [|discriminate].
    destruct (ereal_ltb (Finite gk) (row_min chunks k)).
    + destruct (Qgtb gk 1).
      * unfold bridge_to_ground.
        destruct (burrow_chunks st0 !! k) as [o|]; [|discriminate].
        unfold connect_burrow_to_structure.
        destruct (bridge_outline e (outline_of o) (ground_line e))
          as [outline|ex]; [|discriminate].
        simpl_state. intros [= <-]. simpl_state.
        eapply mask_grows_trans; [exact IH|apply mask_grows_paint].
      * simpl_state. intros [= <-]. exact IH.
    + intros [= <-]. exact IH.
Qed.

Lemma ground_phase_grows e chunks bm st :
  ground_phase e chunks bm = Ok st -> mask_grows e bm (burrow_mask st).
Proof.
  unfold ground_phase, classify.
  destruct (classify_upto e chunks bm (length chunks)) as [st1|ex] eqn:Hc;
    [|discriminate].
  apply classify_upto_grows in Hc. cbn [rbind]. unfold force_connection.
  destruct (connected st1).
  - destruct (argmin _) as [k|]; [|discriminate].
    unfold bridge_to_ground.
    destruct (burrow_chunks st1 !! k) as [o|]; [|discriminate].
    unfold connect_burrow_to_structure.
    destruct (bridge_outline e (outline_of o) (ground_line e))
      as [outline|ex]; [|discriminate].
    simpl_state.
    destruct (list_remove_first k (disconnected st1)); [|discriminate].
    simpl_state. intros [= <-]. simpl_state.
    eapply mask_grows_trans; [exact Hc|apply mask_grows_paint].
  - intros [= <-]. exact Hc.
Qed.

(** What a call that returns leaves behind. *)
Lemma resolve_keeps e chunks bm fuel st :
  chunks <> [] ->
  resolve fuel e chunks bm = Some (Ok st) ->
  linked e chunks st /\ partitioned chunks st /\ disconnected st = [] /\
  mask_grows e bm (burrow_mask st).
Proof.
  intros Hne. unfold resolve.
  destruct (ground_phase e chunks bm) as [st0|ex] eqn:Hphase; [|discriminate].
  destruct (ground_phase_linked e chunks bm st0 Hne Hphase) as [Hl0 _].
  intros Hloop.
  pose proof (ground_phase_partitioned _ _ _ _ Hphase) as Hp0.
  pose proof (ground_phase_grows _ _ _ _ Hphase) as Hg0.
  destruct (merge_loop_keeps e chunks fuel st0 st Hl0 Hp0 Hloop)
    as (Hl & Hp & Hnil & Hg).
  split; [exact Hl|]. split; [exact Hp|]. split; [exact Hnil|].
  eapply mask_grows_trans; eassumption.
Qed.

End WithGeometry.
End ResolverMore.


Module ResolverExtras.
Import RasterFacts Mask MaskFacts Resolver ResolverFacts ResolverOrder Keeps
       ResolverMore.

(** X5. The assertion after the first two phases of
    [connect_burrow_chunks] never fails, and more holds: [connected] and
    [disconnected] together list every chunk index exactly once. When the
    call returns, [connected] alone lists every chunk index exactly once:
    no chunk is connected twice and none is left out. *)
Theorem chunks_connected_once `{Rasterizer} `{Geometry}
    (e : env) (chunks : list polyline) (bm : image) (fuel : nat) (st : state) :
  chunks <> [] ->
  resolve fuel e chunks bm = Some (Ok st) ->
  (exists st0, ground_phase e chunks bm = Ok st0 /\
               connected st0 ++ disconnected st0 ≡ₚ seq 0 (length chunks)) /\
  connected st ≡ₚ seq 0 (length chunks) /\
  NoDup (connected st).
Proof.
  intros Hne Hres.
  destruct (resolve_keeps e chunks bm fuel st Hne Hres) as (_ & Hp & Hnil & _).
  unfold partitioned in Hp. rewrite Hnil, app_nil_r in Hp.
  split; [|split; [exact Hp|]].
  - unfold resolve in Hres.
    destruct (ground_phase e chunks bm) as [st0|ex] eqn:Hphase; [|discriminate].
    exists st0. split; [reflexivity|].
    eapply ground_phase_partitioned. exact Hphase.
  - rewrite Hp. apply NoDup_ListNoDup, List.seq_NoDup.
Qed.

Lemma chunks_connected_once_witness :
  exists st,
    @resolve Examples.bbox Examples.boxes 3 Examples.field_env
      [Examples.chunk_top; Examples.chunk_mid; Examples.chunk_deep]
      (zeros 10 10) = Some (Ok st) /\
    connected st ≡ₚ seq 0 3.
Proof.
  eexists. split; [vm_compute; reflexivity|].
  refine (proj1 (proj2 (@chunks_connected_once Examples.bbox Examples.boxes
            Examples.field_env
            [Examples.chunk_top; Examples.chunk_mid; Examples.chunk_deep]
            (zeros 10 10) 3 _ _ _))).
  - discriminate.
  - vm_compute. reflexivity.
Defined.

(** X6. When no chunk is closer to the ground than to every other chunk,
    the first loop bridges nothing, and the chunk that is then forced to
    connect is the one with the least distance to the ground line, the
    first of them on a tie. What its bridging to the ground line raises,
    the call raises; when the bridging returns, the bridged outline is
    put in the chunk's slot and painted into the mask, the chunk alone
    is in [connected], and all the other chunks, but not this one, are
    in [disconnected]. *)
Theorem forced_chunk_is_nearest `{Rasterizer} `{Geometry}
    (e : env) (chunks : list polyline) (bm : image) :
  chunks <> [] ->
  (forall k, k < length chunks -> closest_to_ground e chunks k = false) ->
  exists k c gk,
    chunks !! k = Some c /\
    ground_dist e chunks !! k = Some gk /\
    (forall j gj, ground_dist e chunks !! j = Some gj ->
       (gk <= gj)%Q /\ (j < k -> (gk < gj)%Q)) /\
    (forall ex, bridge_outline e c (ground_line e) = Raise ex ->
       ground_phase e chunks bm = Raise ex) /\
    (forall bridged, bridge_outline e c (ground_line e) = Ok bridged ->
       exists st o,
         ground_phase e chunks bm = Ok st /\
         connected st = [k] /\
         burrow_chunks st !! k = Some o /\
         outline_of o = bridged /\
         painted e (burrow_mask st) bridged /\
         (forall j, j < length chunks -> j <> k -> j ∈ disconnected st) /\
         ~ k ∈ disconnected st).
Proof.
  intros Hne Hnone.
  assert (Hnb : forall j cj, chunks !! j = Some cj ->
            bridged_directly e chunks j = false).
  { intros j cj Hj. unfold bridged_directly.
    rewrite Hnone by (eapply lookup_lt_Some; exact Hj). reflexivity. }
  destruct (classify e chunks bm) as [st1|ex1] eqn:Hst1.
  2:{ apply classify_raise in Hst1 as (j & cj & Hj & Hb & _).
      rewrite (Hnb j cj Hj) in Hb. discriminate. }
  pose proof (classify_classified e chunks bm st1 Hst1) as Hcl.
  assert (Hempty : connected st1 = []).
  { destruct Hcl as [_ _ Hconn _ _ _].
    destruct (connected st1) as [|x l] eqn:E; [reflexivity|exfalso].
    assert (Hx : x ∈ x :: l) by left. rewrite Hconn in Hx.
    apply list_elem_of_In, filter_In in Hx as [Hx Hc]. apply in_seq in Hx.
    rewrite Hnone in Hc by lia. discriminate. }
  destruct (force_connection_spec e chunks bm st1 Hne Hcl Hempty)
    as (k & o1 & r & Hk & Hklt & Ho1 & Hr & Hraise & Hok).
  destruct Hcl as [Hlen Hnext Hconn Hdisc Hslot Hmask].
  destruct (argmin_spec _ _ Hk) as (v & Hv & Hleast & Hfirst).
  destruct (lookup_lt_is_Some_2 chunks k Hklt) as [c Hc].
  pose proof (ground_dist_lookup e chunks k c Hc) as Hgk.
  set (gk := distance (ground_line e) (LinearRing c)) in *.
  rewrite map_fmap, list_lookup_fmap, Hgk in Hv. injection Hv as <-.
  destruct (Hslot k c Hc) as (o1' & Ho1' & Hslot1).
  assert (o1' = o1) as -> by congruence.
  rewrite (Hnb k c Hc), andb_false_r in Hslot1. subst o1.
  cbn [outline_of] in Hraise, Hok.
  assert (Hphase : ground_phase e chunks bm = force_connection e chunks st1)
    by (unfold ground_phase; rewrite Hst1; reflexivity).
  exists k, c, gk.
  split; [exact Hc|]. split; [exact Hgk|].
  split.
  { intros j gj Hj.
    assert (Hj' : map Finite (ground_dist e chunks) !! j = Some (Finite gj))
      by (rewrite map_fmap, list_lookup_fmap, Hj; reflexivity).
    split.
    - apply Qltb_ge. exact (Hleast j _ Hj').
    - intros Hlt. apply Qltb_lt. exact (Hfirst j _ Hlt Hj'). }
  split.
  { intros ex Hbr. rewrite Hphase. apply Hraise. exact Hbr. }
  intros bridged Hbr. specialize (Hok bridged Hbr).
  rewrite <- Hphase in Hok.
  pose proof (ground_phase_partitioned _ _ _ _ Hok) as Hp.
  unfold partitioned in Hp. cbn [connected disconnected app] in Hp.
  assert (Hnd : NoDup (k :: r))
    by (rewrite Hp; apply NoDup_ListNoDup, List.seq_NoDup).
  eexists. eexists. split; [exact Hok|].
  cbn [connected burrow_chunks burrow_mask disconnected].
  split; [reflexivity|]. split.
  { apply list_lookup_insert_eq. lia. }
  split; [reflexivity|]. split.
  { intros y x Hy Hx Hcov.
    rewrite pixel_paint by assumption. rewrite Hcov. reflexivity. }
  split.
  - intros j Hj Hjk.
    assert (Hin : j ∈ k :: r) by (rewrite Hp; apply elem_of_seq; lia).
    apply elem_of_cons in Hin as [->|Hin]; [congruence|exact Hin].
  - apply NoDup_cons in Hnd as [Hnotin _]. exact Hnotin.
Qed.

Lemma forced_chunk_is_nearest_witness :
  exists k c gk,
    [Examples.chunk_mid; Examples.chunk_deep] !! k = Some c /\
    @ground_dist Examples.boxes Examples.field_env
      [Examples.chunk_mid; Examples.chunk_deep] !! k = Some gk /\
    forall j gj,
      @ground_dist Examples.boxes Examples.field_env
        [Examples.chunk_mid; Examples.chunk_deep] !! j = Some gj ->
      (gk <= gj)%Q /\ (j < k -> (gk < gj)%Q).
Proof.
  destruct (@forced_chunk_is_nearest Examples.bbox Examples.boxes
              Examples.field_env [Examples.chunk_mid; Examples.chunk_deep]
              (zeros 10 10))
    as (k & c & gk & Hc & Hgk & Hleast & _).
  - discriminate.
  - intros k Hk. simpl in Hk.
    destruct k as [|[|k]]; [reflexivity|reflexivity|lia].
  - exists k, c, gk. split; [exact Hc|]. split; [exact Hgk|exact Hleast].
Defined.

(** X7. In a state that the loop [while disconnected] can be in, a round
    takes the pair of a disconnected and a connected chunk that is least
    distant, by the distances of the chunks as they came in: no other
    pair of the two lists is closer, and every pair that comes before
    it, row by row, is strictly farther. What the bridging of the
    disconnected chunk to the outline of the connected one raises, the
    round raises; when the bridging returns, the round returns, the
    bridge is painted into the mask, and the disconnected chunk of the
    pair goes to the end of [connected]. *)
Theorem merge_takes_nearest_pair `{Rasterizer} `{Geometry}
    (e : env) (chunks : list polyline) (st : state) :
  linked e chunks st ->
  disconnected st <> [] ->
  exists k1 k2 c1 c2 o1 o2,
    disconnected st !! k1 = Some c1 /\
    connected st !! k2 = Some c2 /\
    burrow_chunks st !! c1 = Some o1 /\
    burrow_chunks st !! c2 = Some o2 /\
    (forall a b d c,
       disconnected st !! a = Some d -> connected st !! b = Some c ->
       ereal_ltb (burrow_dist chunks d c) (burrow_dist chunks c1 c2) = false /\
       (a < k1 \/ (a = k1 /\ b < k2) ->
        ereal_ltb (burrow_dist chunks c1 c2) (burrow_dist chunks d c) = true)) /\
    (forall ex,
       bridge_outline e (outline_of o1) (LinearRing (outline_of o2)) = Raise ex ->
       merge_step e chunks st = Raise ex) /\
    (forall enlarged_chunk,
       bridge_outline e (outline_of o1) (LinearRing (outline_of o2))
       = Ok enlarged_chunk ->
       exists st',
         merge_step e chunks st = Ok st' /\
         connected st' = connected st ++ [c1] /\
         disconnected st' = delete k1 (disconnected st) /\
         burrow_mask st' = paint e (burrow_mask st) enlarged_chunk).
Proof.
  intros Hl Hd.
  destruct (merge_step_choice e chunks st Hl Hd)
    as (i & c1 & c2 & o1 & o2 & Hi & Hk1 & Hk2 & Hc1 & Hc2 & Ho1 & Ho2
        & Hraise & Hok).
  cbv zeta in *. set (n := length (connected st)) in *.
  exists (i / n), (i mod n), c1, c2, o1, o2.
  split; [exact Hc1|]. split; [exact Hc2|].
  split; [exact Ho1|]. split; [exact Ho2|].
  split; [|split; [exact Hraise|]].
  - destruct (argmin_spec _ _ Hi) as (v & Hv & Hleast & Hfirst).
    assert (Hn : n <> 0) by lia.
    pose proof (candidate_lookup chunks st (i / n) (i mod n) c1 c2 Hc1 Hc2) as Hat.
    fold n in Hat.
    replace (i / n * n + i mod n) with i in Hat
      by (rewrite (Nat.div_mod i n Hn) at 1; lia).
    rewrite Hat in Hv. injection Hv as <-.
    intros a b d c Ha Hb.
    pose proof (candidate_lookup chunks st a b d c Ha Hb) as Hab. fold n in Hab.
    split; [exact (Hleast _ _ Hab)|].
    intros Hbefore. apply (Hfirst (a * n + b)); [|exact Hab].
    assert (Hblt : b < n) by (eapply lookup_lt_Some; exact Hb).
    rewrite (Nat.div_mod i n Hn) at 1.
    destruct Hbefore as [Hlt|[-> Hlt]]; nia.
  - intros enlarged Hbr. destruct (Hok enlarged Hbr) as (bc2 & _ & Hstep).
    eexists. split; [exact Hstep|]. cbn [connected disconnected burrow_mask].
    split; [reflexivity|]. split; reflexivity.
Qed.

Lemma merge_takes_nearest_pair_witness :
  exists st0 k1 k2 c1 c2,
    @ground_phase Examples.bbox Examples.boxes Examples.field_env
      [Examples.chunk_top; Examples.chunk_mid; Examples.chunk_deep]
      (zeros 10 10) = Ok st0 /\
    disconnected st0 !! k1 = Some c1 /\
    connected st0 !! k2 = Some c2.
Proof.
  assert (Hst : exists st0,
            @ground_phase Examples.bbox Examples.boxes Examples.field_env
              [Examples.chunk_top; Examples.chunk_mid; Examples.chunk_deep]
              (zeros 10 10) = Ok st0) by (eexists; vm_compute; reflexivity).
  destruct Hst as [st0 Hphase].
  destruct (@ground_phase_linked Examples.bbox Examples.boxes Examples.field_env
              [Examples.chunk_top; Examples.chunk_mid; Examples.chunk_deep]
              (zeros 10 10) st0 ltac:(discriminate) Hphase) as [Hl _].
  destruct (@merge_takes_nearest_pair Examples.bbox Examples.boxes
              Examples.field_env
              [Examples.chunk_top; Examples.chunk_mid; Examples.chunk_deep]
              st0 Hl) as (k1 & k2 & c1 & c2 & _ & _ & Hc1 & Hc2 & _).
  - assert (Hc := Hphase). vm_compute in Hc. injection Hc as <-. discriminate.
  - exists st0, k1, k2, c1, c2. split; [exact Hphase|]. split; assumption.
Defined.

(** X8. A merge replaces objects, not slots: after a round of the loop
    that returns, the slot of the merged chunk and every slot that held
    the same object as the chunk it was merged into hold one and the
    same new object, and every slot that held another object holds it
    still. The two chunks of the round are never the same chunk. *)
Theorem merge_updates_all_aliases `{Rasterizer} `{Geometry}
    (e : env) (chunks : list polyline) (st st' : state) :
  linked e chunks st ->
  partitioned chunks st ->
  merge_step e chunks st = Ok st' ->
  exists c1 c2 o2 merged,
    c1 ∈ disconnected st /\ c2 ∈ connected st /\ c1 <> c2 /\
    burrow_chunks st !! c2 = Some o2 /\
    oid merged = next_id st /\
    length (burrow_chunks st') = length (burrow_chunks st) /\
    forall k o, burrow_chunks st !! k = Some o ->
      burrow_chunks st' !! k
      = Some (if (k =? c1) || (oid o =? oid o2) then merged else o).
Proof.
  intros Hl Hp Hstep.
  assert (Hd : disconnected st <> []).
  { apply merge_step_removes in Hstep as (k1 & c1 & Hc1 & _).
    intros E. rewrite E in Hc1. discriminate. }
  destruct (merge_step_choice e chunks st Hl Hd)
    as (i & c1 & c2 & o1 & o2 & _ & _ & _ & Hc1 & Hc2 & Ho1 & Ho2 & Hraise & Hok).
  cbv zeta in *.
  destruct (bridge_outline e (outline_of o1) (LinearRing (outline_of o2)))
    as [enlarged|ex] eqn:Hbr.
  2:{ rewrite (Hraise ex eq_refl) in Hstep. discriminate. }
  destruct (Hok enlarged eq_refl) as (bc2 & Hbc2 & Heq).
  rewrite Heq in Hstep. injection Hstep as <-.
  set (merged := {| oid := next_id st; outline_of := _ |}) in *.
  assert (Hin1 : c1 ∈ disconnected st) by (eapply list_elem_of_lookup_2; eassumption).
  assert (Hin2 : c2 ∈ connected st) by (eapply list_elem_of_lookup_2; eassumption).
  assert (Hne : c1 <> c2).
  { intros ->. unfold partitioned in Hp.
    assert (Hnd : NoDup (connected st ++ disconnected st))
      by (rewrite Hp; apply NoDup_ListNoDup, List.seq_NoDup).
    apply NoDup_app in Hnd as (_ & Hdisj & _). exact (Hdisj c2 Hin2 Hin1). }
  rewrite list_lookup_insert_ne in Hbc2 by exact Hne.
  assert (bc2 = o2) as -> by congruence.
  exists c1, c2, o2, merged.
  split; [exact Hin1|]. split; [exact Hin2|].
  split; [exact Hne|]. split; [exact Ho2|]. split; [reflexivity|].
  cbn [burrow_chunks]. split; [rewrite length_map, length_insert; reflexivity|].
  intros k o Hk. rewrite map_fmap, list_lookup_fmap.
  destruct (Nat.eqb_spec k c1) as [->|Hkc].
  - rewrite list_lookup_insert_eq by (eapply lookup_lt_Some; eassumption).
    cbn [fmap option_fmap option_map orb].
    destruct (oid merged =? oid o2); reflexivity.
  - rewrite list_lookup_insert_ne by congruence. rewrite Hk.
    cbn [fmap option_fmap option_map orb]. reflexivity.
Qed.

Lemma merge_updates_all_aliases_witness :
  exists st0 st',
    @ground_phase Examples.bbox Examples.boxes Examples.field_env
      [Examples.chunk_top; Examples.chunk_mid; Examples.chunk_deep]
      (zeros 10 10) = Ok st0 /\
    @merge_step Examples.bbox Examples.boxes Examples.field_env
      [Examples.chunk_top; Examples.chunk_mid; Examples.chunk_deep] st0
    = Ok st' /\
    length (burrow_chunks st') = length (burrow_chunks st0).
Proof.
  assert (Hst : exists st0 st',
            @ground_phase Examples.bbox Examples.boxes Examples.field_env
              [Examples.chunk_top; Examples.chunk_mid; Examples.chunk_deep]
              (zeros 10 10) = Ok st0 /\
            @merge_step Examples.bbox Examples.boxes Examples.field_env
              [Examples.chunk_top; Examples.chunk_mid; Examples.chunk_deep] st0
            = Ok st').
  { eexists. eexists. split.
    - vm_compute. reflexivity.
    - vm_compute. reflexivity. }
  destruct Hst as (st0 & st' & Hphase & Hstep).
  destruct (@ground_phase_linked Examples.bbox Examples.boxes Examples.field_env
              [Examples.chunk_top; Examples.chunk_mid; Examples.chunk_deep]
              (zeros 10 10) st0 ltac:(discriminate) Hphase) as [Hl _].
  destruct (@merge_updates_all_aliases Examples.bbox Examples.boxes
              Examples.field_env
              [Examples.chunk_top; Examples.chunk_mid; Examples.chunk_deep]
              st0 st' Hl) as (_ & _ & _ & _ & _ & _ & _ & _ & _ & Hlen & _).
  - eapply ground_phase_partitioned. exact Hphase.
  - exact Hstep.
  - exists st0, st'. split; [exact Hphase|]. split; [exact Hstep|exact Hlen].
Defined.

(** X9. For a non-empty list of chunks, a call of [connect_burrow_chunks]
    that returns gives at least one burrow and at most as many burrows as
    there were chunks. *)
Theorem burrow_count_bounds `{Rasterizer} `{Geometry}
    (e : env) (chunks : list polyline) (bm bm' : image) (fuel : nat)
    (burrows : list Burrow) :
  chunks <> [] ->
  connect_burrow_chunks fuel e chunks bm = Some (Ok (burrows, bm')) ->
  1 <= length burrows <= length chunks.
Proof.
  intros Hne. unfold connect_burrow_chunks.
  destruct chunks as [|c0 chunks']; [congruence|].
  destruct (resolve fuel e (c0 :: chunks') bm) as [[st|ex]|] eqn:Hres;
    [|discriminate|discriminate].
  intros [= <- _].
  destruct (resolve_keeps e (c0 :: chunks') bm fuel st Hne Hres)
    as ([Hlen _ _ _ _ _] & _).
  rewrite length_map. split.
  - destruct (burrow_chunks st) as [|o l]; [discriminate Hlen|].
    cbn [unique_based_on_id length]. lia.
  - rewrite <- Hlen. apply unique_based_on_id_length.
Qed.

Lemma burrow_count_bounds_witness :
  exists burrows bm',
    @connect_burrow_chunks Examples.bbox Examples.boxes 3 Examples.field_env
      [Examples.chunk_top; Examples.chunk_mid; Examples.chunk_deep]
      (zeros 10 10) = Some (Ok (burrows, bm')) /\
    1 <= length burrows <= 3.
Proof.
  eexists. eexists. split; [vm_compute; reflexivity|].
  refine (@burrow_count_bounds Examples.bbox Examples.boxes Examples.field_env
            [Examples.chunk_top; Examples.chunk_mid; Examples.chunk_deep]
            (zeros 10 10) _ 3 _ _ _).
  - discriminate.
  - vm_compute. reflexivity.
Defined.

(** X10. [connect_burrow_chunks] only paints: whenever it returns, every
    pixel of the mask is as it was or has been set to 1; no pixel is ever
    cleared. *)
Theorem connect_only_paints `{Rasterizer} `{Geometry}
    (e : env) (chunks : list polyline) (bm bm' : image) (fuel : nat)
    (burrows : list Burrow) :
  connect_burrow_chunks fuel e chunks bm = Some (Ok (burrows, bm')) ->
  mask_grows e bm bm'.
Proof.
  unfold connect_burrow_chunks.
  destruct chunks as [|c0 chunks'].
  - intros [= _ <-]. apply mask_grows_refl.
  - destruct (resolve fuel e (c0 :: chunks') bm) as [[st|ex]|] eqn:Hres;
      [|discriminate|discriminate].
    intros [= _ <-].
    eapply (resolve_keeps e (c0 :: chunks') bm fuel st); [discriminate|exact Hres].
Qed.

Lemma connect_only_paints_witness :
  exists burrows bm',
    @connect_burrow_chunks Examples.bbox Examples.boxes 3 Examples.field_env
      [Examples.chunk_top; Examples.chunk_mid; Examples.chunk_deep]
      (zeros 10 10) = Some (Ok (burrows, bm')) /\
    mask_grows Examples.field_env (zeros 10 10) bm'.
Proof.
  eexists. eexists. split; [vm_compute; reflexivity|].
  refine (@connect_only_paints Examples.bbox Examples.boxes Examples.field_env
            [Examples.chunk_top; Examples.chunk_mid; Examples.chunk_deep]
            (zeros 10 10) _ 3 _ _).
  vm_compute. reflexivity.
Defined.

(** X11. A lone chunk. The merge loop has nothing to do, whatever the
    fuel. A chunk within one pixel of the ground line is returned as it
    came, as one burrow, and the mask is not touched. A chunk farther
    than one pixel is bridged to the ground line: what the bridging
    raises, the call raises, and otherwise the bridged outline is the
    one burrow and is painted into the mask. So the call returns exactly
    when the chunk is within one pixel of the ground line or has two
    exit points. *)
Theorem lone_chunk `{Rasterizer} `{Geometry}
    (e : env) (c : polyline) (bm : image) (fuel : nat) :
  connect_burrow_chunks fuel e [c] bm
  = Some (if Qgtb (distance (ground_line e) (LinearRing c)) 1
          then match bridge_outline e c (ground_line e) with
               | Ok bridged =>
                   Ok ([{| outline := regularize_contour_points bridged |}],
                       paint e bm bridged)
               | Raise ex => Raise ex
               end
          else Ok ([{| outline := regularize_contour_points c |}], bm)) /\
  ((exists burrows bm',
      connect_burrow_chunks fuel e [c] bm = Some (Ok (burrows, bm'))) <->
   Qgtb (distance (ground_line e) (LinearRing c)) 1 = false \/
   2 <= length (exit_points e c (ground_line e))).
Proof.
  assert (Heq : connect_burrow_chunks fuel e [c] bm
    = Some (if Qgtb (distance (ground_line e) (LinearRing c)) 1
            then match bridge_outline e c (ground_line e) with
                 | Ok bridged =>
                     Ok ([{| outline := regularize_contour_points bridged |}],
                         paint e bm bridged)
                 | Raise ex => Raise ex
                 end
            else Ok ([{| outline := regularize_contour_points c |}], bm))).
  { unfold connect_burrow_chunks, resolve, ground_phase, classify, classify_upto.
    cbn [length seq foldl]. unfold classify_step at 1. cbn [rbind].
    rewrite (ground_dist_lookup e [c] 0 c eq_refl).
    assert (Hrow : row_min [c] 0 = Infinity) by reflexivity.
    rewrite Hrow. cbn [ereal_ltb].
    destruct (Qgtb (distance (ground_line e) (LinearRing c)) 1).
    - unfold bridge_to_ground, connect_burrow_to_structure.
      cbn [initial_state imap burrow_chunks lookup list_lookup outline_of].
      destruct (bridge_outline e c (ground_line e)) as [bridged|ex];
        cbn [rbind]; [|reflexivity].
      destruct fuel; reflexivity.
    - destruct fuel; reflexivity. }
  split; [exact Heq|]. rewrite Heq.
  destruct (Qgtb (distance (ground_line e) (LinearRing c)) 1).
  - split.
    + intros (burrows & bm' & Hret). right.
      destruct (bridge_outline e c (ground_line e)) as [bridged|ex] eqn:Hbr;
        [|discriminate].
      destruct (le_lt_dec 2 (length (exit_points e c (ground_line e))))
        as [Hle|Hlt]; [exact Hle|exfalso].
      revert Hbr. unfold bridge_outline, cluster_exit_points.
      destruct (exit_points e c (ground_line e)) as [|p [|q l]];
        cbn [rbind length] in *; [discriminate|discriminate|lia].
    + intros [Hf|Hle]; [discriminate|].
      destruct (bridge_outline_Ok e c (ground_line e) Hle) as [bridged ->].
      eexists. eexists. reflexivity.
  - split; [intros _; left; reflexivity|].
    intros _. eexists. eexists. reflexivity.
Qed.

Lemma lone_chunk_witness :
  @exit_points Examples.boxes Examples.field_env Examples.chunk_diamond
    (@ground_line Examples.boxes Examples.field_env) = [(5, 4)%Q] /\
  @connect_burrow_chunks Examples.bbox Examples.boxes 0 Examples.field_env
    [Examples.chunk_diamond] (zeros 10 10) = Some (Raise ValueError).
Proof.
  split; [vm_compute; reflexivity|].
  rewrite (proj1 (@lone_chunk Examples.bbox Examples.boxes Examples.field_env
                    Examples.chunk_diamond (zeros 10 10) 0)).
  vm_compute. reflexivity.
Defined.

End ResolverExtras.


Module TracksMore.
Import Resolver Tracks TracksFacts Pipeline.

(** The active tracks can be counted by their places in the list. *)
Lemma active_count (l : list BurrowTrack) :
  length (List.filter active l) = length (active_tracks l).
Proof.
  induction l as [|x l IH] using rev_ind; [reflexivity|].
  unfold active_tracks in *. rewrite List.filter_app, !length_app.
  cbn [length]. rewrite Nat.add_1_r, seq_S, List.filter_app, length_app.
  cbn [List.filter Nat.add]. rewrite IH. f_equal.
  - f_equal. apply List.filter_ext_in. intros i Hi. apply in_seq in Hi.
    rewrite lookup_app_l by lia. reflexivity.
  - rewrite lookup_app_r, Nat.sub_diag by lia. cbn [lookup list_lookup].
    destruct (active x); reflexivity.
Qed.

Lemma size_add (p : nat) (E : gset nat) : size ({[p]} ∪ E) <= S (size E).
Proof.
  rewrite size_union_alt, size_singleton.
  assert (size (E ∖ {[p]}) <= size E).
  { apply subseteq_size. intros x Hx. apply elem_of_difference in Hx. tauto. }
  lia.
Qed.

Lemma deactivate_inactive (t : BurrowTrack) :
  active t = false -> deactivate t = t.
Proof. destruct t as [f l a]. simpl. intros ->. reflexivity. Qed.

Section WithShape.
Context `{BurrowShape}.

(** Every burrow of the frame extends one track or starts one. *)
Lemma match_loop_budget frame_id snapshot burrows : forall T E T' E',
  foldl (add_burrow frame_id snapshot) (T, E) burrows = (T', E') ->
  size E' + length T' <= size E + length T + length burrows.
Proof.
  induction burrows as [|b burrows IH]; intros T E T' E' Hf.
  - cbn [foldl] in Hf. injection Hf as <- <-. simpl. lia.
  - cbn [foldl] in Hf.
    destruct (add_burrow frame_id snapshot (T, E) b) as [T1 E1] eqn:H1.
    apply IH in Hf. cbn [length].
    assert (size E1 + length T1 <= S (size E + length T)); [|lia].
    unfold add_burrow in H1.
    destruct (first_match T b 0 snapshot) as [[track_id j]|].
    + assert (length T1 = length T /\ E1 = {[track_id]} ∪ E) as [-> ->].
      { destruct (T !! j) as [tj|]; [destruct (differs b (track_last tj))|];
          injection H1 as <- <-; rewrite ?length_insert; split; reflexivity. }
      pose proof (size_add track_id E). lia.
    + injection H1 as <- <-. unfold create_track. rewrite length_app. simpl. lia.
Qed.

(** What the burrow loop writes into the tracks that were there before:
    entries of this frame, with burrows of this frame. *)
Lemma match_loop_entries frame_id snapshot (all : list Burrow) burrows :
  (forall b, b ∈ burrows -> b ∈ all) ->
  forall T E T' E' i track,
  foldl (add_burrow frame_id snapshot) (T, E) burrows = (T', E') ->
  T !! i = Some track ->
  exists track' ext,
    T' !! i = Some track' /\
    first_entry track' = first_entry track /\
    active track' = active track /\
    later_entries track' = later_entries track ++ ext /\
    forall en, en ∈ ext -> en.1 = frame_id /\ en.2 ∈ all.
Proof.
  induction burrows as [|b burrows IH]; intros Hall T E T' E' i track Hf Hi.
  - cbn [foldl] in Hf. injection Hf as <- <-. exists track, [].
    rewrite app_nil_r. split; [exact Hi|]. do 3 (split; [reflexivity|]).
    intros en Hen. inversion Hen.
  - cbn [foldl] in Hf.
    destruct (add_burrow frame_id snapshot (T, E) b) as [T1 E1] eqn:H1.
    assert (Hsame : forall T0 : list BurrowTrack, T0 !! i = Some track ->
              exists t1 ext1,
                T0 !! i = Some t1 /\ first_entry t1 = first_entry track /\
                active t1 = active track /\
                later_entries t1 = later_entries track ++ ext1 /\
                forall en, en ∈ ext1 -> en.1 = frame_id /\ en.2 ∈ all).
    { intros T0 Ht0. exists track, []. rewrite app_nil_r.
      split; [exact Ht0|]. do 3 (split; [reflexivity|]).
      intros en Hen. inversion Hen. }
    assert (Hstep : exists t1 ext1,
              T1 !! i = Some t1 /\ first_entry t1 = first_entry track /\
              active t1 = active track /\
              later_entries t1 = later_entries track ++ ext1 /\
              forall en, en ∈ ext1 -> en.1 = frame_id /\ en.2 ∈ all).
    { unfold add_burrow in H1.
      destruct (first_match T b 0 snapshot) as [[track_id j]|] eqn:Hm.
      - apply first_match_Some in Hm as (p & tj & _ & _ & Hj & _).
        rewrite Hj in H1.
        destruct (differs b (track_last tj)); injection H1 as <- <-.
        + destruct (decide (i = j)) as [->|Hne].
          * assert (tj = track) as -> by congruence.
            exists (track_append track frame_id b), [(frame_id, b)].
            rewrite list_lookup_insert_eq by (eapply lookup_lt_Some; eassumption).
            do 4 (split; [reflexivity|]).
            intros en Hen. apply list_elem_of_singleton in Hen. subst en.
            split; [reflexivity|]. apply Hall. left.
          * apply Hsame. rewrite list_lookup_insert_ne by congruence. exact Hi.
        + apply Hsame. exact Hi.
      - injection H1 as <- <-. apply Hsame. unfold create_track.
        rewrite lookup_app_l by (eapply lookup_lt_Some; eassumption).
        exact Hi. }
    destruct Hstep as (t1 & ext1 & Hi1 & Hf1 & Ha1 & Hl1 & He1).
    destruct (IH (fun b' Hb' => Hall b' (list_elem_of_further _ _ _ Hb'))
                 T1 E1 T' E' i t1 Hf Hi1)
      as (t2 & ext2 & Hi2 & Hf2 & Ha2 & Hl2 & He2).
    exists t2, (ext1 ++ ext2). split; [exact Hi2|].
    split; [congruence|]. split; [congruence|].
    split; [rewrite Hl2, Hl1, app_assoc; reflexivity|].
    intros en Hen. apply elem_of_app in Hen as [Hen|Hen]; auto.
Qed.

(** The tracks that the burrow loop puts at the end of the list are as
    [create_track] made them. *)
Lemma match_loop_new frame_id snapshot (all : list Burrow) (n0 : nat) burrows :
  (forall j, j ∈ snapshot -> j < n0) ->
  (forall b, b ∈ burrows -> b ∈ all) ->
  forall T E T' E',
  foldl (add_burrow frame_id snapshot) (T, E) burrows = (T', E') ->
  n0 <= length T ->
  (forall i t, n0 <= i -> T !! i = Some t ->
     active t = true /\ later_entries t = [] /\
     exists b, b ∈ all /\ first_entry t = (frame_id, b)) ->
  forall i t, n0 <= i -> T' !! i = Some t ->
    active t = true /\ later_entries t = [] /\
    exists b, b ∈ all /\ first_entry t = (frame_id, b).
Proof.
  intros Hsnap. induction burrows as [|b burrows IH];
    intros Hall T E T' E' Hf Hn0 Hnew.
  - cbn [foldl] in Hf. injection Hf as <- <-. exact Hnew.
  - cbn [foldl] in Hf.
    destruct (add_burrow frame_id snapshot (T, E) b) as [T1 E1] eqn:H1.
    apply (IH (fun b' Hb' => Hall b' (list_elem_of_further _ _ _ Hb'))
              T1 E1 T' E' Hf).
    + apply add_burrow_length in H1. lia.
    + intros i t Hi Ht. unfold add_burrow in H1.
      destruct (first_match T b 0 snapshot) as [[track_id j]|] eqn:Hm.
      * apply first_match_Some in Hm as (p & tj & _ & Hp & Hj & _).
        assert (Hjlt : j < n0)
          by (apply Hsnap; eapply list_elem_of_lookup_2; eassumption).
        rewrite Hj in H1.
        destruct (differs b (track_last tj)); injection H1 as <- <-.
        -- rewrite list_lookup_insert_ne in Ht by lia. eapply Hnew; eassumption.
        -- eapply Hnew; eassumption.
      * injection H1 as <- <-. unfold create_track in Ht.
        destruct (decide (i < length T)) as [Hlt|Hge].
        -- rewrite lookup_app_l in Ht by exact Hlt. eapply Hnew; eassumption.
        -- rewrite lookup_app_r in Ht by lia.
           destruct (i - length T) as [|d]; [|destruct d; discriminate].
           injection Ht as <-. cbn [active later_entries first_entry].
           split; [reflexivity|]. split; [reflexivity|].
           exists b. split; [apply Hall; left|reflexivity].
Qed.

Lemma active_tracks_lt (burrow_tracks : list BurrowTrack) (j : nat) :
  j ∈ active_tracks burrow_tracks -> j < length burrow_tracks.
Proof.
  intros Hj. apply active_tracks_spec in Hj as (t & Ht & _).
  eapply lookup_lt_Some. exact Ht.
Qed.

End WithShape.
End TracksMore.


Module TracksCount.
Import Resolver Tracks TracksFacts Pipeline TracksMore.

Lemma filter_active_deactivated (l : list BurrowTrack) :
  List.filter active (map deactivate l) = [].
Proof. induction l as [|t l IH]; [reflexivity|]. simpl. exact IH. Qed.

Lemma gset_positions_length (E : gset nat) (n : nat) :
  length (List.filter (fun p => bool_decide (p ∈ E)) (seq 0 n)) <= size E.
Proof.
  change (size E) with (length (elements E)).
  apply submseteq_length, NoDup_submseteq.
  - apply NoDup_ListNoDup, List.NoDup_filter, List.seq_NoDup.
  - intros p Hp. apply list_elem_of_In, filter_In in Hp as [_ Hp].
    apply bool_decide_eq_true in Hp. apply elem_of_elements. exact Hp.
Qed.

Section WithShape.
Context `{BurrowShape}.

(** A frame without burrows deactivates every track and does nothing
    else. *)
Lemma add_no_burrows (frame_id : Z) (burrow_tracks : list BurrowTrack) :
  add_burrows_to_tracks frame_id [] burrow_tracks = map deactivate burrow_tracks.
Proof.
  unfold add_burrows_to_tracks, match_burrows. cbn [foldl].
  apply list_eq. intros i.
  rewrite (proj2 (deactivate_loop_lookup ∅ _ burrow_tracks i)).
  rewrite map_fmap, list_lookup_fmap.
  destruct (burrow_tracks !! i) as [t|] eqn:Hi; [|reflexivity].
  cbn [fmap option_fmap option_map]. f_equal.
  destruct (active t) eqn:Ha.
  - assert (Hin : i ∈ active_tracks burrow_tracks)
      by (apply active_tracks_spec; eauto).
    apply list_elem_of_lookup in Hin as [p Hp].
    rewrite (existsb_enumerate_true ∅ _ i p Hp); [reflexivity|].
    apply not_elem_of_empty.
  - rewrite existsb_enumerate_false.
    + symmetry. apply deactivate_inactive. exact Ha.
    + rewrite active_tracks_spec. intros (t' & Ht' & Ha'). congruence.
Qed.

(** The counts of a frame: the list of tracks grows by at most one track
    per burrow, and at most one track per burrow is active afterwards. *)
Lemma frame_track_counts (frame_id : Z) (burrows : list Burrow)
    (burrow_tracks : list BurrowTrack) :
  let result := add_burrows_to_tracks frame_id burrows burrow_tracks in
  length burrow_tracks <= length result /\
  length result <= length burrow_tracks + length burrows /\
  length (active_burrows result) <= length burrows.
Proof.
  intros result. subst result. unfold add_burrows_to_tracks.
  destruct (match_burrows frame_id burrows burrow_tracks) as [T' E'] eqn:Hm.
  set (snapshot := active_tracks burrow_tracks) in *.
  set (R := foldl (deactivate_step E') T' (enumerate snapshot)).
  assert (HlenR : length R = length T')
    by (apply (deactivate_loop_lookup E' (enumerate snapshot) T' 0)).
  pose proof (match_loop_length _ _ _ _ _ _ _ Hm) as Hlow.
  pose proof (match_loop_budget _ _ _ _ _ _ _ Hm) as Hbud.
  rewrite size_empty in Hbud.
  split; [lia|]. split; [lia|].
  unfold active_burrows. rewrite length_map, active_count.
  set (n0 := length burrow_tracks) in *.
  set (P := List.filter (fun p => bool_decide (p ∈ E')) (seq 0 (length snapshot))).
  set (f := fun p : nat => default 0 (snapshot !! p)).
  assert (Hsub : forall x, x ∈ active_tracks R ->
            x ∈ (f <$> P) ++ seq n0 (length R - n0)).
  { intros x Hx. apply active_tracks_spec in Hx as (r & Hr & Hact).
    assert (Hxlt : x < length R) by (eapply lookup_lt_Some; exact Hr).
    apply elem_of_app.
    destruct (decide (x < n0)) as [Hold|Hnew];
      [left|right; apply elem_of_seq; lia].
    destruct (lookup_lt_is_Some_2 burrow_tracks x Hold) as [t0 Ht0].
    destruct (match_loop_lookup _ _ _ _ _ _ _ _ _ Hm Ht0)
      as (t' & Ht' & Ha' & _ & _ & _).
    unfold R in Hr.
    rewrite (proj2 (deactivate_loop_lookup E' _ T' x)), Ht' in Hr.
    cbn [fmap option_fmap option_map] in Hr. injection Hr as <-.
    destruct (existsb _ (enumerate snapshot)) eqn:Hex; [discriminate Hact|].
    assert (Hin : x ∈ snapshot)
      by (apply active_tracks_spec; exists t0; split; congruence).
    apply list_elem_of_lookup in Hin as [p Hp].
    assert (HpE : p ∈ E').
    { destruct (decide (p ∈ E')) as [Hyes|Hno]; [exact Hyes|].
      rewrite (existsb_enumerate_true E' snapshot x p Hp Hno) in Hex.
      discriminate. }
    apply list_elem_of_fmap. exists p. split.
    - unfold f. rewrite Hp. reflexivity.
    - apply list_elem_of_In, filter_In. split.
      + apply in_seq. apply lookup_lt_Some in Hp. lia.
      + apply bool_decide_eq_true. exact HpE. }
  assert (Hle : length (active_tracks R)
                <= length ((f <$> P) ++ seq n0 (length R - n0))).
  { apply submseteq_length, NoDup_submseteq; [|exact Hsub].
    apply active_tracks_NoDup. }
  rewrite length_app, length_fmap, length_seq in Hle.
  pose proof (gset_positions_length E' (length snapshot)) as HP. fold P in HP.
  lia.
Qed.

End WithShape.
End TracksCount.


Module TracksExtras.
Import Resolver Tracks TracksFacts Pipeline TracksMore TracksCount.

(** X12. A frame in which no burrow was found deactivates every track and
    changes nothing else: no track is added or removed, no history is
    touched, and [active_burrows] is empty afterwards. *)
Theorem frame_without_burrows `{BurrowShape}
    (frame_id : Z) (burrow_tracks : list BurrowTrack) :
  add_burrows_to_tracks frame_id [] burrow_tracks = map deactivate burrow_tracks /\
  active_burrows (add_burrows_to_tracks frame_id [] burrow_tracks) = [].
Proof.
  split; [apply add_no_burrows|].
  rewrite add_no_burrows. unfold active_burrows.
  rewrite filter_active_deactivated. reflexivity.
Qed.

(** X13. A frame writes only its own entries. A track that was in the list
    keeps its place, its first entry and its earlier entries, and what is
    appended to it are entries with this frame's index and burrows of this
    frame. A track beyond the old end of the list is active, has no later
    entries, and starts at this frame's index with a burrow of this
    frame. *)
Theorem frame_writes_own_entries `{BurrowShape}
    (frame_id : Z) (burrows : list Burrow) (burrow_tracks : list BurrowTrack) :
  let result := add_burrows_to_tracks frame_id burrows burrow_tracks in
  (forall i track, burrow_tracks !! i = Some track ->
     exists track' ext,
       result !! i = Some track' /\
       first_entry track' = first_entry track /\
       later_entries track' = later_entries track ++ ext /\
       forall en, en ∈ ext -> en.1 = frame_id /\ en.2 ∈ burrows) /\
  (forall i track', length burrow_tracks <= i -> result !! i = Some track' ->
     active track' = true /\ later_entries track' = [] /\
     exists b, b ∈ burrows /\ first_entry track' = (frame_id, b)).
Proof.
  intros result. subst result. unfold add_burrows_to_tracks.
  destruct (match_burrows frame_id burrows burrow_tracks) as [T' E'] eqn:Hm.
  split.
  - intros i track Hi.
    destruct (match_loop_entries frame_id _ burrows burrows (fun b Hb => Hb)
                _ _ _ _ i track Hm Hi)
      as (t' & ext & Ht' & Hfirst & _ & Hlater & Hext).
    rewrite (proj2 (deactivate_loop_lookup E' _ T' i)), Ht'.
    cbn [fmap option_fmap option_map].
    eexists. exists ext. split; [reflexivity|].
    destruct (existsb _ _); cbn [deactivate first_entry later_entries];
      (split; [exact Hfirst|]); (split; [exact Hlater|exact Hext]).
  - intros i r Hge Hr.
    rewrite (proj2 (deactivate_loop_lookup E' _ T' i)) in Hr.
    destruct (T' !! i) as [t'|] eqn:Ht'; [|discriminate].
    cbn [fmap option_fmap option_map] in Hr.
    rewrite existsb_enumerate_false in Hr.
    + injection Hr as <-.
      apply (match_loop_new frame_id (active_tracks burrow_tracks) burrows
               (length burrow_tracks) burrows
               (fun j Hj => active_tracks_lt burrow_tracks j Hj)
               (fun b Hb => Hb) burrow_tracks ∅ T' E' Hm (Nat.le_refl _))
        with (i := i); [|exact Hge|exact Ht'].
      intros i0 t0 Hi0 Ht0. apply lookup_lt_Some in Ht0. lia.
    + intros Hin. apply active_tracks_lt in Hin. lia.
Qed.

(** X14. A frame adds at most one track per burrow and removes none, and
    when it is over at most as many tracks are active as the frame had
    burrows. *)
Theorem frame_adds_at_most_one_track_per_burrow `{BurrowShape}
    (frame_id : Z) (burrows : list Burrow) (burrow_tracks : list BurrowTrack) :
  let result := add_burrows_to_tracks frame_id burrows burrow_tracks in
  length burrow_tracks <= length result /\
  length result <= length burrow_tracks + length burrows /\
  length (active_burrows result) <= length burrows.
Proof.
  intros result.
  destruct (frame_track_counts frame_id burrows burrow_tracks)
    as (Hlow & Hup & Hact).
  split; [exact Hlow|]. split; [exact Hup|exact Hact].
Qed.

End TracksExtras.


Module PipelineFacts.
Import RasterFacts Mask MaskFacts VisionFacts Resolver ResolverFacts
  ResolverMore Tracks Pipeline Keeps.

Lemma qpixel_mkqimage h w f y x :
  y < h -> x < w -> qpixel (mkqimage h w f) y x = f y x.
Proof.
  intros Hy Hx. unfold qpixel, mkqimage.
  rewrite !map_fmap, list_lookup_fmap.
  assert (Hs : seq 0 h !! y = Some y) by (apply lookup_seq; lia).
  rewrite Hs. simpl.
  rewrite map_fmap, list_lookup_fmap.
  assert (Hs' : seq 0 w !! x = Some x) by (apply lookup_seq; lia).
  rewrite Hs'. reflexivity.
Qed.

Lemma count_row_false w : count_row w (fun _ => false) = 0.
Proof.
  unfold count_row. induction (seq 0 w) as [|x l IH]; [reflexivity|].
  rewrite filter_cons. destruct (decide (false = true)); [congruence|exact IH].
Qed.

Lemma count_px_false h w : count_px h w (fun _ _ => false) = 0.
Proof.
  unfold count_px. induction (seq 0 h) as [|y l IH]; [reflexivity|].
  cbn [foldr]. rewrite IH, count_row_false. reflexivity.
Qed.

(** One step of the adaptation keeps the background between the bounds of
    the frames. *)
Lemma adapt_background_within (e : env) (rate lo hi : Q)
    (background_avg : option qimage) (frame : image) :
  (0 <= rate)%Q -> (rate <= 1)%Q ->
  (forall y x, y < height e -> x < width e ->
     (lo <= inject_Z (pixel frame y x))%Q /\ (inject_Z (pixel frame y x) <= hi)%Q) ->
  (forall bg, background_avg = Some bg -> within e lo hi bg) ->
  within e lo hi (adapt_background e rate background_avg frame).
Proof.
  intros H0 H1 Hframe Hbg y x Hy Hx. unfold adapt_background.
  destruct (Hframe y x Hy Hx) as [Hlo Hhi].
  destruct background_avg as [bg|]; rewrite qpixel_mkqimage by assumption.
  - destruct (Hbg bg eq_refl y x Hy Hx) as [Blo Bhi].
    set (b := qpixel bg y x) in *. set (f := inject_Z (pixel frame y x)) in *.
    split; nra.
  - split; assumption.
Qed.

Section WithRasterizer.
Context `{Rasterizer}.

Lemma update_burrow_mask_cache e bg frame m m' :
  update_burrow_mask e bg frame m = Ok m' ->
  Mask.cache_image_uint8 m' = change_mask e bg frame.
Proof.
  unfold update_burrow_mask.
  destruct (get_ground_mask e) as [gm|]; [|discriminate]. cbn [rbind].
  destruct (too_much_change _ gm); intros [= <-]; reflexivity.
Qed.

End WithRasterizer.

Section WithVision.
Context `{Rasterizer} `{Labelling} `{Geometry}.

Lemma get_burrow_chunks_length (e : env) (frame bm : image) :
  length (get_burrow_chunks e frame bm).1 <= (label bm).2.
Proof.
  unfold get_burrow_chunks. destruct (label bm) as [labels n]. cbn [fst snd].
  destruct (chunk_loop_spec e frame labels (seq 1 n) [] bm) as [Hc _].
  rewrite Hc. cbn [app]. rewrite length_map.
  etransitivity; [apply filter_length_le|]. rewrite length_seq. lia.
Qed.

Lemma connect_burrow_chunks_length (e : env) (chunks : list polyline)
    (bm bm' : image) (fuel : nat) (burrows : list Burrow) :
  connect_burrow_chunks fuel e chunks bm = Some (Ok (burrows, bm')) ->
  length burrows <= length chunks.
Proof.
  unfold connect_burrow_chunks.
  destruct chunks as [|c0 chunks'].
  - intros [= <- _]. reflexivity.
  - destruct (resolve fuel e (c0 :: chunks') bm) as [[st|ex]|] eqn:Hres;
      [|discriminate|discriminate].
    intros [= <- _].
    destruct (resolve_keeps e (c0 :: chunks') bm fuel st) as ([Hlen _ _ _ _ _] & _);
      [discriminate|exact Hres|].
    rewrite length_map, <- Hlen. apply unique_based_on_id_length.
Qed.



End WithVision.
End PipelineFacts.



Module PipelineExtras.
Import RasterFacts Mask MaskFacts Resolver ResolverFacts Tracks TracksCount
  Pipeline PipelineFacts.

(** X15. What a frame can do to the tracks. When [find_burrows] returns on
    a frame for which the burrow mask was already set, the frame index is
    as it was, the cached raster holds the pixels flagged in this frame,
    the burrow mask is set, no track has been removed, and the number of
    regions that the labelling finds in the updated mask bounds both the
    number of tracks that were added and the number of tracks that are
    active afterwards. *)
Theorem find_burrows_bounds `{Rasterizer} `{Labelling} `{Geometry} `{BurrowShape}
    (fuel : nat) (e : env) (bg : qimage) (frame : image) (st st' : pass4)
    (bm0 : image) (m : masks) :
  Pipeline.burrow_mask st = Some bm0 ->
  update_burrow_mask e bg frame
    {| Mask.burrow_mask := bm0;
       Mask.cache_image_uint8 := Pipeline.cache_image_uint8 st |} = Ok m ->
  find_burrows fuel e bg frame st = Some (Ok st') ->
  frame_id st' = frame_id st /\
  Pipeline.cache_image_uint8 st' = change_mask e bg frame /\
  (exists bm', Pipeline.burrow_mask st' = Some bm') /\
  length (burrow_tracks st) <= length (burrow_tracks st') /\
  length (burrow_tracks st')
  <= length (burrow_tracks st) + (label (Mask.burrow_mask m)).2 /\
  length (active_burrows (burrow_tracks st')) <= (label (Mask.burrow_mask m)).2.
Proof.
  intros Hbm Hup. unfold find_burrows. rewrite Hbm, Hup.
  pose proof (get_burrow_chunks_length e frame (Mask.burrow_mask m)) as Hchunks.
  destruct (get_burrow_chunks e frame (Mask.burrow_mask m)) as [chunks bm1].
  cbn [fst] in Hchunks.
  destruct (connect_burrow_chunks fuel e chunks bm1) as [[[burrows bm2]|ex]|]
    eqn:Hconn; [|discriminate|discriminate].
  intros [= <-].
  cbn [frame_id Pipeline.cache_image_uint8 Pipeline.burrow_mask burrow_tracks].
  apply connect_burrow_chunks_length in Hconn.
  destruct (frame_track_counts (frame_id st) burrows (burrow_tracks st))
    as (Hlow & Hhigh & Hact).
  split; [reflexivity|].
  split; [eapply update_burrow_mask_cache; exact Hup|].
  split; [eexists; reflexivity|].
  split; [exact Hlow|]. split; lia.
Qed.

Lemma find_burrows_bounds_witness :
  exists st',
    @find_burrows Examples.bbox Examples.one_region Examples.boxes
      Examples.share_vertex 3 Examples.flicker_env Examples.flicker_background
      Examples.flicker_frame Scenes.flicker_pass = Some (Ok st') /\
    frame_id st' = 7%Z /\
    length (burrow_tracks st') <= 1 + 1 /\
    length (active_burrows (burrow_tracks st')) <= 1.
Proof.
  eexists. split; [vm_compute; reflexivity|].
  assert (Hb : forall m st',
            @update_burrow_mask Examples.bbox Examples.flicker_env
              Examples.flicker_background Examples.flicker_frame
              {| Mask.burrow_mask := zeros 5 5;
                 Mask.cache_image_uint8 := zeros 5 5 |} = Ok m ->
            (@label Examples.one_region (Mask.burrow_mask m)).2 = 1 ->
            @find_burrows Examples.bbox Examples.one_region Examples.boxes
              Examples.share_vertex 3 Examples.flicker_env
              Examples.flicker_background Examples.flicker_frame
              Scenes.flicker_pass = Some (Ok st') ->
            frame_id st' = 7%Z /\
            length (burrow_tracks st') <= 1 + 1 /\
            length (active_burrows (burrow_tracks st')) <= 1).
  { intros m st' Hup Hn Hfind.
    destruct (@find_burrows_bounds Examples.bbox Examples.one_region
                Examples.boxes Examples.share_vertex 3 Examples.flicker_env
                Examples.flicker_background Examples.flicker_frame
                Scenes.flicker_pass st' (zeros 5 5) m eq_refl Hup Hfind)
      as (Hid & _ & _ & _ & Hhigh & Hact).
    rewrite Hn in Hhigh, Hact.
    split; [exact Hid|]. split; [exact Hhigh|exact Hact]. }
  eapply Hb; [vm_compute; reflexivity| |vm_compute; reflexivity].
  vm_compute. reflexivity.
Defined.

(** X16. A frame in whose mask no chunk is found. [find_burrows] then
    returns for every amount of fuel: the burrow mask is the updated mask
    as [get_burrow_chunks] left it, and every track is deactivated and
    otherwise untouched. *)
Theorem frame_without_chunks `{Rasterizer} `{Labelling} `{Geometry} `{BurrowShape}
    (fuel : nat) (e : env) (bg : qimage) (frame : image) (st : pass4)
    (bm0 : image) (m : masks) :
  Pipeline.burrow_mask st = Some bm0 ->
  update_burrow_mask e bg frame
    {| Mask.burrow_mask := bm0;
       Mask.cache_image_uint8 := Pipeline.cache_image_uint8 st |} = Ok m ->
  (get_burrow_chunks e frame (Mask.burrow_mask m)).1 = [] ->
  find_burrows fuel e bg frame st
  = Some (Ok {| frame_id := frame_id st;
                Pipeline.burrow_mask :=
                  Some (get_burrow_chunks e frame (Mask.burrow_mask m)).2;
                Pipeline.cache_image_uint8 := change_mask e bg frame;
                burrow_tracks := map deactivate (burrow_tracks st) |}).
Proof.
  intros Hbm Hup. unfold find_burrows. rewrite Hbm, Hup.
  destruct (get_burrow_chunks e frame (Mask.burrow_mask m)) as [chunks bm1].
  cbn [fst snd]. intros ->. cbn [connect_burrow_chunks].
  rewrite add_no_burrows, (update_burrow_mask_cache _ _ _ _ _ Hup).
  reflexivity.
Qed.

Lemma frame_without_chunks_witness :
  @find_burrows Examples.bbox Examples.one_region Examples.boxes
    Examples.share_vertex 0 Examples.flicker_env Examples.flicker_background
    Scenes.still_frame Scenes.flicker_pass
  = Some (Ok {| frame_id := 7;
                Pipeline.burrow_mask := Some (zeros 5 5);
                Pipeline.cache_image_uint8 := zeros 5 5;
                burrow_tracks :=
                  [Examples.track_of 3 Examples.burrow_a false] |}).
Proof.
  assert (Hb : forall m,
            @update_burrow_mask Examples.bbox Examples.flicker_env
              Examples.flicker_background Scenes.still_frame
              {| Mask.burrow_mask := zeros 5 5;
                 Mask.cache_image_uint8 := zeros 5 5 |} = Ok m ->
            @get_burrow_chunks Examples.one_region Examples.boxes
              Examples.flicker_env Scenes.still_frame (Mask.burrow_mask m)
            = ([], zeros 5 5) ->
            @change_mask Examples.flicker_env Examples.flicker_background
              Scenes.still_frame = zeros 5 5 ->
            @find_burrows Examples.bbox Examples.one_region Examples.boxes
              Examples.share_vertex 0 Examples.flicker_env
              Examples.flicker_background Scenes.still_frame Scenes.flicker_pass
            = Some (Ok {| frame_id := 7;
                          Pipeline.burrow_mask := Some (zeros 5 5);
                          Pipeline.cache_image_uint8 := zeros 5 5;
                          burrow_tracks :=
                            [Examples.track_of 3 Examples.burrow_a false] |})).
  { intros m Hup Hchunks Hchange.
    pose proof (@frame_without_chunks Examples.bbox Examples.one_region
                  Examples.boxes Examples.share_vertex 0 Examples.flicker_env
                  Examples.flicker_background Scenes.still_frame
                  Scenes.flicker_pass (zeros 5 5) m eq_refl Hup) as Hf.
    rewrite Hchunks, Hchange in Hf. exact (Hf eq_refl). }
  eapply Hb.
  - vm_compute. reflexivity.
  - vm_compute. reflexivity.
  - vm_compute. reflexivity.
Defined.

(** X17. The first frame flags nothing. The frame loop takes the first
    frame as the background, so with a colour deviation of the sand that
    is not negative the difference to the background is below the
    threshold nowhere: the raster of flagged pixels is empty, and
    [update_burrow_mask] does not take its early return. *)
Theorem first_frame_flags_nothing `{Rasterizer}
    (e : env) (adaptation_rate : Q) (frame gm : image) :
  (0 <= sand_std e)%Q ->
  get_ground_mask e = Ok gm ->
  let bg := adapt_background e adaptation_rate None frame in
  change_mask e bg frame = zeros (height e) (width e) /\
  flagged_count e bg frame = 0 /\
  too_much_change (change_mask e bg frame) gm = false.
Proof.
  intros Hstd Hgm bg.
  assert (Hpx : forall y x, y < height e -> x < width e ->
            Qltb (- qpixel bg y x + inject_Z (pixel frame y x)) (- sand_std e)
            = false).
  { intros y x Hy Hx. apply Qltb_ge. unfold bg, adapt_background.
    rewrite qpixel_mkqimage by assumption.
    set (q := inject_Z (pixel frame y x)). lra. }
  assert (Hcount : flagged_count e bg frame = 0).
  { unfold flagged_count.
    rewrite (count_px_ext _ _ _ (fun _ _ => false)); [apply count_px_false|].
    intros y x Hy Hx. unfold change_mask. rewrite pixel_mkimage by assumption.
    rewrite (Hpx y x Hy Hx). reflexivity. }
  split; [|split].
  - unfold change_mask, zeros. apply mkimage_ext. intros y x Hy Hx.
    rewrite (Hpx y x Hy Hx). reflexivity.
  - exact Hcount.
  - apply not_true_is_false. intros Ht.
    apply (too_much_change_iff e bg frame gm Hgm) in Ht. lia.
Qed.

Lemma first_frame_flags_nothing_witness :
  let bg := adapt_background Examples.flicker_env (1 # 100) None
              Examples.flicker_frame in
  @change_mask Examples.flicker_env bg Examples.flicker_frame = zeros 5 5 /\
  @flagged_count Examples.flicker_env bg Examples.flicker_frame = 0 /\
  too_much_change (@change_mask Examples.flicker_env bg Examples.flicker_frame)
    (mkimage 5 5 (fun _ _ => 255%Z)) = false.
Proof.
  apply (@first_frame_flags_nothing Examples.bbox Examples.flicker_env (1 # 100)
           Examples.flicker_frame (mkimage 5 5 (fun _ _ => 255%Z))).
  - vm_compute. discriminate.
  - vm_compute. reflexivity.
Defined.

(** X18. The background stays in the range of the frames. With an
    adaptation rate between 0 and 1, if every value of every frame lies
    between two bounds, so does every value of the background after the
    frames. *)
Theorem background_stays_in_range
    (e : env) (adaptation_rate lo hi : Q) (frames : list image) (bg : qimage) :
  (0 <= adaptation_rate)%Q -> (adaptation_rate <= 1)%Q ->
  (forall frame, frame ∈ frames ->
     forall y x, y < height e -> x < width e ->
       (lo <= inject_Z (pixel frame y x))%Q /\
       (inject_Z (pixel frame y x) <= hi)%Q) ->
  background_after e adaptation_rate frames = Some bg ->
  within e lo hi bg.
Proof.
  intros H0 H1. unfold background_after.
  assert (Hgen : forall acc : option qimage,
            (forall frame, frame ∈ frames ->
               forall y x, y < height e -> x < width e ->
                 (lo <= inject_Z (pixel frame y x))%Q /\
                 (inject_Z (pixel frame y x) <= hi)%Q) ->
            (forall b, acc = Some b -> within e lo hi b) ->
            foldl (fun bg0 frame =>
                     Some (adapt_background e adaptation_rate bg0 frame))
                  acc frames = Some bg ->
            within e lo hi bg).
  { induction frames as [|frame frames IH]; intros acc Hframes Hacc Hfold.
    - cbn [foldl] in Hfold. apply Hacc. exact Hfold.
    - cbn [foldl] in Hfold. eapply IH; [| |exact Hfold].
      + intros f Hf. apply Hframes. right. exact Hf.
      + intros b [= <-]. apply adapt_background_within; try assumption.
        apply Hframes. left. }
  intros Hframes Hfold. apply (Hgen None Hframes); [discriminate|exact Hfold].
Qed.

Lemma background_stays_in_range_witness :
  exists bg,
    background_after Examples.flicker_env (1 # 100)
      [Examples.flicker_frame; Scenes.still_frame; Examples.flicker_frame]
    = Some bg /\
    within Examples.flicker_env 50 100 bg.
Proof.
  eexists. split; [reflexivity|].
  apply (background_stays_in_range Examples.flicker_env (1 # 100) 50 100
           [Examples.flicker_frame; Scenes.still_frame; Examples.flicker_frame]).
  - vm_compute. discriminate.
  - vm_compute. discriminate.
  - intros frame Hf y x Hy Hx. cbn [height width Examples.flicker_env] in Hy, Hx.
    assert (Hy' : y = 0 \/ y = 1 \/ y = 2 \/ y = 3 \/ y = 4) by lia.
    assert (Hx' : x = 0 \/ x = 1 \/ x = 2 \/ x = 3 \/ x = 4) by lia.
    repeat (apply elem_of_cons in Hf as [->|Hf]);
      [| | |inversion Hf];
      (destruct Hy' as [->|[->|[->|[->| ->]]]];
       destruct Hx' as [->|[->|[->|[->| ->]]]];
       split; vm_compute; discriminate).
  - reflexivity.
Defined.

(** X19. Without a ground profile no frame is processed. When the ground
    profile has no point, [find_burrows] raises [IndexError], whatever the
    frame, the masks, the tracks and the fuel: both the first mask and the
    update read the ground mask before anything else. *)
Theorem find_burrows_without_ground
    `{Rasterizer} `{Labelling} `{Geometry} `{BurrowShape}
    (fuel : nat) (e : env) (bg : qimage) (frame : image) (st : pass4) :
  ground_points e = [] ->
  find_burrows fuel e bg frame st = Some (Raise IndexError).
Proof.
  intros Hg.
  assert (Hgm : get_ground_mask e = Raise IndexError)
    by (unfold get_ground_mask; rewrite Hg; reflexivity).
  unfold find_burrows.
  destruct (Pipeline.burrow_mask st) as [bm0|].
  - unfold update_burrow_mask. rewrite Hgm. reflexivity.
  - unfold get_initial_burrow_mask. rewrite Hgm. reflexivity.
Qed.

Lemma find_burrows_without_ground_witness :
  @find_burrows Examples.bbox Examples.one_region Examples.boxes
    Examples.share_vertex 0 Scenes.no_ground_env Examples.flicker_background
    Examples.flicker_frame Scenes.flicker_pass
  = Some (Raise IndexError).
Proof.
  exact (@find_burrows_without_ground Examples.bbox Examples.one_region
           Examples.boxes Examples.share_vertex 0 Scenes.no_ground_env
           Examples.flicker_background Examples.flicker_frame
           Scenes.flicker_pass eq_refl).
Defined.



(** X21. A first frame without a dark region stops the pass. When the
    burrow mask is not set yet and the labelling finds no region in the
    first frame cut at the first threshold, [find_burrows] raises
    [ValueError], the [max] of no areas, in the first round of the
    threshold loop: the threshold is not lowered, and neither the mask
    update nor the track manager is reached. *)
Theorem first_frame_without_dark_region
    `{Rasterizer} `{Labelling} `{Geometry} `{BurrowShape}
    (fuel : nat) (e : env) (bg : qimage) (frame gm : image) (st : pass4) :
  Pipeline.burrow_mask st = None ->
  get_ground_mask e = Ok gm ->
  (label (threshold_mask e frame (eroded_ground_mask e gm)
            (initial_color_thresh e))).2 = 0 ->
  0 < fuel ->
  find_burrows fuel e bg frame st = Some (Raise ValueError).
Proof.
  intros Hbm Hgm Hn Hf. unfold find_burrows. rewrite Hbm.
  unfold get_initial_burrow_mask. rewrite Hgm.
  fold (eroded_ground_mask e gm).
  destruct fuel as [|fuel]; [lia|]. cbn [threshold_loop]. unfold largest_area.
  destruct (label _) as [labels k]. cbn [snd] in Hn. subst k. reflexivity.
Qed.

Lemma first_frame_without_dark_region_witness :
  @find_burrows Examples.bbox Examples.one_region Examples.boxes
    Examples.share_vertex 1 Examples.flicker_env Examples.flicker_background
    Scenes.bright_frame Scenes.fresh_pass
  = Some (Raise ValueError).
Proof.
  apply (@first_frame_without_dark_region Examples.bbox Examples.one_region
           Examples.boxes Examples.share_vertex 1 Examples.flicker_env
           Examples.flicker_background Scenes.bright_frame
           (mkimage 5 5 (fun _ _ => 255%Z)) Scenes.fresh_pass).
  - reflexivity.
  - vm_compute. reflexivity.
  - vm_compute. reflexivity.
  - lia.
Defined.

End PipelineExtras.


Module VideoExtras.
Import Video.

(** X22. The frame pointer of a video is either where [__init__] put it or
    at the index of the last seek, which is then a valid index: after a
    run of calls of [set_frame_pos] none of which raised, the number of
    frames is as it was, and the pointer is 0 if there was no call, and
    otherwise the last index, which is at least 0 and less than the number
    of frames. In particular no seek succeeds on a video made with the
    default [frame_count=-1]. *)
Theorem frame_pos_stays_valid (n : Z) (indices : list Z) (video : VideoBase) :
  seek_all (init n) indices = Ok video ->
  frame_count video = n /\
  (indices = [] /\ get_frame_pos video = 0%Z \/
   last indices = Some (get_frame_pos video) /\
   (0 <= get_frame_pos video < n)%Z).
Proof.
  assert (Hgen : forall v : VideoBase,
            seek_all v indices = Ok video ->
            frame_count video = frame_count v /\
            (indices = [] /\ video = v \/
             last indices = Some (get_frame_pos video) /\
             (0 <= get_frame_pos video < frame_count v)%Z)).
  { induction indices as [|index rest IH]; intros v Hrun.
    - cbn [seek_all] in Hrun. injection Hrun as <-.
      split; [reflexivity|]. left. split; reflexivity.
    - cbn [seek_all] in Hrun. unfold set_frame_pos in Hrun.
      destruct ((0 <=? index)%Z && (index <? frame_count v)%Z) eqn:Hin;
        [|discriminate].
      cbn [rbind] in Hrun. apply IH in Hrun as [Hfc Hpos].
      cbn [frame_count] in Hfc, Hpos.
      split; [exact Hfc|]. right.
      destruct Hpos as [[-> ->]|[Hlast Hrange]].
      + cbn [last get_frame_pos _frame_pos]. split; [reflexivity|].
        apply andb_prop in Hin as [Ha Hb]. lia.
      + split; [|exact Hrange].
        destruct rest as [|r rest']; [discriminate Hlast|exact Hlast]. }
  intros Hrun. destruct (Hgen (init n) Hrun) as [Hfc Hpos].
  cbn [init frame_count] in Hfc, Hpos.
  split; [exact Hfc|].
  destruct Hpos as [[-> ->]|Hpos]; [left; split; reflexivity|right; exact Hpos].
Qed.

Lemma frame_pos_stays_valid_witness :
  exists video,
    seek_all (init 3) [2; 0; 1]%Z = Ok video /\
    frame_count video = 3%Z /\
    ([2; 0; 1]%Z = [] /\ get_frame_pos video = 0%Z \/
     last [2; 0; 1]%Z = Some (get_frame_pos video) /\
     (0 <= get_frame_pos video < 3)%Z).
Proof.
  eexists. split; [reflexivity|].
  apply (frame_pos_stays_valid 3 [2; 0; 1]%Z). reflexivity.
Defined.

End VideoExtras.
